(** * Endless Sky multiplayer core: a shallow embedding and its properties

    The development follows the C++ sources of the multiplayer layer:
    [PlayerCommand], [CommandValidator], [CommandBuffer], [GameState],
    [Predictor], [SnapshotManager], [ClientReconciliation],
    [EntityInterpolator], [ProjectileSync], [ServerConfig], [ServerLoop],
    [Server], [PlayerRegistry], [ConnectionMonitor], [MultiplayerClient],
    [InterestManager] and [StateSync].

    Conventions of the embedding.
    - [uint64_t], [uint32_t] and [size_t] values are integers of [Z]; every
      arithmetic operation of the source that can wrap is written with its
      wrap-around ([sub64], [add64], [incr64], [incr32]).
    - [double] values are binary64 numbers, Rocq's primitive floats, in the
      modules of [Binary64]: the client reconciliation and the blend of the
      entity interpolator, where rounding matters.  Elsewhere they are
      idealised as real numbers of [R] (no rounding, no NaN, no
      infinities), as the properties stated there say.  The only [double]
      computation of the command validator works on integers below 2^53
      and is kept exact in [Q].
    - Every method that mutates its object takes the object and returns
      the new one; a method that reads a clock takes the clock reading as
      an argument.
    - [std::map] is a [gmap]; [std::vector], [std::deque] and [std::list]
      are lists; the [std::multimap] of the command buffer is a list kept
      sorted by key, equal keys in insertion order. *)

From Stdlib Require Import ZArith List Bool Lia QArith Reals Lra Sorted.
From Stdlib Require Floats.
From stdpp Require Import gmap strings sorting.

Local Open Scope Z_scope.

(** * The embedding *)

(** ** Machine integers *)

Definition wrap64 (x : Z) : Z := x mod 2 ^ 64.
Definition wrap32 (x : Z) : Z := x mod 2 ^ 32.
Definition add64 (x y : Z) : Z := wrap64 (x + y).
Definition sub64 (x y : Z) : Z := wrap64 (x - y).
Definition incr64 (x : Z) : Z := wrap64 (x + 1).
Definition incr32 (x : Z) : Z := wrap32 (x + 1).
Definition mul64 (x y : Z) : Z := wrap64 (x * y).

Definition is_u64 (x : Z) : Prop := 0 <= x < 2 ^ 64.
Definition is_u32 (x : Z) : Prop := 0 <= x < 2 ^ 32.

(** ** Identity and geometry *)

(** Modelled from the spec: [EsUuid] (source/EsUuid.h is not among the
    sources).  The spec gives every player and body a UUID "with total
    ordering and string form"; a UUID is represented by its string form,
    and the UUID that was never set has the empty string. *)
Abbreviation EsUuid := string.

Definition ToString (u : EsUuid) : string := u.

(** [std::string::empty]. *)
Definition string_empty (s : string) : bool := bool_decide (s = ""%string).

(** Modelled from the spec: [Point] (source/Point.h is not among the
    sources), "a 2-D real vector" with component-wise sum, difference,
    scaling by a scalar, and the Euclidean length. *)
Record Point : Type := mkPoint { X : R; Y : R }.

Definition Point0 : Point := mkPoint 0 0.

Definition Point_add (p q : Point) : Point :=
  mkPoint (X p + X q) (Y p + Y q).

Definition Point_sub (p q : Point) : Point :=
  mkPoint (X p - X q) (Y p - Y q).

Definition Point_scale (p : Point) (k : R) : Point :=
  mkPoint (X p * k) (Y p * k).

Definition Length (p : Point) : R := sqrt (X p * X p + Y p * Y p).

(** ** PlayerCommand.h *)

Module PlayerCommand.

Record t : Type := mk {
  playerUUID : EsUuid;
  gameTick : Z;            (* uint64_t *)
  command : Z;             (* Command, the control word *)
  targetPoint : Point;
  hasTargetPoint : bool;
  sequenceNumber : Z       (* uint32_t *)
}.

(** [operator<]: by tick, then by sequence number. *)
Definition ltb (a b : t) : bool :=
  if negb (gameTick a =? gameTick b) then gameTick a <? gameTick b
  else sequenceNumber a <? sequenceNumber b.

(** [operator==]: player, tick and sequence number. *)
Definition eqb (a b : t) : bool :=
  bool_decide (playerUUID a = playerUUID b)
  && (gameTick a =? gameTick b)
  && (sequenceNumber a =? sequenceNumber b).

Definition IsValid (c : t) : bool :=
  if string_empty (ToString (playerUUID c)) then false
  else if 1000000000 <? gameTick c then false
  else true.

End PlayerCommand.

(** ** CommandValidator.h, CommandValidator.cpp *)

Module CommandValidator.

Inductive Result : Type :=
| VALID
| INVALID_PLAYER
| INVALID_TICK
| TOO_OLD
| TOO_FUTURE
| RATE_LIMITED
| MALFORMED.

Record RateLimitData : Type := mkRate {
  lastCommandTime : Z;     (* uint64_t *)
  commandsInWindow : Z;    (* uint32_t *)
  windowStartTime : Z      (* uint64_t *)
}.

Definition RateLimitData0 : RateLimitData := mkRate 0 0 0.

Record t : Type := mk {
  playerRateLimits : gmap string RateLimitData;
  maxPastTicks : Z;          (* uint64_t *)
  maxFutureTicks : Z;        (* uint64_t *)
  maxCommandsPerSecond : Z;  (* uint32_t *)
  totalCommands : Z;         (* uint64_t *)
  rejectedCommands : Z       (* uint64_t *)
}.

(** The validator as its constructor leaves it. *)
Definition init : t := mk ∅ 60 60 120 0 0.

Definition RATE_LIMIT_WINDOW_MS : Z := 1000.

Definition SetMaxPastTicks (ticks : Z) (v : t) : t :=
  mk (playerRateLimits v) ticks (maxFutureTicks v) (maxCommandsPerSecond v)
     (totalCommands v) (rejectedCommands v).

Definition SetMaxFutureTicks (ticks : Z) (v : t) : t :=
  mk (playerRateLimits v) (maxPastTicks v) ticks (maxCommandsPerSecond v)
     (totalCommands v) (rejectedCommands v).

Definition SetMaxCommandsPerSecond (rate : Z) (v : t) : t :=
  mk (playerRateLimits v) (maxPastTicks v) (maxFutureTicks v) rate
     (totalCommands v) (rejectedCommands v).

Definition set_limits (m : gmap string RateLimitData) (v : t) : t :=
  mk m (maxPastTicks v) (maxFutureTicks v) (maxCommandsPerSecond v)
     (totalCommands v) (rejectedCommands v).

Definition count_total (v : t) : t :=
  mk (playerRateLimits v) (maxPastTicks v) (maxFutureTicks v)
     (maxCommandsPerSecond v) (incr64 (totalCommands v)) (rejectedCommands v).

Definition count_rejected (v : t) : t :=
  mk (playerRateLimits v) (maxPastTicks v) (maxFutureTicks v)
     (maxCommandsPerSecond v) (totalCommands v) (incr64 (rejectedCommands v)).

(** [playerRateLimits[playerUUID]]: the entry, default-constructed when the
    player has none. *)
Definition rate_entry (v : t) (playerUUID : EsUuid) : RateLimitData :=
  default RateLimitData0 (playerRateLimits v !! playerUUID).

(** The window of the entry at time [currentTime]: a new one when the old
    one is at least [RATE_LIMIT_WINDOW_MS] old (unsigned difference). *)
Definition roll_window (data : RateLimitData) (currentTime : Z) : RateLimitData :=
  if RATE_LIMIT_WINDOW_MS <=? sub64 currentTime (windowStartTime data)
  then mkRate (lastCommandTime data) 0 currentTime
  else data.

(** [static_cast<double>(n) * 1000.0 / static_cast<double>(WINDOW_MS)]:
    exact, [n] is a [uint32_t]. *)
Definition commandsPerSecond (n : Z) : Q :=
  (inject_Z n * inject_Z 1000 / inject_Z RATE_LIMIT_WINDOW_MS)%Q.

Definition CheckRateLimit (v : t) (playerUUID : EsUuid) (currentTime : Z)
  : bool * t :=
  let data := roll_window (rate_entry v playerUUID) currentTime in
  let data' := mkRate currentTime (incr32 (commandsInWindow data))
                      (windowStartTime data) in
  let v' := set_limits (<[playerUUID := data']> (playerRateLimits v)) v in
  if negb (Qle_bool (commandsPerSecond (commandsInWindow data'))
                    (inject_Z (maxCommandsPerSecond v)))
  then (false, v')
  else (true, v').

(** [now] is the reading of the steady clock in milliseconds. *)
Definition ValidateCommand (v : t) (command : PlayerCommand.t)
  (currentTick : Z) (now : Z) : Result * t :=
  let v := count_total v in
  if negb (PlayerCommand.IsValid command) then
    (MALFORMED, count_rejected v)
  else if string_empty (ToString (PlayerCommand.playerUUID command)) then
    (INVALID_PLAYER, count_rejected v)
  else if PlayerCommand.gameTick command <? sub64 currentTick (maxPastTicks v) then
    (TOO_OLD, count_rejected v)
  else if add64 currentTick (maxFutureTicks v) <? PlayerCommand.gameTick command then
    (TOO_FUTURE, count_rejected v)
  else
    let currentTime := now in
    let '(ok, v) := CheckRateLimit v (PlayerCommand.playerUUID command) currentTime in
    if negb ok then (RATE_LIMITED, count_rejected v)
    else (VALID, v).

Definition ClearPlayerTracking (playerUUID : EsUuid) (v : t) : t :=
  set_limits (delete playerUUID (playerRateLimits v)) v.

Definition GetTotalCommandsValidated (v : t) : Z := totalCommands v.

Definition GetTotalCommandsRejected (v : t) : Z := rejectedCommands v.

(** The quotient of the two [uint64_t] counters, taken in [Q]. *)
Definition GetRejectionRate (v : t) : Q :=
  if totalCommands v =? 0 then 0%Q
  else (inject_Z (rejectedCommands v) / inject_Z (totalCommands v))%Q.

Definition GetPlayerCommandRate (v : t) (playerUUID : EsUuid) : Q :=
  match playerRateLimits v !! playerUUID with
  | None => 0%Q
  | Some data =>
      if commandsInWindow data =? 0 then 0%Q
      else commandsPerSecond (commandsInWindow data)
  end.

Definition ResetStatistics (v : t) : t :=
  mk (playerRateLimits v) (maxPastTicks v) (maxFutureTicks v)
     (maxCommandsPerSecond v) 0 0.

End CommandValidator.

(** ** CommandBuffer.h, CommandBuffer.cpp *)

Module CommandBuffer.

Record t : Type := mk {
  (* std::multimap<uint64_t, PlayerCommand>: sorted by key, equal keys in
     insertion order *)
  commandQueue : list (Z * PlayerCommand.t);
  (* std::map<EsUuid, std::vector<PlayerCommand>> *)
  playerCommands : gmap string (list PlayerCommand.t);
  maxBufferSize : Z          (* size_t *)
}.

Definition init : t := mk [] ∅ 10000.

Definition SetMaxBufferSize (maxSize : Z) (b : t) : t :=
  mk (commandQueue b) (playerCommands b) maxSize.

(** [std::multimap::emplace]: the new element goes to the upper bound of
    its key, after the elements of equal key. *)
Fixpoint emplace (k : Z) (c : PlayerCommand.t) (q : list (Z * PlayerCommand.t))
  : list (Z * PlayerCommand.t) :=
  match q with
  | [] => [(k, c)]
  | e :: rest => if k <? fst e then (k, c) :: q else e :: emplace k c rest
  end.

(** [std::multimap::equal_range]: from the first element whose key is not
    below [k] up to the first element whose key is above [k]. *)
Fixpoint lower_bound (k : Z) (q : list (Z * PlayerCommand.t))
  : list (Z * PlayerCommand.t) :=
  match q with
  | [] => []
  | e :: rest => if fst e <? k then lower_bound k rest else q
  end.

Fixpoint until_upper_bound (k : Z) (q : list (Z * PlayerCommand.t))
  : list (Z * PlayerCommand.t) :=
  match q with
  | [] => []
  | e :: rest => if k <? fst e then [] else e :: until_upper_bound k rest
  end.

Definition equal_range (k : Z) (q : list (Z * PlayerCommand.t))
  : list (Z * PlayerCommand.t) :=
  until_upper_bound k (lower_bound k q).

Definition IsDuplicate (b : t) (command : PlayerCommand.t) : bool :=
  match playerCommands b !! PlayerCommand.playerUUID command with
  | None => false
  | Some cmds => existsb (fun existing => PlayerCommand.eqb existing command) cmds
  end.

Definition AddCommand (b : t) (command : PlayerCommand.t) : bool * t :=
  if negb (PlayerCommand.IsValid command) then (false, b)
  else if maxBufferSize b <=? Z.of_nat (length (commandQueue b)) then (false, b)
  else if IsDuplicate b command then (false, b)
  else
    let u := PlayerCommand.playerUUID command in
    (true,
     mk (emplace (PlayerCommand.gameTick command) command (commandQueue b))
        (<[u := default [] (playerCommands b !! u) ++ [command]]> (playerCommands b))
        (maxBufferSize b)).

Definition GetCommandsForTick (b : t) (gameTick : Z) : list PlayerCommand.t :=
  map snd (equal_range gameTick (commandQueue b)).

Fixpoint up_to (k : Z) (q : list (Z * PlayerCommand.t)) : list PlayerCommand.t :=
  match q with
  | [] => []
  | e :: rest => if fst e <=? k then snd e :: up_to k rest else []
  end.

Definition GetCommandsUpToTick (b : t) (gameTick : Z) : list PlayerCommand.t :=
  up_to gameTick (commandQueue b).

Fixpoint erase_older (k : Z) (q : list (Z * PlayerCommand.t))
  : list (Z * PlayerCommand.t) :=
  match q with
  | [] => []
  | e :: rest => if fst e <? k then erase_older k rest else q
  end.

Definition PruneOlderThan (gameTick : Z) (b : t) : t :=
  let pruned :=
    (fun cmds : list PlayerCommand.t =>
       List.filter (fun cmd => negb (PlayerCommand.gameTick cmd <? gameTick)) cmds)
      <$> playerCommands b in
  mk (erase_older gameTick (commandQueue b))
     (filter (fun kv => snd kv <> []) pruned)
     (maxBufferSize b).

Definition GetPlayerCommands (b : t) (playerUUID : EsUuid) : list PlayerCommand.t :=
  default [] (playerCommands b !! playerUUID).

Definition GetOldestTick (b : t) : Z :=
  match commandQueue b with
  | [] => 0
  | e :: _ => fst e
  end.

Definition GetCommandCount (b : t) : Z := Z.of_nat (length (commandQueue b)).

Definition Clear (b : t) : t := mk [] ∅ (maxBufferSize b).

Definition GetNewestTick (b : t) : Z :=
  match commandQueue b with
  | [] => 0
  | e :: rest => fst (List.last rest e)
  end.

Definition HasCommandsForTick (b : t) (gameTick : Z) : bool :=
  existsb (fun e => fst e =? gameTick) (commandQueue b).

Definition GetPlayerCount (b : t) : Z := Z.of_nat (size (playerCommands b)).

(** [IsValid]: the per-player lists hold as many commands as the queue
    ([size_t] sum). *)
Definition IsValid (b : t) : bool :=
  let totalPlayerCommands :=
    map_fold (fun _ cmds total => add64 total (Z.of_nat (length cmds))) 0
             (playerCommands b) in
  totalPlayerCommands =? Z.of_nat (length (commandQueue b)).

End CommandBuffer.

(** ** GameState.h, GameState.cpp *)

(** The world content is outside the multiplayer layer.  The layer reads
    and moves it only through these operations: [Ship::Move], which may
    add visuals and flotsam, [Projectile::IsDead], [Visual::Move] and
    [AsteroidField::Step]. *)
Class World : Type := {
  Ship : Type;
  Projectile : Type;
  Flotsam : Type;
  Visual : Type;
  AsteroidField : Type;
  System : Type;
  Ship_Move : Ship -> list Visual -> list (option Flotsam) ->
              Ship * list Visual * list (option Flotsam);
  Projectile_IsDead : Projectile -> bool;
  Visual_Move : Visual -> Visual;
  AsteroidField_Step : AsteroidField -> list Visual -> list (option Flotsam) -> Z ->
                       AsteroidField * list Visual * list (option Flotsam)
}.

Module GameState.

Section WithWorld.

Context {W : World}.

(** A [shared_ptr] is an option: [None] is the null pointer. *)
Record t : Type := mk {
  currentSystem : option System;
  ships : list (option Ship);
  projectiles : list Projectile;
  flotsam : list (option Flotsam);
  visuals : list Visual;
  asteroids : option AsteroidField;
  gameTick : Z                        (* uint64_t *)
}.

(** The default constructor. *)
Definition init : t := mk None [] [] [] [] None 0.

(** The copy constructor: a deep copy that leaves the null pointers out. *)
Definition copy (other : t) : t :=
  mk (currentSystem other)
     (List.filter (fun ship => match ship with Some _ => true | None => false end)
                  (ships other))
     (projectiles other)
     (List.filter (fun item => match item with Some _ => true | None => false end)
                  (flotsam other))
     (visuals other)
     (asteroids other)
     (gameTick other).

Definition SetGameTick (tick : Z) (g : t) : t :=
  mk (currentSystem g) (ships g) (projectiles g) (flotsam g) (visuals g)
     (asteroids g) tick.

Definition GetShipCount (g : t) : Z := Z.of_nat (length (ships g)).
Definition GetProjectileCount (g : t) : Z := Z.of_nat (length (projectiles g)).

(** The loop over the ships of [Step]: every ship that is there moves, and
    hands the visuals and the flotsam on to the next one. *)
Fixpoint move_ships (l : list (option Ship)) (vs : list Visual)
  (fs : list (option Flotsam))
  : list (option Ship) * list Visual * list (option Flotsam) :=
  match l with
  | [] => ([], vs, fs)
  | None :: rest =>
      let '(rest', vs', fs') := move_ships rest vs fs in
      (None :: rest', vs', fs')
  | Some ship :: rest =>
      let '(ship', vs1, fs1) := Ship_Move ship vs fs in
      let '(rest', vs', fs') := move_ships rest vs1 fs1 in
      (Some ship' :: rest', vs', fs')
  end.

Definition Step (g : t) : t :=
  let tick := incr64 (gameTick g) in
  let '(ships', visuals1, flotsam1) := move_ships (ships g) (visuals g) (flotsam g) in
  let projectiles' :=
    List.filter (fun p => negb (Projectile_IsDead p)) (projectiles g) in
  let visuals2 := map Visual_Move visuals1 in
  match asteroids g with
  | Some field =>
      let '(field', visuals3, flotsam3) :=
        AsteroidField_Step field visuals2 flotsam1 tick in
      mk (currentSystem g) ships' projectiles' flotsam3 visuals3 (Some field') tick
  | None =>
      mk (currentSystem g) ships' projectiles' flotsam1 visuals2 None tick
  end.

Definition AddShip (ship : option Ship) (g : t) : t :=
  match ship with
  | Some _ =>
      mk (currentSystem g) (ships g ++ [ship]) (projectiles g) (flotsam g)
         (visuals g) (asteroids g) (gameTick g)
  | None => g
  end.

Definition AddProjectile (projectile : Projectile) (g : t) : t :=
  mk (currentSystem g) (ships g) (projectiles g ++ [projectile]) (flotsam g)
     (visuals g) (asteroids g) (gameTick g).

Definition SetSystem (system : option System) (g : t) : t :=
  mk system (ships g) (projectiles g) (flotsam g) (visuals g) (asteroids g)
     (gameTick g).

Definition AddFlotsam (item : option Flotsam) (g : t) : t :=
  match item with
  | Some _ =>
      mk (currentSystem g) (ships g) (projectiles g) (flotsam g ++ [item])
         (visuals g) (asteroids g) (gameTick g)
  | None => g
  end.

Definition AddVisual (visual : Visual) (g : t) : t :=
  mk (currentSystem g) (ships g) (projectiles g) (flotsam g)
     (visuals g ++ [visual]) (asteroids g) (gameTick g).

Definition SetAsteroids (field : option AsteroidField) (g : t) : t :=
  mk (currentSystem g) (ships g) (projectiles g) (flotsam g) (visuals g)
     field (gameTick g).

Definition Clear (g : t) : t := mk None [] [] [] [] None 0.

Definition IsValid (g : t) : bool :=
  match currentSystem g with
  | None => false
  | Some _ =>
      forallb (fun ship => match ship with Some _ => true | None => false end) (ships g)
      && forallb (fun item => match item with Some _ => true | None => false end)
                 (flotsam g)
  end.

End WithWorld.

End GameState.

(** ** Predictor.h, Predictor.cpp *)

Module Predictor.

Section WithWorld.

Context {W : World}.

Record t : Type := mk {
  unconfirmedCommands : list PlayerCommand.t;
  lastConfirmedTick : Z;          (* uint64_t *)
  maxUnconfirmedCommands : Z;     (* size_t *)
  predictionErrors : Z            (* uint64_t *)
}.

Definition init : t := mk [] 0 60 0.

Definition RecordCommand (command : PlayerCommand.t) (p : t) : t :=
  let cmds := unconfirmedCommands p ++ [command] in
  mk (if maxUnconfirmedCommands p <? Z.of_nat (length cmds) then tl cmds else cmds)
     (lastConfirmedTick p) (maxUnconfirmedCommands p) (predictionErrors p).

Definition SetMaxUnconfirmedCommands (max : Z) (p : t) : t :=
  mk (unconfirmedCommands p) (lastConfirmedTick p) max (predictionErrors p).

Definition GetUnconfirmedCommandCount (p : t) : Z :=
  Z.of_nat (length (unconfirmedCommands p)).

Definition IsPredicting (p : t) : bool :=
  match unconfirmedCommands p with [] => false | _ => true end.

Definition Clear (p : t) : t := mk [] 0 (maxUnconfirmedCommands p) 0.

(** The body of [ApplyCommand] is a placeholder: it leaves the state as
    it is. *)
Definition ApplyCommand (state : GameState.t) (command : PlayerCommand.t)
  : GameState.t := state.

Definition PredictionMatches (predicted server : GameState.t) : bool :=
  GameState.gameTick predicted =? GameState.gameTick server.

Definition PredictNextState (currentState : GameState.t) (command : PlayerCommand.t)
  : GameState.t :=
  GameState.Step (ApplyCommand (GameState.copy currentState) command).

(** [erase(remove_if(begin, end, pred), end)]: the elements that do not
    satisfy [pred], in their order. *)
Fixpoint remove_if {A : Type} (pred : A -> bool) (l : list A) : list A :=
  match l with
  | [] => []
  | x :: rest => if pred x then remove_if pred rest else x :: remove_if pred rest
  end.

(** The loop of [ReconcileWithServer]. *)
Fixpoint resimulate (state : GameState.t) (cmds : list PlayerCommand.t)
  : GameState.t :=
  match cmds with
  | [] => state
  | cmd :: rest => resimulate (GameState.Step (ApplyCommand state cmd)) rest
  end.

Definition ReconcileWithServer (p : t) (serverState : GameState.t) (serverTick : Z)
  : GameState.t * t :=
  let cmds :=
    remove_if (fun cmd => PlayerCommand.gameTick cmd <=? serverTick)
              (unconfirmedCommands p) in
  let p1 := mk cmds serverTick (maxUnconfirmedCommands p) (predictionErrors p) in
  match cmds with
  | [] => (GameState.copy serverState, p1)
  | _ =>
      let reconciledState := resimulate (GameState.copy serverState) cmds in
      if negb (PredictionMatches reconciledState serverState)
      then (reconciledState,
            mk cmds serverTick (maxUnconfirmedCommands p)
               (incr64 (predictionErrors p)))
      else (reconciledState, p1)
  end.

End WithWorld.

End Predictor.

(** ** SnapshotManager.h, SnapshotManager.cpp *)

Module SnapshotManager.

Section WithWorld.

Context {W : World}.

Record Snapshot : Type := mkSnapshot {
  gameTick : Z;                       (* uint64_t *)
  timestamp : Z;                      (* uint64_t, system time in ms *)
  state : option GameState.t;         (* shared_ptr<GameState> *)
  compressedSize : Z;                 (* size_t *)
  isKeyframe : bool
}.

Record t : Type := mk {
  snapshots : list Snapshot;          (* std::deque, front first *)
  historySize : Z;                    (* size_t *)
  keyframeInterval : Z;               (* uint32_t *)
  snapshotsSinceLastKeyframe : Z;     (* uint32_t *)
  totalSnapshots : Z;                 (* uint64_t *)
  totalKeyframes : Z;                 (* uint64_t *)
  totalUncompressedBytes : Z;         (* uint64_t *)
  totalCompressedBytes : Z            (* uint64_t *)
}.

(** The constructor, [SnapshotManager(historySize = 120)]. *)
Definition create (historySize : Z) : t := mk [] historySize 30 0 0 0 0 0.

Definition SetKeyframeInterval (interval : Z) (m : t) : t :=
  mk (snapshots m) (historySize m) interval (snapshotsSinceLastKeyframe m)
     (totalSnapshots m) (totalKeyframes m) (totalUncompressedBytes m)
     (totalCompressedBytes m).

Definition ShouldCreateKeyframe (m : t) : bool :=
  keyframeInterval m <=? snapshotsSinceLastKeyframe m.

Definition EstimateSnapshotSize (state : GameState.t) : Z :=
  let size := 0 in
  let size := add64 size 32 in
  let size := add64 size (mul64 (GameState.GetShipCount state) 128) in
  let size := add64 size (mul64 (GameState.GetProjectileCount state) 32) in
  let size := add64 size (mul64 (Z.of_nat (length (GameState.visuals state))) 24) in
  let size := add64 size (mul64 (Z.of_nat (length (GameState.flotsam state))) 64) in
  add64 size 64.

Definition CalculateDelta (previous current : GameState.t) : Z :=
  let deltaSize := 0 in
  let deltaSize := add64 deltaSize 32 in
  let shipCount := GameState.GetShipCount current in
  let changedShips := mul64 shipCount 30 / 100 in
  let deltaSize := add64 deltaSize (mul64 changedShips 48) in
  let deltaSize := add64 deltaSize (mul64 (GameState.GetProjectileCount current) 32) in
  let deltaSize :=
    add64 deltaSize (mul64 (Z.of_nat (length (GameState.visuals current))) 24) in
  mul64 deltaSize 3 / 10.

(** [while(snapshots.size() > historySize) snapshots.pop_front();] *)
Fixpoint prune_front (historySize : Z) (l : list Snapshot) : list Snapshot :=
  match l with
  | [] => []
  | _ :: rest =>
      if historySize <? Z.of_nat (length l) then prune_front historySize rest else l
  end.

(** [now] is the reading of the system clock in milliseconds, taken by the
    constructor of [Snapshot]. *)
Definition CreateSnapshot (m : t) (currentState : GameState.t) (tick : Z)
  (forceKeyframe : bool) (now : Z) : t :=
  let isKey := forceKeyframe || ShouldCreateKeyframe m in
  let st := GameState.copy currentState in
  let uncompressedSize := EstimateSnapshotSize currentState in
  let compressed :=
    if negb isKey && negb (match snapshots m with [] => true | _ => false end)
    then match state (List.last (snapshots m) (mkSnapshot 0 0 None 0 false)) with
         | Some previousState => CalculateDelta previousState currentState
         | None => uncompressedSize
         end
    else uncompressedSize in
  let snapshot := mkSnapshot tick now (Some st) compressed isKey in
  mk (prune_front (historySize m) (snapshots m ++ [snapshot]))
     (historySize m)
     (keyframeInterval m)
     (if isKey then 0 else incr32 (snapshotsSinceLastKeyframe m))
     (incr64 (totalSnapshots m))
     (if isKey then incr64 (totalKeyframes m) else totalKeyframes m)
     (add64 (totalUncompressedBytes m) uncompressedSize)
     (add64 (totalCompressedBytes m) compressed).

Definition GetLatestSnapshot (m : t) : option Snapshot :=
  match snapshots m with
  | [] => None
  | s :: rest => Some (List.last rest s)
  end.

Definition GetSnapshotCount (m : t) : Z := Z.of_nat (length (snapshots m)).

Definition GetSnapshotsSince (m : t) (tick : Z) : list Snapshot :=
  List.filter (fun snap => tick <? gameTick snap) (snapshots m).

Fixpoint PruneOlderThan_loop (tick : Z) (l : list Snapshot) : list Snapshot :=
  match l with
  | [] => []
  | s :: rest => if gameTick s <? tick then PruneOlderThan_loop tick rest else l
  end.

(** [std::lower_bound] over the deque with the comparison
    [snap.gameTick < tick]: the halving loop, on the indices [first] and
    [first + len].  [fuel] bounds the number of rounds; [len] rounds are
    enough, as [len] goes down in each. *)
Fixpoint lower_bound_loop (fuel : nat) (l : list Snapshot) (first len : nat)
  (tick : Z) : nat :=
  match fuel with
  | O => first
  | S fuel' =>
      if (len =? 0)%nat then first
      else
        let half := (len / 2)%nat in
        let middle := (first + half)%nat in
        match nth_error l middle with
        | Some snap =>
            if gameTick snap <? tick
            then lower_bound_loop fuel' l (middle + 1) (len - half - 1) tick
            else lower_bound_loop fuel' l first half tick
        | None => first
        end
  end.

Definition lower_bound (l : list Snapshot) (tick : Z) : nat :=
  lower_bound_loop (length l) l 0 (length l) tick.

Definition GetSnapshotAtTick (m : t) (tick : Z) : option Snapshot :=
  match nth_error (snapshots m) (lower_bound (snapshots m) tick) with
  | Some snap => if gameTick snap =? tick then Some snap else None
  | None => None
  end.

Definition PruneOlderThan (tick : Z) (m : t) : t :=
  mk (PruneOlderThan_loop tick (snapshots m)) (historySize m) (keyframeInterval m)
     (snapshotsSinceLastKeyframe m) (totalSnapshots m) (totalKeyframes m)
     (totalUncompressedBytes m) (totalCompressedBytes m).

Definition GetTotalSnapshots (m : t) : Z := totalSnapshots m.

Definition GetTotalKeyframes (m : t) : Z := totalKeyframes m.

End WithWorld.

End SnapshotManager.

(** ** Angles *)

(** [Angle] (source/Angle.h is not among the sources) is used through its
    constructor from degrees and through [Degrees()] only; how it stores and
    normalises a facing is left open. *)
Class Facing : Type := {
  Angle : Type;
  Angle_default : Angle;            (* Angle() *)
  Angle_of_degrees : R -> Angle;    (* Angle(double) *)
  Degrees : Angle -> R
}.

(** ** ProjectileSync.h, ProjectileSync.cpp *)

Module ProjectileSync.

Section WithFacing.

Context {F : Facing}.

(** What [RegisterProjectileSpawn] reads of a [Projectile]: its address
    (the maps are keyed by pointer), the UUID of its target ship if it has
    one, and its motion. *)
Record ProjectileView : Type := mkView {
  address : Z;
  Target : option EsUuid;
  Position : Point;
  Velocity : Point;
  Facing_ : Angle
}.

Record ProjectileSpawn : Type := mkSpawn {
  spawn_projectileID : Z;      (* uint32_t *)
  weaponName : string;
  firingShipUUID : EsUuid;
  targetShipUUID : EsUuid;
  position : Point;
  velocity : Point;
  angle : Angle;
  spawnTick : Z                (* uint64_t *)
}.

Record ProjectileImpact : Type := mkImpact {
  impact_projectileID : Z;     (* uint32_t *)
  targetUUID : EsUuid;
  impactPosition : Point;
  intersection : R;
  impactTick : Z               (* uint64_t *)
}.

Record ProjectileDeath : Type := mkDeath {
  death_projectileID : Z;      (* uint32_t *)
  deathPosition : Point;
  deathTick : Z                (* uint64_t *)
}.

Record t : Type := mk {
  currentTick : Z;                       (* uint64_t *)
  nextProjectileID : Z;                  (* uint32_t *)
  pendingSpawns : list ProjectileSpawn;
  pendingImpacts : list ProjectileImpact;
  pendingDeaths : list ProjectileDeath;
  networkIDToProjectile : gmap Z Z;      (* network ID to address *)
  projectileToNetworkID : gmap Z Z       (* address to network ID *)
}.

Definition init : t := mk 0 1 [] [] [] ∅ ∅.


(** The default-constructed [EsUuid()]. *)
Definition nil_uuid : EsUuid := ""%string.

(** [firingShip] is the UUID of the ship behind the pointer, [None] for the
    null pointer. *)
Definition RegisterProjectileSpawn (s : t) (projectile : ProjectileView)
  (firingShip : option EsUuid) (weapon : string) : Z * t :=
  let networkID := nextProjectileID s in
  let spawn :=
    mkSpawn networkID weapon
      (default nil_uuid firingShip)
      (default nil_uuid (Target projectile))
      (Position projectile) (Velocity projectile) (Facing_ projectile)
      (currentTick s) in
  (networkID,
   mk (currentTick s) (incr32 networkID)
      (pendingSpawns s ++ [spawn]) (pendingImpacts s) (pendingDeaths s)
      (<[networkID := address projectile]> (networkIDToProjectile s))
      (<[address projectile := networkID]> (projectileToNetworkID s))).






(** The address behind a network ID, [None] for [nullptr]. *)
Definition FindProjectileByNetworkID (s : t) (networkID : Z) : option Z :=
  networkIDToProjectile s !! networkID.

Definition GetNetworkID (s : t) (projectile : Z) : Z :=
  default 0 (projectileToNetworkID s !! projectile).

Definition IsTracked (s : t) (projectile : Z) : bool :=
  bool_decide (is_Some (projectileToNetworkID s !! projectile)).

Definition Clear (s : t) : t := mk (currentTick s) 1 [] [] [] ∅ ∅.

Definition GetTrackedProjectileCount (s : t) : Z :=
  Z.of_nat (size (networkIDToProjectile s)).

End WithFacing.

End ProjectileSync.

(** ** ClientReconciliation.h, ClientReconciliation.cpp *)

(** The velocity and the facing channel, with [double] read as a real
    number; the whole class over binary64 is
    [Binary64.ClientReconciliation]. *)
Module ClientReconciliation.

Section WithFacing.

Context {F : Facing}.

Local Open Scope R_scope.

Record t : Type := mk {
  positionError : Point;
  positionCorrectionProgress : R;
  velocityError : Point;
  velocityCorrectionProgress : R;
  facingErrorDegrees : R;
  facingCorrectionProgress : R;
  correctionTimeSeconds : R;
  errorThresholdPx : R;
  snapThresholdPx : R;
  totalReconciliations : Z;        (* uint64_t *)
  totalSnaps : Z;                  (* uint64_t *)
  averageError : R
}.

Definition init : t := mk Point0 1 Point0 1 0 1 0.15 1 500 0 0 0.

Definition ReconcileVelocity (r : t) (predictedVel serverVel : Point) : t :=
  let err := Point_sub serverVel predictedVel in
  let errorMagnitude := Length err in
  let '(err', progress) :=
    if Rlt_dec errorMagnitude 0.1 then (Point0, 1.0) else (err, 0.0) in
  mk (positionError r) (positionCorrectionProgress r) err' progress
     (facingErrorDegrees r) (facingCorrectionProgress r)
     (correctionTimeSeconds r) (errorThresholdPx r) (snapThresholdPx r)
     (totalReconciliations r) (totalSnaps r) (averageError r).

Definition ReconcileFacing (r : t) (predictedAngle serverAngle : Angle) : t :=
  let d := Degrees serverAngle - Degrees predictedAngle in
  let d := if Rgt_dec d 180.0 then d - 360.0
           else if Rlt_dec d (-180.0) then d + 360.0 else d in
  let '(d', progress) := if Rlt_dec (Rabs d) 1.0 then (0.0, 1.0) else (d, 0.0) in
  mk (positionError r) (positionCorrectionProgress r) (velocityError r)
     (velocityCorrectionProgress r) d' progress
     (correctionTimeSeconds r) (errorThresholdPx r) (snapThresholdPx r)
     (totalReconciliations r) (totalSnaps r) (averageError r).

Definition IsReconcilingVelocity (r : t) : bool :=
  if Rlt_dec (velocityCorrectionProgress r) 1.0 then true else false.

Definition IsReconcilingFacing (r : t) : bool :=
  if Rlt_dec (facingCorrectionProgress r) 1.0 then true else false.

End WithFacing.

End ClientReconciliation.

(** ** EntityInterpolator.h, EntityInterpolator.cpp *)

(** The timelines, their pruning and the stamps of a blend, with [double]
    read as a real number; the blend over binary64 is
    [Binary64.EntityInterpolator]. *)
Module EntityInterpolator.

Section WithFacing.

Context {F : Facing}.

Record EntityState : Type := mkState {
  gameTick : Z;              (* uint64_t *)
  position : Point;
  velocity : Point;
  facing : Angle;
  timestamp : Z              (* uint64_t, milliseconds since epoch *)
}.

(** [EntityState() = default]. *)
Definition EntityState0 : EntityState :=
  mkState 0 Point0 Point0 Angle_default 0.

Record EntityHistory : Type := mkHistory {
  snapshots : list EntityState;        (* std::deque, front first *)
  lastInterpolated : EntityState
}.

Record t : Type := mk {
  entityStates : gmap string EntityHistory;
  interpolationDelayMs : Z;            (* uint32_t *)
  maxSnapshotHistory : Z               (* size_t *)
}.

Definition init : t := mk ∅ 100 5.

Definition SetInterpolationDelay (milliseconds : Z) (it : t) : t :=
  mk (entityStates it) milliseconds (maxSnapshotHistory it).

Definition SetMaxSnapshotHistory (count : Z) (it : t) : t :=
  mk (entityStates it) (interpolationDelayMs it) count.

(** [while(size() > maxSnapshotHistory) pop_front();] *)
Fixpoint pop_over (limit : Z) (l : list EntityState) : list EntityState :=
  match l with
  | [] => []
  | _ :: rest => if limit <? Z.of_nat (length l) then pop_over limit rest else l
  end.

Definition AddSnapshot (it : t) (entityId : EsUuid) (state : EntityState) : t :=
  let history := default (mkHistory [] EntityState0) (entityStates it !! entityId) in
  let history' :=
    mkHistory (pop_over (maxSnapshotHistory it) (snapshots history ++ [state]))
              (lastInterpolated history) in
  mk (<[entityId := history']> (entityStates it))
     (interpolationDelayMs it) (maxSnapshotHistory it).

(** [now] is the reading of the system clock in milliseconds. *)
Definition GetRenderTimestamp (it : t) (now : Z) : Z :=
  sub64 now (interpolationDelayMs it).

(** The search loop of [GetInterpolatedState]: the first adjacent pair
    around [renderTime]. *)
Fixpoint find_bracket (renderTime : Z) (l : list EntityState)
  : option (EntityState * EntityState) :=
  match l with
  | before :: rest =>
      match rest with
      | after :: _ =>
          if (timestamp before <=? renderTime) && (renderTime <=? timestamp after)
          then Some (before, after)
          else find_bracket renderTime rest
      | [] => None
      end
  | [] => None
  end.

(** [static_cast<uint64_t>(x)] of a double that is not negative. *)
Definition to_u64 (x : R) : Z := wrap64 (Int_part x).

Definition Interpolate (from to : EntityState) (alpha : R) : EntityState :=
  let pos :=
    Point_add (position from)
      (Point_scale (Point_sub (position to) (position from)) alpha) in
  let vel :=
    Point_add (velocity from)
      (Point_scale (Point_sub (velocity to) (velocity from)) alpha) in
  let fromDegrees := Degrees (facing from) in
  let toDegrees := Degrees (facing to) in
  let diff := (toDegrees - fromDegrees)%R in
  let diff :=
    if Rgt_dec diff 180.0 then (diff - 360.0)%R
    else if Rlt_dec diff (-180.0) then (diff + 360.0)%R
    else diff in
  let interpolatedDegrees := (fromDegrees + diff * alpha)%R in
  mkState
    (add64 (gameTick from)
       (to_u64 (IZR (sub64 (gameTick to) (gameTick from)) * alpha)))
    pos vel (Angle_of_degrees interpolatedDegrees)
    (add64 (timestamp from)
       (to_u64 (IZR (sub64 (timestamp to) (timestamp from)) * alpha))).

(** The state the returned pointer points to ([None] for [nullptr]) and
    the interpolator, whose cache the call may have written. *)
Definition GetInterpolatedState (it : t) (entityId : EsUuid) (now : Z)
  : option EntityState * t :=
  match entityStates it !! entityId with
  | None => (None, it)
  | Some history =>
      if (length (snapshots history) <? 2)%nat then
        (match snapshots history with
         | [] => None
         | s :: rest => Some (List.last rest s)
         end, it)
      else
        let renderTime := GetRenderTimestamp it now in
        match find_bracket renderTime (snapshots history) with
        | None => (Some (List.last (snapshots history) EntityState0), it)
        | Some (before, after) =>
            let timeDiff := sub64 (timestamp after) (timestamp before) in
            if timeDiff =? 0 then (Some after, it)
            else
              let alpha :=
                (IZR (sub64 renderTime (timestamp before)) / IZR timeDiff)%R in
              let alpha := Rmax 0.0 (Rmin 1.0 alpha) in
              let result := Interpolate before after alpha in
              (Some result,
               mk (<[entityId := mkHistory (snapshots history) result]>
                     (entityStates it))
                  (interpolationDelayMs it) (maxSnapshotHistory it))
        end
  end.

(** The first loop of [PruneOldSnapshots]. *)
Fixpoint drop_expired (pruneThreshold : Z) (l : list EntityState)
  : list EntityState :=
  match l with
  | [] => []
  | s :: rest =>
      if timestamp s <? pruneThreshold then drop_expired pruneThreshold rest else l
  end.

(** The second loop of [PruneOldSnapshots]. *)
Fixpoint drop_stale (renderTime : Z) (l : list EntityState) : list EntityState :=
  match l with
  | [] => []
  | s :: rest =>
      if (2 <? length l)%nat && (timestamp s <? renderTime)
      then drop_stale renderTime rest
      else l
  end.

Definition prune_history (renderTime : Z) (history : EntityHistory)
  : EntityHistory :=
  let pruneThreshold := sub64 renderTime 1000 in
  mkHistory
    (drop_stale renderTime (drop_expired pruneThreshold (snapshots history)))
    (lastInterpolated history).

Definition PruneOldSnapshots (it : t) (now : Z) : t :=
  let renderTime := GetRenderTimestamp it now in
  mk (prune_history renderTime <$> entityStates it)
     (interpolationDelayMs it) (maxSnapshotHistory it).

Definition Update (it : t) (now : Z) : t := PruneOldSnapshots it now.

Definition RemoveEntity (it : t) (entityId : EsUuid) : t :=
  mk (delete entityId (entityStates it))
     (interpolationDelayMs it) (maxSnapshotHistory it).

Definition Clear (it : t) : t :=
  mk ∅ (interpolationDelayMs it) (maxSnapshotHistory it).

Definition GetTotalSnapshotsStored (it : t) : Z :=
  map_fold (fun _ history total => add64 total (Z.of_nat (length (snapshots history))))
           0 (entityStates it).

End WithFacing.

End EntityInterpolator.

(** ** Binary64 *)

(** The two modules above read a [double] as a real number.  Where a
    property depends on rounding, the function is modelled here over
    binary64 itself.  A [double] is a primitive float: IEEE 754 binary64, every
    [+], [-], [*], [/] and [sqrt] rounded to nearest, ties to even, and
    every comparison false on NaN, as the C++ operators on [double]. *)
Module Binary64.

Import Floats.

#[local] Set Warnings "-inexact-float".

Local Open Scope float_scope.

(** Modelled from the spec: [Point] (source/Point.h is not among the
    sources), "a 2-D real vector" with component-wise sum, difference,
    scaling by a scalar, and the Euclidean length, here with [double]
    components. *)
Record Point : Type := mkPoint { X : float; Y : float }.

Definition Point0 : Point := mkPoint 0 0.

Definition Point_add (p q : Point) : Point :=
  mkPoint (X p + X q) (Y p + Y q).

Definition Point_sub (p q : Point) : Point :=
  mkPoint (X p - X q) (Y p - Y q).

Definition Point_scale (p : Point) (k : float) : Point :=
  mkPoint (X p * k) (Y p * k).

Definition Length (p : Point) : float := sqrt (X p * X p + Y p * Y p).

(** [Angle] (source/Angle.h is not among the sources) is used through its
    constructor from degrees and through [Degrees()] only. *)
Class Facing : Type := {
  Angle : Type;
  Angle_default : Angle;              (* Angle() *)
  Angle_of_degrees : float -> Angle;  (* Angle(double) *)
  Degrees : Angle -> float
}.

(** [std::min] and [std::max] on [double]: the first argument unless the
    comparison says otherwise, so also when one of them is NaN. *)
Definition fmin (a b : float) : float := if b <? a then b else a.
Definition fmax (a b : float) : float := if a <? b then b else a.

(** The conversion of a [uint64_t] to [double]: the nearest binary64. *)
Definition of_u64 (z : Z) : float :=
  SF2Prim (binary_normalize prec emax z 0 false).

(** The integer part of a finite [double], towards zero. *)
Definition truncate (x : float) : Z :=
  match Prim2SF x with
  | S754_finite s m e =>
      let v := if (0 <=? e)%Z then (Z.pos m * 2 ^ e)%Z
               else (Z.pos m / 2 ^ (- e))%Z in
      if s then (- v)%Z else v
  | _ => 0%Z
  end.

(** [static_cast<uint64_t>(x)], defined in C++ for [-1 < x < 2^64]; the
    properties below do not depend on the value elsewhere. *)
Definition to_u64 (x : float) : Z := wrap64 (truncate x).

(** *** ClientReconciliation.h, ClientReconciliation.cpp *)

Module ClientReconciliation.

Section WithFacing.

Context {F : Facing}.

Record t : Type := mk {
  positionError : Point;
  positionCorrectionProgress : float;
  velocityError : Point;
  velocityCorrectionProgress : float;
  facingErrorDegrees : float;
  facingCorrectionProgress : float;
  correctionTimeSeconds : float;
  errorThresholdPx : float;
  snapThresholdPx : float;
  totalReconciliations : Z;        (* uint64_t *)
  totalSnaps : Z;                  (* uint64_t *)
  averageError : float
}.

Definition init : t := mk Point0 1.0 Point0 1.0 0.0 1.0 0.15 1.0 500.0 0 0 0.0.

Definition SetCorrectionTime (seconds : float) (r : t) : t :=
  mk (positionError r) (positionCorrectionProgress r) (velocityError r)
     (velocityCorrectionProgress r) (facingErrorDegrees r)
     (facingCorrectionProgress r) seconds (errorThresholdPx r)
     (snapThresholdPx r) (totalReconciliations r) (totalSnaps r) (averageError r).

Definition SetErrorThreshold (pixels : float) (r : t) : t :=
  mk (positionError r) (positionCorrectionProgress r) (velocityError r)
     (velocityCorrectionProgress r) (facingErrorDegrees r)
     (facingCorrectionProgress r) (correctionTimeSeconds r) pixels
     (snapThresholdPx r) (totalReconciliations r) (totalSnaps r) (averageError r).

Definition SetSnapThreshold (pixels : float) (r : t) : t :=
  mk (positionError r) (positionCorrectionProgress r) (velocityError r)
     (velocityCorrectionProgress r) (facingErrorDegrees r)
     (facingCorrectionProgress r) (correctionTimeSeconds r) (errorThresholdPx r)
     pixels (totalReconciliations r) (totalSnaps r) (averageError r).

(** [errorMagnitude >= errorThresholdPx]. *)
Definition IsSignificantError (r : t) (errorMagnitude : float) : bool :=
  errorThresholdPx r <=? errorMagnitude.

(** The position channel after a call: error, progress, the two counters
    and the running average. *)
Definition set_position (r : t) (err : Point) (progress : float)
  (reconciliations snaps : Z) (average : float) : t :=
  mk err progress (velocityError r) (velocityCorrectionProgress r)
     (facingErrorDegrees r) (facingCorrectionProgress r)
     (correctionTimeSeconds r) (errorThresholdPx r) (snapThresholdPx r)
     reconciliations snaps average.

Definition ReconcilePosition (r : t) (predictedPos serverPos : Point) : t :=
  let err := Point_sub serverPos predictedPos in
  let errorMagnitude := Length err in
  let alpha := 0.1 in
  let average := alpha * errorMagnitude + (1.0 - alpha) * averageError r in
  if negb (IsSignificantError r errorMagnitude) then
    set_position r Point0 1.0 (totalReconciliations r) (totalSnaps r) average
  else if snapThresholdPx r <? errorMagnitude then
    set_position r Point0 1.0 (totalReconciliations r) (incr64 (totalSnaps r)) average
  else
    set_position r err 0.0 (incr64 (totalReconciliations r)) (totalSnaps r) average.

Definition ReconcileVelocity (r : t) (predictedVel serverVel : Point) : t :=
  let err := Point_sub serverVel predictedVel in
  let errorMagnitude := Length err in
  let '(err', progress) :=
    if errorMagnitude <? 0.1 then (Point0, 1.0) else (err, 0.0) in
  mk (positionError r) (positionCorrectionProgress r) err' progress
     (facingErrorDegrees r) (facingCorrectionProgress r)
     (correctionTimeSeconds r) (errorThresholdPx r) (snapThresholdPx r)
     (totalReconciliations r) (totalSnaps r) (averageError r).

Definition ReconcileFacing (r : t) (predictedAngle serverAngle : Angle) : t :=
  let d := Degrees serverAngle - Degrees predictedAngle in
  let d := if 180.0 <? d then d - 360.0
           else if d <? -180.0 then d + 360.0 else d in
  let '(d', progress) := if abs d <? 1.0 then (0.0, 1.0) else (d, 0.0) in
  mk (positionError r) (positionCorrectionProgress r) (velocityError r)
     (velocityCorrectionProgress r) d' progress
     (correctionTimeSeconds r) (errorThresholdPx r) (snapThresholdPx r)
     (totalReconciliations r) (totalSnaps r) (averageError r).

Definition GetCorrectionStepPerFrame (r : t) : float :=
  let framesForCorrection := correctionTimeSeconds r * 60.0 in
  let framesForCorrection :=
    if framesForCorrection <? 1.0 then 1.0 else framesForCorrection in
  1.0 / framesForCorrection.

Definition GetCorrectedPosition (r : t) (currentPos : Point) : Point :=
  if 1.0 <=? positionCorrectionProgress r then currentPos
  else Point_add currentPos
         (Point_scale (positionError r) (GetCorrectionStepPerFrame r)).

Definition GetCorrectedVelocity (r : t) (currentVel : Point) : Point :=
  if 1.0 <=? velocityCorrectionProgress r then currentVel
  else Point_add currentVel
         (Point_scale (velocityError r) (GetCorrectionStepPerFrame r)).

Definition GetCorrectedFacing (r : t) (currentAngle : Angle) : Angle :=
  if 1.0 <=? facingCorrectionProgress r then currentAngle
  else Angle_of_degrees
         (Degrees currentAngle + facingErrorDegrees r * GetCorrectionStepPerFrame r).

Definition IsReconcilingPosition (r : t) : bool :=
  positionCorrectionProgress r <? 1.0.

Definition IsReconcilingVelocity (r : t) : bool :=
  velocityCorrectionProgress r <? 1.0.

Definition IsReconcilingFacing (r : t) : bool :=
  facingCorrectionProgress r <? 1.0.

(** [Update], one channel: the progress and whether the error is cleared. *)
Definition advance (progress step : float) : float * bool :=
  if progress <? 1.0 then
    if 1.0 <=? progress + step then (1.0, true) else (progress + step, false)
  else (progress, false).

Definition Update (r : t) : t :=
  let step := GetCorrectionStepPerFrame r in
  let p := advance (positionCorrectionProgress r) step in
  let v := advance (velocityCorrectionProgress r) step in
  let f := advance (facingCorrectionProgress r) step in
  mk (if snd p then Point0 else positionError r) (fst p)
     (if snd v then Point0 else velocityError r) (fst v)
     (if snd f then 0.0 else facingErrorDegrees r) (fst f)
     (correctionTimeSeconds r) (errorThresholdPx r) (snapThresholdPx r)
     (totalReconciliations r) (totalSnaps r) (averageError r).

End WithFacing.

End ClientReconciliation.

(** *** EntityInterpolator.h, EntityInterpolator.cpp *)

(** The interpolation of [GetInterpolatedState]; the timelines and their
    pruning involve no [double] and are modelled above. *)
Module EntityInterpolator.

Section WithFacing.

Context {F : Facing}.

Record EntityState : Type := mkState {
  gameTick : Z;              (* uint64_t *)
  position : Point;
  velocity : Point;
  facing : Angle;
  timestamp : Z              (* uint64_t, milliseconds since epoch *)
}.

(** [EntityState() = default]. *)
Definition EntityState0 : EntityState :=
  mkState 0 Point0 Point0 Angle_default 0.

Record EntityHistory : Type := mkHistory {
  snapshots : list EntityState;        (* std::deque, front first *)
  lastInterpolated : EntityState
}.

Record t : Type := mk {
  entityStates : gmap string EntityHistory;
  interpolationDelayMs : Z;            (* uint32_t *)
  maxSnapshotHistory : Z               (* size_t *)
}.

Definition init : t := mk ∅ 100 5.

(** [while(size() > maxSnapshotHistory) pop_front();] *)
Fixpoint pop_over (limit : Z) (l : list EntityState) : list EntityState :=
  match l with
  | [] => []
  | _ :: rest => if (limit <? Z.of_nat (length l))%Z then pop_over limit rest else l
  end.

Definition AddSnapshot (it : t) (entityId : EsUuid) (state : EntityState) : t :=
  let history := default (mkHistory [] EntityState0) (entityStates it !! entityId) in
  let history' :=
    mkHistory (pop_over (maxSnapshotHistory it) (snapshots history ++ [state]))
              (lastInterpolated history) in
  mk (<[entityId := history']> (entityStates it))
     (interpolationDelayMs it) (maxSnapshotHistory it).

(** [now] is the reading of the system clock in milliseconds. *)
Definition GetRenderTimestamp (it : t) (now : Z) : Z :=
  sub64 now (interpolationDelayMs it).

(** The search loop of [GetInterpolatedState]: the first adjacent pair
    around [renderTime]. *)
Fixpoint find_bracket (renderTime : Z) (l : list EntityState)
  : option (EntityState * EntityState) :=
  match l with
  | before :: rest =>
      match rest with
      | after :: _ =>
          if ((timestamp before <=? renderTime) && (renderTime <=? timestamp after))%Z
          then Some (before, after)
          else find_bracket renderTime rest
      | [] => None
      end
  | [] => None
  end.

Definition Interpolate (from to : EntityState) (alpha : float) : EntityState :=
  let pos :=
    Point_add (position from)
      (Point_scale (Point_sub (position to) (position from)) alpha) in
  let vel :=
    Point_add (velocity from)
      (Point_scale (Point_sub (velocity to) (velocity from)) alpha) in
  let fromDegrees := Degrees (facing from) in
  let toDegrees := Degrees (facing to) in
  let diff := toDegrees - fromDegrees in
  let diff :=
    if 180.0 <? diff then diff - 360.0
    else if diff <? -180.0 then diff + 360.0
    else diff in
  let interpolatedDegrees := fromDegrees + diff * alpha in
  mkState
    (add64 (gameTick from)
       (to_u64 (of_u64 (sub64 (gameTick to) (gameTick from)) * alpha)))
    pos vel (Angle_of_degrees interpolatedDegrees)
    (add64 (timestamp from)
       (to_u64 (of_u64 (sub64 (timestamp to) (timestamp from)) * alpha))).

(** The state the returned pointer points to ([None] for [nullptr]) and
    the interpolator, whose cache the call may have written. *)
Definition GetInterpolatedState (it : t) (entityId : EsUuid) (now : Z)
  : option EntityState * t :=
  match entityStates it !! entityId with
  | None => (None, it)
  | Some history =>
      if (length (snapshots history) <? 2)%nat then
        (match snapshots history with
         | [] => None
         | s :: rest => Some (List.last rest s)
         end, it)
      else
        let renderTime := GetRenderTimestamp it now in
        match find_bracket renderTime (snapshots history) with
        | None => (Some (List.last (snapshots history) EntityState0), it)
        | Some (before, after) =>
            let timeDiff := sub64 (timestamp after) (timestamp before) in
            if (timeDiff =? 0)%Z then (Some after, it)
            else
              let alpha :=
                of_u64 (sub64 renderTime (timestamp before)) / of_u64 timeDiff in
              let alpha := fmax 0.0 (fmin 1.0 alpha) in
              let result := Interpolate before after alpha in
              (Some result,
               mk (<[entityId := mkHistory (snapshots history) result]>
                     (entityStates it))
                  (interpolationDelayMs it) (maxSnapshotHistory it))
        end
  end.

End WithFacing.

End EntityInterpolator.

End Binary64.

(** ** ServerConfig.h, ServerConfig.cpp *)

Module ServerConfig.

Record t : Type := mk {
  port : Z;                    (* uint16_t *)
  maxPlayers : Z;              (* uint32_t *)
  maxConnectionsPerIP : Z;     (* uint32_t *)
  simulationHz : Z;            (* uint32_t *)
  broadcastHz : Z;             (* uint32_t *)
  serverName : string;
  motd : string;
  password : string;
  startingCredits : Z;         (* int64_t *)
  startingSystem : string;
  startingPlanet : string;
  enablePvP : bool;
  snapshotHistorySize : Z;     (* uint32_t *)
  commandBufferSize : Z;       (* uint32_t *)
  verboseLogging : bool;
  enableConsole : bool
}.

(** The defaults of the header. *)
Definition init : t :=
  mk 31337 32 3 60 20 "Endless Sky Server" "Welcome to Endless Sky Multiplayer!"
     "" 100000 "Sol" "Earth" false 120 10000 false true.

Definition IsValid (c : t) : bool :=
  if port c =? 0 then false
  else if (maxPlayers c =? 0) || (1000 <? maxPlayers c) then false
  else if (simulationHz c <? 10) || (120 <? simulationHz c) then false
  else if (broadcastHz c =? 0) || (simulationHz c <? broadcastHz c) then false
  else if (snapshotHistorySize c =? 0) || (1000 <? snapshotHistorySize c) then false
  else if commandBufferSize c <? 100 then false
  else if string_empty (startingSystem c) || string_empty (startingPlanet c) then false
  else true.

Definition RequiresPassword (c : t) : bool := negb (string_empty (password c)).

End ServerConfig.

(** ** ServerLoop.h, ServerLoop.cpp *)

(** Of the loop, the tick counting of [ProcessSimulation]; the pacing by
    the wall clock is left out. *)
Module ServerLoop.

Record t : Type := mk {
  gameTick : Z;                (* uint64_t *)
  totalSimulationTicks : Z;    (* uint64_t *)
  totalBroadcasts : Z          (* uint64_t *)
}.

(** [Run] starts the ticks at 0. *)
Definition start (loop : t) : t :=
  mk 0 (totalSimulationTicks loop) (totalBroadcasts loop).

(** [ProcessSimulation]: the callback gets the tick, then the tick is
    advanced. *)
Definition ProcessSimulation {S : Type} (simulationCallback : Z -> S -> S)
  (st : t * S) : t * S :=
  (mk (incr64 (gameTick (fst st))) (incr64 (totalSimulationTicks (fst st)))
      (totalBroadcasts (fst st)),
   simulationCallback (gameTick (fst st)) (snd st)).

End ServerLoop.

(** ** Server.h, Server.cpp *)

(** An initialized server: the subsystems that the simulation tick uses.
    [steady] gives the reading of the steady clock taken by the validation
    of the command number [i] of a tick, [systemNow] the reading of the
    system clock taken by the snapshot. *)
Module Server.

Section WithWorld.

Context {W : World}.

Record t : Type := mk {
  config : ServerConfig.t;
  gameState : GameState.t;
  commandBuffer : CommandBuffer.t;
  commandValidator : CommandValidator.t;
  snapshotManager : SnapshotManager.t;
  totalCommandsProcessed : Z;      (* uint64_t *)
  totalCommandsRejected : Z        (* uint64_t *)
}.

(** [Initialize] on a server that is not initialized yet: [None] when the
    configuration is refused. *)
Definition Initialize (cfg : ServerConfig.t) : option t :=
  if negb (ServerConfig.IsValid cfg) then None
  else Some (mk cfg GameState.init CommandBuffer.init CommandValidator.init
                (SnapshotManager.create (ServerConfig.snapshotHistorySize cfg))
                0 0).

(** The loop over the commands of [ProcessCommands]. *)
Fixpoint process_loop (commands : list PlayerCommand.t) (gameTick : Z)
  (steady : nat -> Z) (i : nat) (srv : t) : t :=
  match commands with
  | [] => srv
  | cmd :: rest =>
      let r := CommandValidator.ValidateCommand (commandValidator srv) cmd gameTick
                 (steady i) in
      let srv' :=
        match fst r with
        | CommandValidator.VALID =>
            mk (config srv) (gameState srv) (commandBuffer srv) (snd r)
               (snapshotManager srv) (incr64 (totalCommandsProcessed srv))
               (totalCommandsRejected srv)
        | _ =>
            mk (config srv) (gameState srv) (commandBuffer srv) (snd r)
               (snapshotManager srv) (totalCommandsProcessed srv)
               (incr64 (totalCommandsRejected srv))
        end in
      process_loop rest gameTick steady (S i) srv'
  end.

Definition ProcessCommands (srv : t) (gameTick : Z) (steady : nat -> Z) : t :=
  let commands := CommandBuffer.GetCommandsForTick (commandBuffer srv) gameTick in
  let srv := process_loop commands gameTick steady 0 srv in
  if 120 <? gameTick then
    mk (config srv) (gameState srv)
       (CommandBuffer.PruneOlderThan (sub64 gameTick 120) (commandBuffer srv))
       (commandValidator srv) (snapshotManager srv)
       (totalCommandsProcessed srv) (totalCommandsRejected srv)
  else srv.

Definition SimulateGameTick (srv : t) : t :=
  mk (config srv) (GameState.Step (gameState srv)) (commandBuffer srv)
     (commandValidator srv) (snapshotManager srv)
     (totalCommandsProcessed srv) (totalCommandsRejected srv).

Definition OnSimulationTick (srv : t) (gameTick : Z) (steady : nat -> Z)
  (systemNow : Z) : t :=
  let srv := ProcessCommands srv gameTick steady in
  let srv := SimulateGameTick srv in
  mk (config srv) (gameState srv) (commandBuffer srv) (commandValidator srv)
     (SnapshotManager.CreateSnapshot (snapshotManager srv) (gameState srv)
        gameTick false systemNow)
     (totalCommandsProcessed srv) (totalCommandsRejected srv).

End WithWorld.

End Server.

(** ** PlayerRegistry.h, PlayerRegistry.cpp *)

(** The registry keeps [shared_ptr<NetworkPlayer>]s: it stores the pointer
    (here the address of the player object) and reads the player's UUID
    once, when the player is registered. *)
Module PlayerRegistry.

(** What [Register] reads of the player behind the pointer. *)
Record PlayerView : Type := mkView {
  address : Z;
  GetUUID : EsUuid
}.

Record t : Type := mk {
  playersByUUID : gmap string Z;     (* std::map<EsUuid, shared_ptr> *)
  playersByIndex : gmap Z Z;         (* std::unordered_map<size_t, shared_ptr> *)
  indexToUUID : gmap Z string;       (* std::unordered_map<size_t, EsUuid> *)
  nextIndex : Z;                     (* size_t *)
  freeIndices : list Z               (* std::vector<size_t>, back last *)
}.

Definition init : t := mk ∅ ∅ ∅ 0 [].

(** [static_cast<size_t>(-1)]. *)
Definition npos : Z := 2 ^ 64 - 1.

(** [player] is [None] for the null pointer. *)
Definition Register (r : t) (player : option PlayerView) : Z * t :=
  match player with
  | None => (npos, r)
  | Some p =>
      let uuid := GetUUID p in
      if bool_decide (is_Some (playersByUUID r !! uuid)) then (npos, r)
      else
        let '(index, next, free) :=
          match freeIndices r with
          | [] => (nextIndex r, incr64 (nextIndex r), [])
          | x :: rest => (List.last rest x, nextIndex r, removelast (x :: rest))
          end in
        (index,
         mk (<[uuid := address p]> (playersByUUID r))
            (<[index := address p]> (playersByIndex r))
            (<[index := uuid]> (indexToUUID r))
            next free)
  end.

(** The search loop of [Unregister(uuid)] over [indexToUUID]: the first
    entry, in the order of iteration, whose UUID is the one looked for;
    [npos] when there is none.  An [unordered_map] does not fix the order;
    the order of [map_to_list] stands for it. *)
Definition find_index (r : t) (uuid : EsUuid) : Z :=
  match List.find (fun entry => bool_decide (snd entry = uuid))
                  (map_to_list (indexToUUID r)) with
  | Some entry => fst entry
  | None => npos
  end.

Definition Unregister (uuid : EsUuid) (r : t) : t :=
  match playersByUUID r !! uuid with
  | None => r
  | Some _ =>
      let index := find_index r uuid in
      if negb (index =? npos) then
        mk (delete uuid (playersByUUID r)) (delete index (playersByIndex r))
           (delete index (indexToUUID r)) (nextIndex r) (freeIndices r ++ [index])
      else
        mk (delete uuid (playersByUUID r)) (playersByIndex r) (indexToUUID r)
           (nextIndex r) (freeIndices r)
  end.

(** [Unregister(size_t index)]. *)
Definition UnregisterIndex (index : Z) (r : t) : t :=
  match indexToUUID r !! index with
  | None => r
  | Some uuid =>
      mk (delete uuid (playersByUUID r)) (delete index (playersByIndex r))
         (delete index (indexToUUID r)) (nextIndex r) (freeIndices r ++ [index])
  end.

(** The lookups return the stored pointer, [None] for [nullptr]. *)
Definition GetByUUID (r : t) (uuid : EsUuid) : option Z := playersByUUID r !! uuid.

Definition HasUUID (r : t) (uuid : EsUuid) : bool :=
  bool_decide (is_Some (playersByUUID r !! uuid)).

Definition GetByIndex (r : t) (index : Z) : option Z := playersByIndex r !! index.

Definition HasIndex (r : t) (index : Z) : bool :=
  bool_decide (is_Some (playersByIndex r !! index)).

Definition GetPlayerCount (r : t) : Z := Z.of_nat (size (playersByUUID r)).

Definition GetActiveIndices (r : t) : list Z :=
  merge_sort Z.le (fst <$> map_to_list (playersByIndex r)).

Definition GetNextAvailableIndex (r : t) : Z :=
  match freeIndices r with
  | [] => nextIndex r
  | x :: rest => List.last rest x
  end.

Definition Clear (r : t) : t := mk ∅ ∅ ∅ 0 [].

(** [IsValid]; [valid] tells whether the player behind a pointer passes
    [NetworkPlayer::IsValid] at the time of the call. *)
Definition IsValid (valid : Z -> bool) (r : t) : bool :=
  if negb (size (playersByUUID r) =? size (playersByIndex r))%nat then false
  else if negb (size (playersByIndex r) =? size (indexToUUID r))%nat then false
  else forallb (fun entry => valid (snd entry)) (map_to_list (playersByUUID r)).

End PlayerRegistry.

(** ** ConnectionMonitor.h, ConnectionMonitor.cpp *)

(** Times are readings of the steady clock, in its ticks; [now] arguments
    stand for the calls of [steady_clock::now()], in the order in which a
    function makes them. *)
Module ConnectionMonitor.

Inductive Quality : Type :=
| EXCELLENT
| GOOD
| FAIR
| POOR
| TERRIBLE
| DISCONNECTED.

Record t : Type := mk {
  currentPing : Z;             (* uint32_t *)
  pingHistory : list Z;        (* std::deque<uint32_t>, front first *)
  maxPingHistory : Z;          (* size_t *)
  jitter : Z;                  (* uint32_t *)
  totalPacketsSent : Z;        (* uint64_t *)
  totalPacketsReceived : Z;    (* uint64_t *)
  totalPacketsLost : Z;        (* uint64_t *)
  sentPacketIds : list Z;      (* std::deque<uint64_t>, front first *)
  maxTrackedPackets : Z;       (* size_t *)
  quality : Quality;
  lastPacketTime : Z;
  timeoutMs : Z                (* uint32_t *)
}.

(** The constructor reads the clock once. *)
Definition create (now : Z) : t :=
  mk 0 [] 30 0 0 0 0 [] 100 DISCONNECTED now 10000.

(** The steady clock counts nanoseconds. *)
Definition ticks_per_ms : Z := 1000000.

(** [duration_cast<milliseconds>(now - lastPacketTime).count()]. *)
Definition elapsed_ms (r : t) (now : Z) : Z :=
  Z.quot (now - lastPacketTime r) ticks_per_ms.

Definition IsTimedOut (r : t) (now : Z) : bool := timeoutMs r <? elapsed_ms r now.

Definition GetTimeSinceLastPacket (r : t) (now : Z) : Z := wrap64 (elapsed_ms r now).

(** [accumulate(begin, end, 0ULL)]. *)
Definition sum_u64 (l : list Z) : Z := fold_left add64 l 0.

Definition GetAveragePing (r : t) : Z :=
  match pingHistory r with
  | [] => currentPing r
  | _ => wrap32 (sum_u64 (pingHistory r) / Z.of_nat (length (pingHistory r)))
  end.

Definition CalculatePacketLoss (r : t) : R :=
  if totalPacketsSent r =? 0 then 0%R
  else (IZR (totalPacketsLost r) / IZR (totalPacketsSent r) * 100.0)%R.

Definition GetPacketLoss (r : t) : R := CalculatePacketLoss r.

Definition set_quality (q : Quality) (r : t) : t :=
  mk (currentPing r) (pingHistory r) (maxPingHistory r) (jitter r)
     (totalPacketsSent r) (totalPacketsReceived r) (totalPacketsLost r)
     (sentPacketIds r) (maxTrackedPackets r) q (lastPacketTime r) (timeoutMs r).

Definition UpdateQuality (r : t) (now : Z) : t :=
  let avgPing := GetAveragePing r in
  let packetLoss := GetPacketLoss r in
  if IsTimedOut r now then set_quality DISCONNECTED r
  else if (avgPing <? 50) && (if Rlt_dec packetLoss 1.0 then true else false)
  then set_quality EXCELLENT r
  else if (avgPing <? 100) && (if Rlt_dec packetLoss 3.0 then true else false)
  then set_quality GOOD r
  else if (avgPing <? 200) && (if Rlt_dec packetLoss 10.0 then true else false)
  then set_quality FAIR r
  else if (avgPing <? 500) && (if Rlt_dec packetLoss 25.0 then true else false)
  then set_quality POOR r
  else set_quality TERRIBLE r.

(** [static_cast<uint32_t>(x)] of a double that is not negative. *)
Definition to_u32 (x : R) : Z := wrap32 (Int_part x).

Definition UpdateJitter (r : t) : t :=
  let j :=
    if (length (pingHistory r) <? 2)%nat then 0
    else
      let mean := IZR (GetAveragePing r) in
      let variance :=
        fold_left (fun variance ping =>
                     (variance + (IZR ping - mean) * (IZR ping - mean))%R)
                  (pingHistory r) 0%R in
      let variance := (variance / INR (length (pingHistory r)))%R in
      to_u32 (sqrt variance) in
  mk (currentPing r) (pingHistory r) (maxPingHistory r) j
     (totalPacketsSent r) (totalPacketsReceived r) (totalPacketsLost r)
     (sentPacketIds r) (maxTrackedPackets r) (quality r) (lastPacketTime r)
     (timeoutMs r).

(** [now1] is read by [UpdateQuality], [now2] by the last statement. *)
Definition RecordPing (r : t) (pingMs : Z) (now1 now2 : Z) : t :=
  let history := pingHistory r ++ [pingMs] in
  let history :=
    if maxPingHistory r <? Z.of_nat (length history) then tl history else history in
  let r := mk pingMs history (maxPingHistory r) (jitter r)
              (totalPacketsSent r) (totalPacketsReceived r) (totalPacketsLost r)
              (sentPacketIds r) (maxTrackedPackets r) (quality r)
              (lastPacketTime r) (timeoutMs r) in
  let r := UpdateJitter r in
  let r := UpdateQuality r now1 in
  mk (currentPing r) (pingHistory r) (maxPingHistory r) (jitter r)
     (totalPacketsSent r) (totalPacketsReceived r) (totalPacketsLost r)
     (sentPacketIds r) (maxTrackedPackets r) (quality r) now2 (timeoutMs r).

Definition RecordPacketSent (r : t) (packetId : Z) : t :=
  let ids := sentPacketIds r ++ [packetId] in
  let ids := if maxTrackedPackets r <? Z.of_nat (length ids) then tl ids else ids in
  mk (currentPing r) (pingHistory r) (maxPingHistory r) (jitter r)
     (incr64 (totalPacketsSent r)) (totalPacketsReceived r) (totalPacketsLost r)
     ids (maxTrackedPackets r) (quality r) (lastPacketTime r) (timeoutMs r).

(** [erase(find(begin, end, packetId))]: the first occurrence goes. *)
Fixpoint erase_first (packetId : Z) (ids : list Z) : list Z :=
  match ids with
  | [] => []
  | x :: rest => if x =? packetId then rest else x :: erase_first packetId rest
  end.

Definition RecordPacketReceived (r : t) (packetId : Z) (now : Z) : t :=
  mk (currentPing r) (pingHistory r) (maxPingHistory r) (jitter r)
     (totalPacketsSent r) (incr64 (totalPacketsReceived r)) (totalPacketsLost r)
     (erase_first packetId (sentPacketIds r)) (maxTrackedPackets r) (quality r)
     now (timeoutMs r).

Definition CheckForLostPackets (r : t) : t :=
  if (0 <? totalPacketsSent r)
     && (totalPacketsReceived r <? totalPacketsSent r)
  then mk (currentPing r) (pingHistory r) (maxPingHistory r) (jitter r)
          (totalPacketsSent r) (totalPacketsReceived r)
          (sub64 (totalPacketsSent r) (totalPacketsReceived r))
          (sentPacketIds r) (maxTrackedPackets r) (quality r) (lastPacketTime r)
          (timeoutMs r)
  else r.

Definition Update (r : t) (now : Z) : t := UpdateQuality (CheckForLostPackets r) now.

Definition IsStable (r : t) : bool :=
  match quality r with
  | DISCONNECTED | POOR | TERRIBLE => false
  | _ =>
      if 50 <? jitter r then false
      else if Rgt_dec (GetPacketLoss r) 5.0 then false
      else true
  end.

Definition SetTimeout (milliseconds : Z) (r : t) : t :=
  mk (currentPing r) (pingHistory r) (maxPingHistory r) (jitter r)
     (totalPacketsSent r) (totalPacketsReceived r) (totalPacketsLost r)
     (sentPacketIds r) (maxTrackedPackets r) (quality r) (lastPacketTime r)
     milliseconds.

End ConnectionMonitor.

(** ** MultiplayerClient.h, MultiplayerClient.cpp *)

(** The client without its network manager: what the manager answers is an
    argument of the call that asks. *)
Module MultiplayerClient.

Section WithWorld.

Context {W : World} {F : Facing}.

Inductive State : Type :=
| DISCONNECTED
| CONNECTING
| CONNECTED
| DISCONNECTING.

Record t : Type := mk {
  state : State;
  gameState : GameState.t;
  predictor : Predictor.t;
  reconciliation : Binary64.ClientReconciliation.t;
  interpolator : EntityInterpolator.t;
  connectionMonitor : ConnectionMonitor.t;
  playerUUID : option EsUuid;        (* unique_ptr<EsUuid> *)
  commandsSent : Z;                  (* uint64_t *)
  stateUpdatesReceived : Z;          (* uint64_t *)
  predictionErrors : Z               (* uint64_t *)
}.

(** The constructor; [now] is the clock reading of the monitor's. *)
Definition create (now : Z) : t :=
  mk DISCONNECTED GameState.init Predictor.init
     Binary64.ClientReconciliation.init
     EntityInterpolator.init (ConnectionMonitor.create now) None 0 0 0.

Definition set_state (s : State) (c : t) : t :=
  mk s (gameState c) (predictor c) (reconciliation c) (interpolator c)
     (connectionMonitor c) (playerUUID c) (commandsSent c)
     (stateUpdatesReceived c) (predictionErrors c).

(** [started] is the answer of [NetworkManager::StartClient]. *)
Definition Connect (c : t) (started : bool) : bool * t :=
  match state c with
  | DISCONNECTED =>
      if negb started then (false, set_state DISCONNECTED c)
      else (true, set_state CONNECTING c)
  | _ => (false, c)
  end.

Definition Disconnect (c : t) : t :=
  match state c with
  | DISCONNECTED => c
  | _ => set_state DISCONNECTED c
  end.

Definition OnConnected (c : t) : t := set_state CONNECTED c.

Definition OnDisconnected (c : t) : t := set_state DISCONNECTED c.

(** [uuid] is the result of [EsUuid::MakeUuid()]. *)
Definition OnServerWelcome (c : t) (uuid : EsUuid) : t :=
  mk (state c) (gameState c) (predictor c) (reconciliation c) (interpolator c)
     (connectionMonitor c) (Some uuid) (commandsSent c)
     (stateUpdatesReceived c) (predictionErrors c).

Definition SendCommandToServer (c : t) (command : PlayerCommand.t) : t :=
  mk (state c) (gameState c) (predictor c) (reconciliation c) (interpolator c)
     (ConnectionMonitor.RecordPacketSent (connectionMonitor c) (commandsSent c))
     (playerUUID c) (commandsSent c) (stateUpdatesReceived c) (predictionErrors c).

(** The predicted state is computed and dropped; the client's own state is
    stepped. *)
Definition ApplyPrediction (c : t) (command : PlayerCommand.t) : t :=
  let predictedState := Predictor.PredictNextState (gameState c) command in
  mk (state c) (GameState.Step (gameState c)) (predictor c) (reconciliation c)
     (interpolator c) (connectionMonitor c) (playerUUID c) (commandsSent c)
     (stateUpdatesReceived c) (predictionErrors c).

(** [SendCommand]; [None] stands for the dereference of the null
    [playerUUID] of a client that is connected but not welcomed yet. *)
Definition SendCommand (c : t) (command : Z) : option t :=
  match state c with
  | CONNECTED =>
      match playerUUID c with
      | None => None
      | Some uuid =>
          let playerCmd :=
            PlayerCommand.mk uuid (GameState.gameTick (gameState c)) command
              Point0 false (wrap32 (commandsSent c)) in
          let c := SendCommandToServer c playerCmd in
          let c := ApplyPrediction c playerCmd in
          Some (mk (state c) (gameState c)
                   (Predictor.RecordCommand playerCmd (predictor c))
                   (reconciliation c) (interpolator c) (connectionMonitor c)
                   (playerUUID c) (incr64 (commandsSent c))
                   (stateUpdatesReceived c) (predictionErrors c))
      end
  | _ => Some c
  end.

(** [ReconcileWithServer]: the reconciled state replaces the client's. *)
Definition ReconcileWithServer (c : t) (serverState : GameState.t) : t :=
  let serverTick := GameState.gameTick serverState in
  let r := Predictor.ReconcileWithServer (predictor c) serverState serverTick in
  mk (state c) (GameState.copy (fst r)) (snd r) (reconciliation c)
     (interpolator c) (connectionMonitor c) (playerUUID c) (commandsSent c)
     (stateUpdatesReceived c)
     (if negb (GameState.gameTick (fst r) =? GameState.gameTick (gameState c))
      then incr64 (predictionErrors c) else predictionErrors c).

(** [OnStateUpdate]: the packet is not read yet; the server state is a new,
    empty [GameState]. *)
Definition OnStateUpdate (c : t) (now : Z) : t :=
  let received := incr64 (stateUpdatesReceived c) in
  let c := mk (state c) (gameState c) (predictor c) (reconciliation c)
              (interpolator c) (connectionMonitor c) (playerUUID c)
              (commandsSent c) received (predictionErrors c) in
  let c := ReconcileWithServer c GameState.init in
  mk (state c) (gameState c) (predictor c) (reconciliation c) (interpolator c)
     (ConnectionMonitor.RecordPacketReceived (connectionMonitor c) received now)
     (playerUUID c) (commandsSent c) (stateUpdatesReceived c) (predictionErrors c).

(** [Update]; [systemNow] is read by the interpolator, [now1] and [now2]
    by the monitor's [Update] and by [IsTimedOut]. *)
Definition Update (c : t) (systemNow now1 now2 : Z) : t :=
  match state c with
  | CONNECTED =>
      let c :=
        mk (state c) (gameState c) (predictor c)
           (Binary64.ClientReconciliation.Update (reconciliation c))
           (EntityInterpolator.Update (interpolator c) systemNow)
           (ConnectionMonitor.Update (connectionMonitor c) now1)
           (playerUUID c) (commandsSent c) (stateUpdatesReceived c)
           (predictionErrors c) in
      if ConnectionMonitor.IsTimedOut (connectionMonitor c) now2
      then Disconnect c else c
  | _ => c
  end.

End WithWorld.

End MultiplayerClient.

(** ** InterestManager.h, InterestManager.cpp *)

Module InterestManager.

Inductive InterestLevel : Type :=
| NONE
| LOW
| MEDIUM
| HIGH
| CRITICAL.

Record Config : Type := mkConfig {
  criticalRange : R;
  highRange : R;
  mediumRange : R;
  lowRange : R;
  criticalFrequency : Z;     (* int *)
  highFrequency : Z;         (* int *)
  mediumFrequency : Z;       (* int *)
  lowFrequency : Z           (* int *)
}.

Definition Config0 : Config := mkConfig 1000.0 3000.0 6000.0 10000.0 1 1 2 5.

Record t : Type := mk {
  config : Config;
  playerCenters : gmap string Point
}.

Definition init : t := mk Config0 ∅.

Definition SetConfig (cfg : Config) (im : t) : t := mk cfg (playerCenters im).

Definition SetPlayerInterestCenter (playerUUID : EsUuid) (position : Point) (im : t)
  : t :=
  mk (config im) (<[playerUUID := position]> (playerCenters im)).

Definition RemovePlayer (playerUUID : EsUuid) (im : t) : t :=
  mk (config im) (delete playerUUID (playerCenters im)).

(** A distance: [None] stands for [numeric_limits<double>::max()], the
    answer for a player without a centre, which is below no range. *)
Definition GetDistanceToPlayer (im : t) (playerUUID : EsUuid) (position : Point)
  : option R :=
  match playerCenters im !! playerUUID with
  | None => None
  | Some playerCenter => Some (Length (Point_sub position playerCenter))
  end.

Definition below (distance : option R) (range : R) : bool :=
  match distance with
  | Some d => if Rlt_dec d range then true else false
  | None => false
  end.

Definition GetInterestLevelByDistance (im : t) (distance : option R) : InterestLevel :=
  if below distance (criticalRange (config im)) then CRITICAL
  else if below distance (highRange (config im)) then HIGH
  else if below distance (mediumRange (config im)) then MEDIUM
  else if below distance (lowRange (config im)) then LOW
  else NONE.

(** [owner] and [position] are what the call reads of the ship. *)
Definition GetShipInterest (im : t) (playerUUID : EsUuid) (owner : EsUuid)
  (position : Point) : InterestLevel :=
  if bool_decide (owner = playerUUID) then CRITICAL
  else GetInterestLevelByDistance im (GetDistanceToPlayer im playerUUID position).

Definition GetProjectileInterest (im : t) (playerUUID : EsUuid) (position : Point)
  : InterestLevel :=
  let distance := GetDistanceToPlayer im playerUUID position in
  if below distance (criticalRange (config im) * 0.5)%R then CRITICAL
  else if below distance (highRange (config im) * 0.75)%R then HIGH
  else if below distance (mediumRange (config im)) then MEDIUM
  else if below distance (lowRange (config im)) then LOW
  else NONE.



Definition GetPlayerCount (im : t) : Z := Z.of_nat (size (playerCenters im)).

Definition Clear (im : t) : t := mk (config im) ∅.

End InterestManager.

(** ** StateSync.h, StateSync.cpp *)

(** Of the class, the selection and capture of the ship updates.  The
    interest manager is held by pointer: the calls take the manager as it
    is at the time of the call, [None] for the null pointer. *)
Module StateSync.

Section WithFacing.

Context {F : Facing}.

Inductive UpdatePriority : Type :=
| P_CRITICAL
| P_HIGH
| P_MEDIUM
| P_LOW
| P_NONE.


(** What the calls read of a [Ship]; the vital values are the [float]s
    that the casts give. *)
Record ShipView : Type := mkShip {
  UUID : EsUuid;
  GetOwnerPlayerUUID : EsUuid;
  Position : Point;
  Velocity : Point;
  Facing_ : Angle;
  Shields : R;
  Hull : R;
  Energy : R;
  Fuel : R
}.


Definition InterestToPriority (level : InterestManager.InterestLevel)
  : UpdatePriority :=
  match level with
  | InterestManager.CRITICAL => P_CRITICAL
  | InterestManager.HIGH => P_HIGH
  | InterestManager.MEDIUM => P_MEDIUM
  | InterestManager.LOW => P_LOW
  | InterestManager.NONE => P_NONE
  end.





Definition GetUpdatePriority (interestManager : option InterestManager.t)
  (playerUUID : EsUuid) (ship : ShipView) : UpdatePriority :=
  match interestManager with
  | None => P_NONE
  | Some im =>
      InterestToPriority
        (InterestManager.GetShipInterest im playerUUID (GetOwnerPlayerUUID ship)
           (Position ship))
  end.

End WithFacing.

End StateSync.

(** * Properties *)

(** ** Machine integers *)

Lemma wrap64_small x : is_u64 x -> wrap64 x = x.
Proof. intros H. apply Z.mod_small. exact H. Qed.

Lemma wrap32_small x : is_u32 x -> wrap32 x = x.
Proof. intros H. apply Z.mod_small. exact H. Qed.

Lemma wrap64_range x : is_u64 (wrap64 x).
Proof. apply Z.mod_pos_bound. reflexivity. Qed.

Lemma sub64_exact x y : 0 <= y <= x -> x < 2 ^ 64 -> sub64 x y = x - y.
Proof. intros Hy Hx. apply wrap64_small. unfold is_u64. lia. Qed.

Lemma sub64_borrow x y : 0 <= x < y -> y <= 2 ^ 64 -> sub64 x y = x - y + 2 ^ 64.
Proof.
  intros Hx Hy. unfold sub64, wrap64.
  symmetry. apply Z.mod_unique_pos with (q := -1); lia.
Qed.

Lemma incr64_exact n : 0 <= n -> n + 1 < 2 ^ 64 -> incr64 n = n + 1.
Proof. intros H0 H1. apply wrap64_small. unfold is_u64. lia. Qed.

Lemma add64_exact x y : 0 <= x -> 0 <= y -> x + y < 2 ^ 64 -> add64 x y = x + y.
Proof. intros Hx Hy H. apply wrap64_small. unfold is_u64. lia. Qed.

(** ** The command validator *)

Section ValidatorProperties.

Import CommandValidator.

(** A command that carries only what the validator reads. *)
Definition command_at (u : EsUuid) (tick : Z) : PlayerCommand.t :=
  PlayerCommand.mk u tick 0 Point0 false 0.

Lemma IsValid_true_iff c :
  PlayerCommand.IsValid c = true <->
  ToString (PlayerCommand.playerUUID c) <> ""%string /\
  PlayerCommand.gameTick c <= 1000000000.
Proof.
  unfold PlayerCommand.IsValid, string_empty.
  case_bool_decide as Hu.
  - split; [discriminate | intros [H _]; contradiction].
  - destruct (Z.ltb_spec 1000000000 (PlayerCommand.gameTick c)).
    + split; [discriminate | lia].
    + split; [intros _; split; [assumption | lia] | reflexivity].
Qed.

Lemma commandsPerSecond_le n m :
  Qle_bool (commandsPerSecond n) (inject_Z m) = (n <=? m).
Proof.
  unfold commandsPerSecond, RATE_LIMIT_WINDOW_MS.
  assert (E : (inject_Z n * inject_Z 1000 / inject_Z 1000 == inject_Z n)%Q).
  { field. }
  destruct (Z.leb_spec n m) as [H | H].
  - apply Qle_bool_iff. rewrite E. rewrite <- Zle_Qle. exact H.
  - apply not_true_is_false. intros C. apply Qle_bool_iff in C.
    rewrite E in C. rewrite <- Zle_Qle in C. lia.
Qed.

(** The verdict of the rate check is a comparison of the advanced counter
    with the configured maximum. *)
Lemma CheckRateLimit_verdict v u now :
  fst (CheckRateLimit v u now) =
  (incr32 (commandsInWindow (roll_window (rate_entry v u) now))
   <=? maxCommandsPerSecond v).
Proof.
  unfold CheckRateLimit. cbn [commandsInWindow].
  rewrite commandsPerSecond_le.
  destruct (_ <=? _); reflexivity.
Qed.

(** What the validator does to the tick fields: nothing. *)
Lemma ValidateCommand_config v c tick now :
  let v' := snd (ValidateCommand v c tick now) in
  maxPastTicks v' = maxPastTicks v /\
  maxFutureTicks v' = maxFutureTicks v /\
  maxCommandsPerSecond v' = maxCommandsPerSecond v.
Proof.
  unfold ValidateCommand, CheckRateLimit.
  repeat match goal with
         | |- context [if ?b then _ else _] => destruct b
         end; cbn; auto.
Qed.

(** The tick window of a well-formed command when neither bound of the
    window wraps: exactly the window of the spec. *)
Lemma ValidateCommand_tick_window v c tick now :
  PlayerCommand.IsValid c = true ->
  0 <= maxPastTicks v <= tick ->
  0 <= maxFutureTicks v ->
  tick + maxFutureTicks v < 2 ^ 64 ->
  (fst (ValidateCommand v c tick now) = TOO_OLD <->
   PlayerCommand.gameTick c < tick - maxPastTicks v) /\
  (fst (ValidateCommand v c tick now) = TOO_FUTURE <->
   PlayerCommand.gameTick c > tick + maxFutureTicks v).
Proof.
  intros Hc Hp Hf Hn.
  pose proof Hc as Hc'. apply IsValid_true_iff in Hc' as [Hu Ht].
  unfold ValidateCommand. rewrite Hc. cbn [negb].
  assert (He : string_empty (ToString (PlayerCommand.playerUUID c)) = false).
  { unfold string_empty. apply bool_decide_eq_false. exact Hu. }
  rewrite He. cbn [count_total maxPastTicks maxFutureTicks].
  rewrite sub64_exact by lia. rewrite add64_exact by lia.
  destruct (Z.ltb_spec (PlayerCommand.gameTick c) (tick - maxPastTicks v)).
  { cbn. split; split; try lia; try discriminate; reflexivity. }
  destruct (Z.ltb_spec (tick + maxFutureTicks v) (PlayerCommand.gameTick c)).
  { cbn. split; split; try lia; try discriminate; reflexivity. }
  destruct (CheckRateLimit _ _ _) as [ok v'].
  destruct ok; cbn; split; split; try lia; discriminate.
Qed.

Lemma ValidateCommand_tick_window_witness :
  (fst (ValidateCommand init (command_at "p1" 939) 1000 0) = TOO_OLD <->
   PlayerCommand.gameTick (command_at "p1" 939) < 1000 - maxPastTicks init) /\
  (fst (ValidateCommand init (command_at "p1" 939) 1000 0) = TOO_FUTURE <->
   PlayerCommand.gameTick (command_at "p1" 939) > 1000 + maxFutureTicks init).
Proof.
  apply (ValidateCommand_tick_window init (command_at "p1" 939) 1000 0).
  - reflexivity.
  - cbn. lia.
  - cbn. lia.
  - cbn. lia.
Defined.

Example tick_939_too_old now :
  fst (ValidateCommand init (command_at "p1" 939) 1000 now) = TOO_OLD.
Proof. reflexivity. Qed.

Example tick_1061_too_future now :
  fst (ValidateCommand init (command_at "p1" 1061) 1000 now) = TOO_FUTURE.
Proof. reflexivity. Qed.

Example tick_940_eligible :
  fst (ValidateCommand init (command_at "p1" 940) 1000 5000) = VALID.
Proof. vm_compute. reflexivity. Qed.

Example tick_1060_eligible :
  fst (ValidateCommand init (command_at "p1" 1060) 1000 5000) = VALID.
Proof. vm_compute. reflexivity. Qed.

(** With [currentTick < maxPastTicks] the unsigned difference
    [currentTick - maxPastTicks] wraps to a number close to 2^64, and every
    well-formed command is then older than it. *)
Lemma ValidateCommand_underflow v c tick now :
  PlayerCommand.IsValid c = true ->
  0 <= tick < maxPastTicks v ->
  maxPastTicks v <= 2 ^ 63 ->
  fst (ValidateCommand v c tick now) = TOO_OLD.
Proof.
  intros Hc Ht Hp.
  pose proof Hc as Hc'. apply IsValid_true_iff in Hc' as [Hu Hg].
  unfold ValidateCommand. rewrite Hc. cbn [negb].
  assert (He : string_empty (ToString (PlayerCommand.playerUUID c)) = false).
  { unfold string_empty. apply bool_decide_eq_false. exact Hu. }
  rewrite He. cbn [count_total maxPastTicks].
  rewrite sub64_borrow by lia.
  destruct (Z.ltb_spec (PlayerCommand.gameTick c) (tick - maxPastTicks v + 2 ^ 64)).
  - reflexivity.
  - exfalso. assert (2 ^ 63 = 9223372036854775808) by reflexivity.
    assert (2 ^ 64 = 18446744073709551616) by reflexivity. lia.
Qed.

(** C1, at the failing input.  A fresh validator (margins 60 and 60) is
    asked at [currentTick = 0] about a well-formed command for tick 0.
    The tick is not below [currentTick - maxPastTicks = -60], so the
    spec's window makes the command eligible; the code classifies it
    [TOO_OLD], and does so for every command during the first 60 ticks. *)
Theorem C1_tick_window_underflow :
  ~ (PlayerCommand.gameTick (command_at "p1" 0) < 0 - maxPastTicks init) /\
  fst (ValidateCommand init (command_at "p1" 0) 0 0) = TOO_OLD /\
  fst (ValidateCommand init (command_at "p1" 59) 59 0) = TOO_OLD.
Proof.
  split; [cbn; lia |]. split; reflexivity.
Qed.

(** C10.  [ValidateCommand] never answers [INVALID_PLAYER]: a command
    whose UUID string is empty has already failed [IsValid] and was
    answered [MALFORMED], so the branch of the empty UUID is dead. *)
Theorem C10_invalid_player_unreachable v c tick now :
  fst (ValidateCommand v c tick now) <> INVALID_PLAYER /\
  (string_empty (ToString (PlayerCommand.playerUUID c)) = true ->
   PlayerCommand.IsValid c = false /\
   fst (ValidateCommand v c tick now) = MALFORMED).
Proof.
  unfold ValidateCommand, PlayerCommand.IsValid.
  destruct (string_empty (ToString (PlayerCommand.playerUUID c))) eqn:He.
  - cbn. split; [discriminate | intros _; split; reflexivity].
  - split; [| discriminate].
    repeat match goal with
           | |- context [if ?b then _ else _] => destruct b
           | |- context [let '(_, _) := ?p in _] => destruct p
           end; cbn; discriminate.
Qed.

Lemma C10_invalid_player_unreachable_witness :
  fst (ValidateCommand init (command_at "" 5) 5 0) <> INVALID_PLAYER /\
  (string_empty (ToString (PlayerCommand.playerUUID (command_at "" 5))) = true ->
   PlayerCommand.IsValid (command_at "" 5) = false /\
   fst (ValidateCommand init (command_at "" 5) 5 0) = MALFORMED).
Proof. exact (C10_invalid_player_unreachable init (command_at "" 5) 5 0). Defined.

(** *** The rate limiter *)

(** One validation request: the command, the tick it is validated at and
    the reading of the steady clock at that moment. *)
Record Call : Type := mkCall {
  call_command : PlayerCommand.t;
  call_tick : Z;
  call_now : Z
}.

Definition call_player (c : Call) : EsUuid :=
  PlayerCommand.playerUUID (call_command c).

(** What one request leaves in the log: who asked and when, the verdict,
    and the start of the player's rate window after the request. *)
Record Entry : Type := mkEntry {
  entry_player : EsUuid;
  entry_time : Z;
  entry_verdict : Result;
  entry_window : Z
}.

Fixpoint validate_all (v : t) (calls : list Call) : list Entry :=
  match calls with
  | [] => []
  | c :: rest =>
      let r := ValidateCommand v (call_command c) (call_tick c) (call_now c) in
      mkEntry (call_player c) (call_now c) (fst r)
              (windowStartTime (rate_entry (snd r) (call_player c)))
      :: validate_all (snd r) rest
  end.

Definition is_VALID (r : Result) : bool :=
  match r with VALID => true | _ => false end.

(** [VALID] verdicts of player [u] while the player's window started at [s]. *)
Definition valid_in_window (u : EsUuid) (s : Z) (log : list Entry) : Z :=
  Z.of_nat (length (List.filter
    (fun e => bool_decide (entry_player e = u) && is_VALID (entry_verdict e)
              && (entry_window e =? s)) log)).

(** [VALID] verdicts of player [u] at clock readings in [[lo, lo + 1000)]. *)
Definition valid_in_second (u : EsUuid) (lo : Z) (log : list Entry) : Z :=
  Z.of_nat (length (List.filter
    (fun e => bool_decide (entry_player e = u) && is_VALID (entry_verdict e)
              && (lo <=? entry_time e) && (entry_time e <? lo + 1000)) log)).

(** The clock readings of the requests never go back (a steady clock). *)
Fixpoint steady (from : Z) (calls : list Call) : Prop :=
  match calls with
  | [] => True
  | c :: rest => from <= call_now c < 2 ^ 64 /\ steady (call_now c) rest
  end.

(** A request either is rejected before the rate check and leaves the
    rate table alone, or advances the counter of its player's window. *)
Lemma ValidateCommand_rate_step v c tick now :
  let r := ValidateCommand v c tick now in
  let u := PlayerCommand.playerUUID c in
  let d := roll_window (rate_entry v u) now in
  maxCommandsPerSecond (snd r) = maxCommandsPerSecond v /\
  ((fst r <> VALID /\ fst r <> RATE_LIMITED /\
    playerRateLimits (snd r) = playerRateLimits v) \/
   (rate_entry (snd r) u = mkRate now (incr32 (commandsInWindow d)) (windowStartTime d) /\
    (forall u', u' <> u -> rate_entry (snd r) u' = rate_entry v u') /\
    fst r = (if incr32 (commandsInWindow d) <=? maxCommandsPerSecond v
             then VALID else RATE_LIMITED))).
Proof.
  cbv zeta. split; [apply ValidateCommand_config |].
  unfold ValidateCommand.
  destruct (negb (PlayerCommand.IsValid c)); [left; repeat split; discriminate |].
  destruct (string_empty _); [left; repeat split; discriminate |].
  destruct (_ <? _); [left; repeat split; discriminate |].
  destruct (_ <? _); [left; repeat split; discriminate |].
  right.
  pose proof (CheckRateLimit_verdict (count_total v) (PlayerCommand.playerUUID c) now) as Hv.
  destruct (CheckRateLimit (count_total v) (PlayerCommand.playerUUID c) now)
    as [ok v'] eqn:Hc.
  cbn [fst] in Hv.
  change (rate_entry (count_total v)) with (rate_entry v) in Hv.
  change (maxCommandsPerSecond (count_total v)) with (maxCommandsPerSecond v) in Hv.
  assert (Hv' : playerRateLimits v' =
                <[PlayerCommand.playerUUID c :=
                    mkRate now
                      (incr32 (commandsInWindow
                         (roll_window (rate_entry v (PlayerCommand.playerUUID c)) now)))
                      (windowStartTime
                         (roll_window (rate_entry v (PlayerCommand.playerUUID c)) now))]>
                  (playerRateLimits v)).
  { unfold CheckRateLimit in Hc.
    destruct (negb (Qle_bool _ _)) in Hc; inversion Hc; reflexivity. }
  assert (Hs : forall b : bool,
             playerRateLimits (snd (if negb b then (RATE_LIMITED, count_rejected v')
                                    else (VALID, v'))) = playerRateLimits v').
  { intros []; reflexivity. }
  split; [| split].
  - unfold rate_entry. rewrite Hs, Hv', lookup_insert_eq. reflexivity.
  - intros u' Hu'. unfold rate_entry. rewrite Hs, Hv'.
    rewrite lookup_insert_ne by congruence. reflexivity.
  - rewrite <- Hv. destruct ok; reflexivity.
Qed.

(** The rate table is sane at clock reading [T] after [k] requests: no
    window starts after [T], no counter exceeds [k]. *)
Definition rate_inv (v : t) (T k : Z) : Prop :=
  forall u, 0 <= windowStartTime (rate_entry v u) <= T /\
            0 <= commandsInWindow (rate_entry v u) <= k.

Lemma rate_inv_init v T :
  playerRateLimits v = ∅ -> 0 <= T -> rate_inv v T 0.
Proof.
  intros Hv HT u. unfold rate_entry. rewrite Hv, lookup_empty. cbn. lia.
Qed.

Lemma roll_window_cases d now :
  0 <= windowStartTime d <= now -> now < 2 ^ 64 ->
  (1000 <= now - windowStartTime d /\
   roll_window d now = mkRate (lastCommandTime d) 0 now) \/
  (now - windowStartTime d < 1000 /\ roll_window d now = d).
Proof.
  intros Hs Hn. unfold roll_window, RATE_LIMIT_WINDOW_MS.
  rewrite sub64_exact by lia.
  destruct (Z.leb_spec 1000 (now - windowStartTime d)); [left | right]; auto.
Qed.

Lemma incr32_exact n : 0 <= n -> n + 1 < 2 ^ 32 -> incr32 n = n + 1.
Proof. intros H0 H1. apply wrap32_small. unfold is_u32. lia. Qed.

Lemma rate_inv_step v c tick now T k :
  rate_inv v T k -> T <= now < 2 ^ 64 -> k + 1 < 2 ^ 32 ->
  rate_inv (snd (ValidateCommand v c tick now)) now (k + 1).
Proof.
  intros Hinv Hnow Hk u.
  destruct (ValidateCommand_rate_step v c tick now) as [_ [[_ [_ Hsame]] | [Hu [Ho _]]]].
  - destruct (Hinv u) as [[? ?] [? ?]]. unfold rate_entry in *. rewrite Hsame. lia.
  - destruct (decide (u = PlayerCommand.playerUUID c)) as [-> | Hne].
    + rewrite Hu. cbn [windowStartTime commandsInWindow].
      specialize (Hinv (PlayerCommand.playerUUID c)).
      destruct (roll_window_cases (rate_entry v (PlayerCommand.playerUUID c)) now)
        as [[_ ->] | [_ ->]]; try lia; cbn [windowStartTime commandsInWindow].
      * rewrite incr32_exact by lia. lia.
      * rewrite incr32_exact by lia. lia.
    + rewrite Ho by exact Hne. specialize (Hinv u). lia.
Qed.

Lemma valid_in_window_cons u s e log :
  valid_in_window u s (e :: log) =
  (if bool_decide (entry_player e = u) && is_VALID (entry_verdict e)
      && (entry_window e =? s) then 1 else 0) + valid_in_window u s log.
Proof.
  unfold valid_in_window. cbn [List.filter].
  destruct (_ && _ && _); cbn [length]; lia.
Qed.

Lemma valid_in_window_nonneg u s log : 0 <= valid_in_window u s log.
Proof. unfold valid_in_window. lia. Qed.

(** The bound that the induction carries: what the window that started at
    [s] can still accept, seen from the table [v]. *)
Definition window_room (v : t) (u : EsUuid) (s : Z) : Z :=
  if s =? windowStartTime (rate_entry v u)
  then Z.max 0 (maxCommandsPerSecond v - commandsInWindow (rate_entry v u))
  else if s <? windowStartTime (rate_entry v u) then 0
  else maxCommandsPerSecond v.

Lemma valid_in_window_room calls : forall v T k u s,
  rate_inv v T k -> steady T calls ->
  k + Z.of_nat (length calls) < 2 ^ 32 ->
  0 <= maxCommandsPerSecond v ->
  valid_in_window u s (validate_all v calls) <= window_room v u s.
Proof.
  induction calls as [| c rest IH]; intros v T k u s Hinv Hst Hk Hmax.
  - change (valid_in_window u s (validate_all v [])) with 0. unfold window_room.
    repeat match goal with |- context [if ?b then _ else _] => destruct b end; lia.
  - cbn [validate_all]. rewrite valid_in_window_cons. cbn [entry_player entry_verdict entry_window].
    destruct Hst as [Hnow Hst]. cbn [length] in Hk.
    set (r := ValidateCommand v (call_command c) (call_tick c) (call_now c)) in *.
    pose proof (rate_inv_step v (call_command c) (call_tick c) (call_now c) T k Hinv Hnow) as Hinv'.
    fold r in Hinv'. specialize (Hinv' ltac:(lia)).
    destruct (ValidateCommand_rate_step v (call_command c) (call_tick c) (call_now c))
      as [Hm Hcase]. fold r in Hm, Hcase.
    specialize (IH (snd r) (call_now c) (k + 1) u s Hinv' Hst ltac:(lia) ltac:(lia)).
    pose proof (Hinv u) as [Hs Hn].
    unfold call_player in *.
    unfold window_room in *. rewrite Hm in IH.
    destruct Hcase as [[Hnv [_ Hsame]] | [Hu [Ho Hv]]].
    + replace (is_VALID (fst r)) with false
        by (destruct (fst r) eqn:E; try reflexivity; congruence).
      rewrite andb_false_r. cbn [andb].
      assert (E : rate_entry (snd r) u = rate_entry v u).
      { unfold rate_entry. rewrite Hsame. reflexivity. }
      rewrite E in IH. lia.
    + case_bool_decide as Hp.
      * subst u. rewrite Hu in IH |- *. rewrite Hv.
        replace (is_VALID (if incr32 (commandsInWindow (roll_window (rate_entry v
                   (PlayerCommand.playerUUID (call_command c))) (call_now c)))
                             <=? maxCommandsPerSecond v then VALID else RATE_LIMITED))
          with (incr32 (commandsInWindow (roll_window (rate_entry v
                   (PlayerCommand.playerUUID (call_command c))) (call_now c)))
                <=? maxCommandsPerSecond v) by (destruct (_ <=? _); reflexivity).
        cbn [windowStartTime commandsInWindow andb] in *.
        destruct (roll_window_cases (rate_entry v (PlayerCommand.playerUUID (call_command c)))
                    (call_now c)) as [[Hroll E] | [Hroll E]]; try lia;
          rewrite E in *; cbn [windowStartTime commandsInWindow] in *;
          rewrite incr32_exact in * by lia;
          repeat match goal with
                 | |- context [?a <=? ?b] => destruct (Z.leb_spec a b)
                 | |- context [?a =? ?b] => destruct (Z.eqb_spec a b)
                 | |- context [?a <? ?b] => destruct (Z.ltb_spec a b)
                 | H : context [?a =? ?b] |- _ => destruct (Z.eqb_spec a b)
                 | H : context [?a <? ?b] |- _ => destruct (Z.ltb_spec a b)
                 end; cbn [andb] in *; lia.
      * cbn [andb]. rewrite Ho in IH by congruence. lia.
Qed.

(** Per tumbling window, at most [maxCommandsPerSecond] requests are
    answered [VALID]. *)
Lemma tumbling_window_bound v calls u s :
  playerRateLimits v = ∅ ->
  steady 0 calls ->
  Z.of_nat (length calls) < 2 ^ 32 ->
  0 <= maxCommandsPerSecond v ->
  valid_in_window u s (validate_all v calls) <= maxCommandsPerSecond v.
Proof.
  intros Hv Hst Hlen Hmax.
  pose proof (valid_in_window_room calls v 0 0 u s
                (rate_inv_init v 0 Hv ltac:(lia)) Hst ltac:(lia) Hmax) as H.
  destruct (rate_inv_init v 0 Hv ltac:(lia) u) as [_ [Hn _]].
  unfold window_room in H.
  repeat match goal with
         | H : context [if ?b then _ else _] |- _ => destruct b
         end; lia.
Qed.

(** The validator after a list of requests. *)
Fixpoint validator_after (v : t) (calls : list Call) : t :=
  match calls with
  | [] => v
  | c :: rest =>
      validator_after
        (snd (ValidateCommand v (call_command c) (call_tick c) (call_now c))) rest
  end.

(** The last clock reading of a list of requests that started at [T]. *)
Fixpoint clock_after (T : Z) (calls : list Call) : Z :=
  match calls with
  | [] => T
  | c :: rest => clock_after (call_now c) rest
  end.

Lemma steady_app calls : forall T more,
  steady T (calls ++ more) <->
  steady T calls /\ steady (clock_after T calls) more.
Proof.
  induction calls as [| c rest IH]; intros T more; cbn.
  - tauto.
  - rewrite IH. tauto.
Qed.

Lemma rate_inv_run calls : forall v T k,
  rate_inv v T k -> steady T calls ->
  k + Z.of_nat (length calls) < 2 ^ 32 ->
  rate_inv (validator_after v calls) (clock_after T calls)
           (k + Z.of_nat (length calls)).
Proof.
  induction calls as [| c rest IH]; intros v T k Hinv Hst Hk.
  - cbn [validator_after clock_after length].
    replace (k + Z.of_nat 0) with k by lia. exact Hinv.
  - cbn [validator_after clock_after]. destruct Hst as [Hnow Hst].
    cbn [length] in *.
    replace (k + Z.of_nat (S (length rest))) with ((k + 1) + Z.of_nat (length rest)) by lia.
    apply IH; [apply (rate_inv_step _ _ _ _ T); [assumption | assumption | lia]
              | assumption | lia].
Qed.

Lemma validator_after_max calls : forall v,
  maxCommandsPerSecond (validator_after v calls) = maxCommandsPerSecond v.
Proof.
  induction calls as [| c rest IH]; intros v; cbn [validator_after].
  - reflexivity.
  - rewrite IH. apply ValidateCommand_config.
Qed.

Lemma clock_after_nonneg calls : forall T,
  0 <= T -> steady T calls -> 0 <= clock_after T calls.
Proof.
  induction calls as [| c rest IH]; intros T HT Hst; cbn in *.
  - exact HT.
  - apply IH; [lia | tauto].
Qed.

(** Once a request of a window was answered [RATE_LIMITED], the window
    accepts nothing more. *)
Lemma rate_limited_closes_window v c post T k :
  rate_inv v T k -> steady T (c :: post) ->
  k + Z.of_nat (length (c :: post)) < 2 ^ 32 ->
  0 <= maxCommandsPerSecond v ->
  let r := ValidateCommand v (call_command c) (call_tick c) (call_now c) in
  fst r = RATE_LIMITED ->
  valid_in_window (call_player c)
    (windowStartTime (rate_entry (snd r) (call_player c)))
    (validate_all (snd r) post) = 0.
Proof.
  intros Hinv [Hnow Hst] Hk Hmax r Hr. cbn [length] in Hk.
  pose proof (rate_inv_step v (call_command c) (call_tick c) (call_now c) T k
                Hinv Hnow ltac:(lia)) as Hinv'. fold r in Hinv'.
  destruct (ValidateCommand_rate_step v (call_command c) (call_tick c) (call_now c))
    as [Hm Hcase]. fold r in Hm, Hcase.
  pose proof (valid_in_window_room post (snd r) (call_now c) (k + 1)
                (call_player c)
                (windowStartTime (rate_entry (snd r) (call_player c)))
                Hinv' Hst ltac:(lia) ltac:(lia)) as Hroom.
  pose proof (valid_in_window_nonneg (call_player c)
                (windowStartTime (rate_entry (snd r) (call_player c)))
                (validate_all (snd r) post)) as Hpos.
  unfold window_room in Hroom. rewrite Z.eqb_refl, Hm in Hroom.
  enough (maxCommandsPerSecond v
          < commandsInWindow (rate_entry (snd r) (call_player c))) by lia.
  unfold call_player in *.
  destruct Hcase as [[_ [Hnr _]] | [Hu [_ Hv]]]; [contradiction |].
  rewrite Hu. cbn [commandsInWindow]. rewrite Hr in Hv.
  destruct (Z.leb_spec
              (incr32 (commandsInWindow
                 (roll_window (rate_entry v (PlayerCommand.playerUUID (call_command c)))
                    (call_now c))))
              (maxCommandsPerSecond v)); [discriminate | assumption].
Qed.

(** C8, as the code has it.  The requests come with the readings of a
    steady clock, to a validator whose rate table is still empty.  The
    windows of a player are tumbling: each is known by the clock reading
    that started it.  For every player and every window of that player, at
    most [maxCommandsPerSecond] requests of the window are answered
    [VALID]; and once a request of a window was answered [RATE_LIMITED],
    no later request of that window is answered [VALID]. *)
Theorem C8_tumbling_window v calls :
  playerRateLimits v = ∅ ->
  steady 0 calls ->
  Z.of_nat (length calls) < 2 ^ 32 ->
  0 <= maxCommandsPerSecond v ->
  (forall u s,
     valid_in_window u s (validate_all v calls) <= maxCommandsPerSecond v) /\
  (forall pre c post, calls = pre ++ c :: post ->
     let r := ValidateCommand (validator_after v pre)
                (call_command c) (call_tick c) (call_now c) in
     fst r = RATE_LIMITED ->
     valid_in_window (call_player c)
       (windowStartTime (rate_entry (snd r) (call_player c)))
       (validate_all (snd r) post) = 0).
Proof.
  intros Hv Hst Hlen Hmax. split.
  - intros u s. apply tumbling_window_bound; assumption.
  - intros pre c post -> r Hr.
    apply steady_app in Hst as [Hpre Hpost].
    rewrite length_app in Hlen.
    apply (rate_limited_closes_window (validator_after v pre) c post
             (clock_after 0 pre) (0 + Z.of_nat (length pre))).
    + apply rate_inv_run; [apply rate_inv_init; [assumption | lia] | assumption | lia].
    + exact Hpost.
    + lia.
    + rewrite validator_after_max. exact Hmax.
    + exact Hr.
Qed.

(** Three requests of one player, the third in a new window. *)
Definition three_calls : list Call :=
  [mkCall (command_at "p1" 1000) 1000 1000;
   mkCall (command_at "p1" 1000) 1000 1500;
   mkCall (command_at "p1" 1001) 1001 2100].

Lemma C8_tumbling_window_witness :
  (forall u s,
     valid_in_window u s (validate_all init three_calls)
     <= maxCommandsPerSecond init) /\
  (forall pre c post, three_calls = pre ++ c :: post ->
     let r := ValidateCommand (validator_after init pre)
                (call_command c) (call_tick c) (call_now c) in
     fst r = RATE_LIMITED ->
     valid_in_window (call_player c)
       (windowStartTime (rate_entry (snd r) (call_player c)))
       (validate_all (snd r) post) = 0).
Proof.
  apply (C8_tumbling_window init three_calls).
  - reflexivity.
  - cbn. lia.
  - cbn. lia.
  - cbn. lia.
Defined.

(** A burst across the boundary of two windows: one request at 1000 ms
    opens a window, 119 more come at 1999 ms, and 120 come at 2000 ms,
    when the next window opens. *)
Definition burst : list Call :=
  mkCall (command_at "p1" 1000) 1000 1000
  :: repeat (mkCall (command_at "p1" 1000) 1000 1999) 119
  ++ repeat (mkCall (command_at "p1" 1000) 1000 2000) 120.

(** C8, as stated, fails.  The clock is steady, and in the second that
    starts at 1999 ms the player has 239 requests answered [VALID], more
    than [maxCommandsPerSecond = 120]. *)
Lemma C8_sliding_window_counterexample :
  steady 0 burst /\
  valid_in_second "p1" 1999 (validate_all init burst) = 239 /\
  ~ (valid_in_second "p1" 1999 (validate_all init burst)
     <= maxCommandsPerSecond init).
Proof.
  split; [| split].
  - unfold burst. cbn. repeat (split; try lia).
  - vm_compute. reflexivity.
  - vm_compute. intros H. apply H. reflexivity.
Qed.

End ValidatorProperties.

(** ** The command buffer *)

Section CommandBufferProperties.

Import CommandBuffer.

(** A sequence of [AddCommand] calls: the commands that were accepted, in
    the order of the calls, and the buffer they leave. *)
Fixpoint add_all (b : t) (cmds : list PlayerCommand.t)
  : list PlayerCommand.t * t :=
  match cmds with
  | [] => ([], b)
  | c :: rest =>
      let r := AddCommand b c in
      let rs := add_all (snd r) rest in
      (if fst r then c :: fst rs else fst rs, snd rs)
  end.

(** A list is ascending in the sequence numbers. *)
Fixpoint sequence_ascending (cmds : list PlayerCommand.t) : bool :=
  match cmds with
  | a :: (b :: _) as rest =>
      (PlayerCommand.sequenceNumber a <=? PlayerCommand.sequenceNumber b)
      && sequence_ascending rest
  | _ => true
  end.

Fixpoint key_sorted (q : list (Z * PlayerCommand.t)) : Prop :=
  match q with
  | [] => True
  | e :: rest => Forall (fun e' => fst e <= fst e') rest /\ key_sorted rest
  end.

Definition with_key (k : Z) (q : list (Z * PlayerCommand.t))
  : list (Z * PlayerCommand.t) :=
  List.filter (fun e => fst e =? k) q.

Lemma emplace_Forall (P : Z * PlayerCommand.t -> Prop) k c q :
  P (k, c) -> Forall P q -> Forall P (emplace k c q).
Proof.
  intros Hk Hq. induction Hq as [| e rest He Hrest IH]; cbn.
  - constructor; [assumption | constructor].
  - destruct (k <? fst e).
    + constructor; [assumption |]. constructor; assumption.
    + constructor; assumption.
Qed.

Lemma emplace_sorted k c q : key_sorted q -> key_sorted (emplace k c q).
Proof.
  induction q as [| e rest IH]; cbn; intros Hs.
  - split; [constructor | exact I].
  - destruct Hs as [Hall Hs].
    destruct (Z.ltb_spec k (fst e)) as [Hlt | Hge]; cbn.
    + split; [| split; assumption].
      constructor; [cbn; lia |].
      eapply Forall_impl; [exact Hall |]. cbn. intros e' He'. lia.
    + split; [| apply IH; exact Hs].
      apply emplace_Forall; [cbn; lia | exact Hall].
Qed.

(** Among the elements of one key, the new element comes last. *)
Lemma with_key_emplace k c q t' :
  key_sorted q ->
  with_key t' (emplace k c q) =
  if k =? t' then with_key t' q ++ [(k, c)] else with_key t' q.
Proof.
  unfold with_key.
  induction q as [| e rest IH]; cbn; intros Hs.
  - destruct (k =? t'); reflexivity.
  - destruct Hs as [Hall Hs].
    destruct (Z.ltb_spec k (fst e)) as [Hlt | Hge]; cbn.
    + destruct (Z.eqb_spec k t') as [-> | Hne].
      * (* every element of the queue has a larger key *)
        assert (Hnone : List.filter (fun e0 => fst e0 =? t') rest = []).
        { clear IH Hs. induction Hall as [| e' rest' He' _ IH']; cbn; [reflexivity |].
          destruct (Z.eqb_spec (fst e') t'); [lia | exact IH']. }
        destruct (Z.eqb_spec (fst e) t'); [lia |]. rewrite Hnone. reflexivity.
      * reflexivity.
    + rewrite (IH Hs).
      destruct (fst e =? t'), (k =? t'); reflexivity.
Qed.

Lemma lower_bound_sorted k q : key_sorted q -> key_sorted (lower_bound k q).
Proof.
  induction q as [| e rest IH]; cbn; intros Hs; [exact I |].
  destruct (fst e <? k); [apply IH; tauto | exact Hs].
Qed.

Lemma equal_range_with_key k q : key_sorted q -> equal_range k q = with_key k q.
Proof.
  unfold equal_range, with_key.
  induction q as [| e rest IH]; cbn; intros Hs; [reflexivity |].
  destruct Hs as [Hall Hs].
  destruct (Z.ltb_spec (fst e) k) as [Hlt | Hge].
  - destruct (Z.eqb_spec (fst e) k); [lia |]. apply IH. exact Hs.
  - cbn. destruct (Z.ltb_spec k (fst e)) as [Hgt | Hle].
    + destruct (Z.eqb_spec (fst e) k); [lia |].
      clear IH Hs. induction Hall as [| e' rest' He' _ IH']; cbn; [reflexivity |].
      destruct (Z.eqb_spec (fst e') k); [lia | exact IH'].
    + destruct (Z.eqb_spec (fst e) k); [| lia].
      f_equal. rewrite <- (IH Hs).
      destruct rest as [| e' rest']; cbn; [reflexivity |].
      apply Forall_inv in Hall.
      destruct (Z.ltb_spec (fst e') k); [lia | reflexivity].
Qed.

(** The queue holds each accepted command under its own tick, sorted. *)
Definition queue_ok (q : list (Z * PlayerCommand.t)) : Prop :=
  key_sorted q /\ Forall (fun e => fst e = PlayerCommand.gameTick (snd e)) q.

Lemma AddCommand_queue b c :
  commandQueue (snd (AddCommand b c)) =
  if fst (AddCommand b c)
  then emplace (PlayerCommand.gameTick c) c (commandQueue b)
  else commandQueue b.
Proof.
  unfold AddCommand.
  destruct (negb (PlayerCommand.IsValid c)); [reflexivity |].
  destruct (maxBufferSize b <=? _); [reflexivity |].
  destruct (IsDuplicate b c); reflexivity.
Qed.

Lemma AddCommand_queue_ok b c :
  queue_ok (commandQueue b) -> queue_ok (commandQueue (snd (AddCommand b c))).
Proof.
  intros [Hs Hk]. rewrite AddCommand_queue.
  destruct (fst (AddCommand b c)); [| split; assumption].
  split; [apply emplace_sorted; exact Hs |].
  apply emplace_Forall; [reflexivity | exact Hk].
Qed.

Lemma add_all_queue cmds : forall b t',
  queue_ok (commandQueue b) ->
  queue_ok (commandQueue (snd (add_all b cmds))) /\
  map snd (with_key t' (commandQueue (snd (add_all b cmds)))) =
  map snd (with_key t' (commandQueue b))
  ++ List.filter (fun c => PlayerCommand.gameTick c =? t') (fst (add_all b cmds)).
Proof.
  induction cmds as [| c rest IH]; intros b t' Hok; cbn [add_all fst snd].
  - split; [exact Hok |]. cbn. rewrite app_nil_r. reflexivity.
  - pose proof (AddCommand_queue_ok b c Hok) as Hok'.
    destruct (IH (snd (AddCommand b c)) t' Hok') as [Hfin Heq].
    split; [exact Hfin |]. rewrite Heq. rewrite AddCommand_queue.
    destruct (fst (AddCommand b c)); [| reflexivity].
    rewrite with_key_emplace by apply Hok. cbn [List.filter].
    destruct (PlayerCommand.gameTick c =? t').
    + rewrite map_app. cbn. rewrite <- app_assoc. reflexivity.
    + reflexivity.
Qed.

(** What the code does.  After any sequence of [AddCommand] calls on a
    fresh buffer of any capacity, [GetCommandsForTick t] returns exactly
    the accepted commands whose tick is [t], in the order in which they
    were accepted. *)
Lemma commands_for_tick_in_insertion_order cap cmds t' :
  let r := add_all (SetMaxBufferSize cap init) cmds in
  GetCommandsForTick (snd r) t' =
  List.filter (fun c => PlayerCommand.gameTick c =? t') (fst r).
Proof.
  cbv zeta. unfold GetCommandsForTick.
  destruct (add_all_queue cmds (SetMaxBufferSize cap init) t') as [[Hs _] Heq].
  { split; [exact I | constructor]. }
  rewrite equal_range_with_key by exact Hs.
  rewrite Heq. reflexivity.
Qed.

(** Two commands of one player for tick 100, the later sequence number
    first. *)
Definition seq_command (u : EsUuid) (tick seq : Z) : PlayerCommand.t :=
  PlayerCommand.mk u tick 0 Point0 false seq.

(** C3 at the failing input.  Both commands are accepted, and
    [GetCommandsForTick 100] returns them in the order of insertion, the
    sequence number 2 before the sequence number 1, although the second is
    below the first by the commands' own [operator<]. *)
Theorem C3_sequence_order_not_kept :
  let first := seq_command "p1" 100 2 in
  let second := seq_command "p1" 100 1 in
  let r := add_all init [first; second] in
  fst r = [first; second] /\
  GetCommandsForTick (snd r) 100 = [first; second] /\
  sequence_ascending (GetCommandsForTick (snd r) 100) = false /\
  PlayerCommand.ltb second first = true.
Proof.
  vm_compute. repeat split.
Qed.

End CommandBufferProperties.

(** ** The predictor *)

Section PredictorProperties.

Context {W : World}.

Import Predictor.

Lemma remove_if_filter {A : Type} (pred : A -> bool) (l : list A) :
  remove_if pred l = List.filter (fun x => negb (pred x)) l.
Proof.
  induction l as [| x rest IH]; cbn; [reflexivity |].
  destruct (pred x); cbn; rewrite IH; reflexivity.
Qed.

Lemma Step_gameTick (g : GameState.t) :
  GameState.gameTick (GameState.Step g) = incr64 (GameState.gameTick g).
Proof.
  unfold GameState.Step.
  destruct (GameState.move_ships _ _ _) as [[ships' vs] fs].
  destruct (GameState.asteroids g) as [field |]; [| reflexivity].
  destruct (AsteroidField_Step _ _ _ _) as [[field' vs'] fs']. reflexivity.
Qed.


(** The three commands of the scenario, recorded in a fresh predictor. *)
Definition three_recorded (u : EsUuid) : t :=
  RecordCommand (seq_command u 102 3)
    (RecordCommand (seq_command u 101 2)
       (RecordCommand (seq_command u 100 1) init)).


End PredictorProperties.

(** ** The snapshot manager *)

Section SnapshotProperties.

Context {W : World}.

Import SnapshotManager.

(** One call of [CreateSnapshot] without [forceKeyframe]: the world, the
    tick and the reading of the clock. *)
Definition Request : Type := (GameState.t * Z * Z)%type.

Definition create_one (m : t) (q : Request) : t :=
  CreateSnapshot m (fst (fst q)) (snd (fst q)) false (snd q).

Definition create_all (m : t) (qs : list Request) : t :=
  fold_left create_one qs m.

(** The keyframe flag of each snapshot that a list of calls creates, in the
    order of creation (read off the entry as it is pushed). *)
Fixpoint keyframe_flags (m : t) (qs : list Request) : list bool :=
  match qs with
  | [] => []
  | q :: rest =>
      (false || ShouldCreateKeyframe m) :: keyframe_flags (create_one m q) rest
  end.

(** The [n] calls of the keyframe test: default worlds at ticks
    [from], [from + 1], ... *)
Fixpoint default_requests (from : Z) (n : nat) : list Request :=
  match n with
  | O => []
  | S n' => (GameState.SetGameTick from GameState.init, from, 0)
            :: default_requests (from + 1) n'
  end.

(** C4, at the failing input.  A manager of capacity 100 with keyframe
    interval 5 creates ten snapshots, as the keyframe test of the server
    does.  A stride of 5 asks for two keyframes among ten snapshots (the
    test expects 2).  The code marks one: the sixth snapshot, the first one
    made after the counter of snapshots since the last keyframe has reached
    5.  With the default interval 30 the first keyframe is the 31st
    snapshot and the second one the 62nd: the stride is the interval plus
    one. *)
Theorem C4_keyframe_stride_off_by_one :
  keyframe_flags (SetKeyframeInterval 5 (create 100)) (default_requests 0 10) =
    [false; false; false; false; false; true; false; false; false; false] /\
  totalKeyframes (create_all (SetKeyframeInterval 5 (create 100))
                    (default_requests 0 10)) = 1 /\
  map isKeyframe (snapshots (create_all (SetKeyframeInterval 5 (create 100))
                               (default_requests 0 10))) =
    [false; false; false; false; false; true; false; false; false; false] /\
  List.filter (fun i => nth i (keyframe_flags (create 120) (default_requests 0 70)) false)
    (seq 0 70) = [30%nat; 61%nat].
Proof.
  repeat split; vm_compute; reflexivity.
Qed.

(** *** The ring *)

(** What identifies an entry of the ring: its tick, its capture time and
    the world it holds. *)
Definition entry_key (s : Snapshot) : Z * Z * option GameState.t :=
  (gameTick s, timestamp s, state s).

Definition request_key (q : Request) : Z * Z * option GameState.t :=
  (snd (fst q), snd q, Some (GameState.copy (fst (fst q)))).

(** The last [n] elements of a list. *)
Definition lastn {A : Type} (n : nat) (l : list A) : list A :=
  skipn (length l - n) l.

Lemma lastn_length {A : Type} (n : nat) (l : list A) :
  length (lastn n l) = Nat.min n (length l).
Proof. unfold lastn. rewrite length_skipn. lia. Qed.

Lemma lastn_all {A : Type} (n : nat) (l : list A) :
  (length l <= n)%nat -> lastn n l = l.
Proof.
  intros H. unfold lastn. replace (length l - n)%nat with 0%nat by lia.
  reflexivity.
Qed.

Lemma prune_front_lastn (N : Z) (l : list Snapshot) :
  0 <= N -> prune_front N l = lastn (Z.to_nat N) l.
Proof.
  intros HN. unfold lastn. induction l as [| x rest IH]; [reflexivity |].
  cbn [prune_front].
  destruct (Z.ltb_spec N (Z.of_nat (length (x :: rest)))) as [Hlt | Hge].
  - rewrite IH. cbn [length] in *.
    replace (S (length rest) - Z.to_nat N)%nat
      with (S (length rest - Z.to_nat N)) by lia.
    reflexivity.
  - cbn [length] in *.
    replace (S (length rest) - Z.to_nat N)%nat with 0%nat by lia.
    reflexivity.
Qed.

Lemma lastn_app_lastn {A : Type} (n : nat) (l r : list A) :
  lastn n (lastn n l ++ r) = lastn n (l ++ r).
Proof.
  destruct (Nat.le_gt_cases (length l) n) as [Hle | Hgt].
  - rewrite (lastn_all n l) by exact Hle. reflexivity.
  - unfold lastn. rewrite !length_app, length_skipn.
    replace (length l - (length l - n) + length r - n)%nat
      with (length r) by lia.
    replace (length l + length r - n)%nat
      with (length r + (length l - n))%nat by lia.
    rewrite <- (skipn_skipn (length r) (length l - n) (l ++ r)).
    f_equal. rewrite skipn_app.
    replace (length l - n - length l)%nat with 0%nat by lia.
    cbn [skipn]. reflexivity.
Qed.

Lemma lastn_map {A B : Type} (f : A -> B) (n : nat) (l : list A) :
  map f (lastn n l) = lastn n (map f l).
Proof. unfold lastn. rewrite length_map. symmetry. apply skipn_map. Qed.

Lemma create_one_snapshots (m : t) (q : Request) :
  0 <= historySize m ->
  map entry_key (snapshots (create_one m q)) =
  lastn (Z.to_nat (historySize m)) (map entry_key (snapshots m) ++ [request_key q]).
Proof.
  intros HN. unfold create_one, CreateSnapshot. cbn [snapshots].
  rewrite prune_front_lastn by exact HN.
  rewrite lastn_map, map_app. reflexivity.
Qed.

Lemma create_all_snapshots qs : forall m : t,
  0 <= historySize m ->
  (length (snapshots m) <= Z.to_nat (historySize m))%nat ->
  historySize (create_all m qs) = historySize m /\
  map entry_key (snapshots (create_all m qs)) =
  lastn (Z.to_nat (historySize m))
        (map entry_key (snapshots m) ++ map request_key qs).
Proof.
  induction qs as [| q rest IH]; intros m HN Hlen; cbn [create_all fold_left map].
  - split; [reflexivity |]. rewrite app_nil_r, lastn_all; [reflexivity |].
    rewrite length_map. exact Hlen.
  - fold (create_all (create_one m q) rest).
    pose proof (create_one_snapshots m q HN) as Hone.
    assert (Hlen' : (length (snapshots (create_one m q))
                     <= Z.to_nat (historySize (create_one m q)))%nat).
    { rewrite <- (length_map entry_key), Hone, lastn_length.
      change (historySize (create_one m q)) with (historySize m). lia. }
    destruct (IH (create_one m q) HN Hlen') as [Hsize Hsnap].
    split; [exact Hsize |].
    rewrite Hsnap, Hone.
    change (historySize (create_one m q)) with (historySize m).
    rewrite lastn_app_lastn, <- app_assoc. reflexivity.
Qed.

(** The ring after [M] calls of [CreateSnapshot] on a fresh manager of
    capacity [N] holds [min N M] entries: the last [min N M] snapshots
    made, in the order in which they were made. *)
Theorem ring_holds_most_recent (N : nat) (K : Z) (qs : list Request) :
  let m := create_all (SetKeyframeInterval K (create (Z.of_nat N))) qs in
  length (snapshots m) = Nat.min N (length qs) /\
  map entry_key (snapshots m) = lastn N (map request_key qs).
Proof.
  intros m.
  destruct (create_all_snapshots qs (SetKeyframeInterval K (create (Z.of_nat N))))
    as [_ Hsnap]; [cbn; lia | cbn; lia |].
  fold m in Hsnap. cbn [SetKeyframeInterval create snapshots historySize map app]
    in Hsnap.
  rewrite Nat2Z.id in Hsnap.
  split; [| exact Hsnap].
  rewrite <- (length_map entry_key), Hsnap, lastn_length, length_map. reflexivity.
Qed.

(** *** The keyframe cadence *)

Lemma create_one_counter (m : t) (q : Request) :
  snapshotsSinceLastKeyframe (create_one m q) =
  (if ShouldCreateKeyframe m then 0 else incr32 (snapshotsSinceLastKeyframe m)) /\
  keyframeInterval (create_one m q) = keyframeInterval m.
Proof. split; reflexivity. Qed.

Lemma keyframe_flags_from qs : forall (m : t),
  0 <= snapshotsSinceLastKeyframe m <= keyframeInterval m ->
  keyframeInterval m < 2 ^ 32 ->
  keyframe_flags m qs =
  map (fun i => (snapshotsSinceLastKeyframe m + Z.of_nat i)
                  mod (keyframeInterval m + 1) =? keyframeInterval m)
      (seq 0 (length qs)).
Proof.
  induction qs as [| q rest IH]; intros m Hc HK; [reflexivity |].
  cbn [keyframe_flags length seq map orb].
  set (K := keyframeInterval m) in *. set (c := snapshotsSinceLastKeyframe m) in *.
  destruct (create_one_counter m q) as [Hc' HK']. fold K c in Hc', HK'.
  unfold ShouldCreateKeyframe in *. fold K c in Hc' |- *.
  f_equal.
  - rewrite Z.add_0_r, Z.mod_small by lia.
    destruct (Z.leb_spec K c), (Z.eqb_spec c K); try reflexivity; lia.
  - rewrite IH; rewrite ?HK', ?Hc'.
    + rewrite <- seq_shift, map_map. apply map_ext. intros i.
      destruct (Z.leb_spec K c) as [Hfull | Hroom].
      * assert (Hck : c = K) by lia. rewrite Hck.
        replace (K + Z.of_nat (S i)) with (Z.of_nat i + 1 * (K + 1)) by lia.
        rewrite Z_mod_plus_full. rewrite Z.add_0_l. reflexivity.
      * rewrite incr32_exact by lia. f_equal. f_equal. lia.
    + destruct (Z.leb_spec K c); [lia |]. rewrite incr32_exact by lia. lia.
    + exact HK.
Qed.

(** Without [forceKeyframe], a fresh manager with keyframe interval [K]
    marks the snapshot number [i + 1] as keyframe exactly when
    [i mod (K + 1) = K]: the keyframes are [K + 1] snapshots apart, the
    first one being snapshot number [K + 1]. *)
Theorem keyframes_every_K_plus_1 (N K : Z) (qs : list Request) :
  0 <= K < 2 ^ 32 ->
  keyframe_flags (SetKeyframeInterval K (create N)) qs =
  map (fun i => Z.of_nat i mod (K + 1) =? K) (seq 0 (length qs)).
Proof.
  intros HK.
  rewrite keyframe_flags_from by (cbn; lia).
  apply map_ext. intros i. cbn [SetKeyframeInterval create
    snapshotsSinceLastKeyframe keyframeInterval].
  rewrite Z.add_0_l. reflexivity.
Qed.

End SnapshotProperties.

(** A world without content, for the concrete runs below. *)
Definition bare_world : World :=
  {| Ship := unit; Projectile := unit; Flotsam := unit; Visual := unit;
     AsteroidField := unit; System := unit;
     Ship_Move := fun ship visuals flotsam => (ship, visuals, flotsam);
     Projectile_IsDead := fun _ => false;
     Visual_Move := fun visual => visual;
     AsteroidField_Step := fun field visuals flotsam _ => (field, visuals, flotsam) |}.

Lemma keyframes_every_K_plus_1_witness :
  keyframe_flags (W := bare_world)
    (SnapshotManager.SetKeyframeInterval 5 (SnapshotManager.create 100))
    (default_requests 0 10)
  = map (fun i => Z.of_nat i mod (5 + 1) =? 5) (seq 0 10).
Proof.
  apply (keyframes_every_K_plus_1 (W := bare_world) 100 5 (default_requests 0 10)).
  lia.
Defined.

(** ** Projectile synchronisation *)

Section ProjectileSyncProperties.

Context {F : Facing}.

Import ProjectileSync.

(** A projectile at address [a] that stands still at the origin. *)
Definition projectile_at (a : Z) : ProjectileView :=
  mkView a None Point0 Point0 (Angle_of_degrees 0).

(** Successive spawns: the network IDs handed out and the final state. *)
Fixpoint spawn_all (s : t) (ps : list ProjectileView) : list Z * t :=
  match ps with
  | [] => ([], s)
  | p :: rest =>
      let r := RegisterProjectileSpawn s p None ""%string in
      let rs := spawn_all (snd r) rest in
      (fst r :: fst rs, snd rs)
  end.



End ProjectileSyncProperties.

Section ProjectileSyncOperations.

Context {F : Facing}.

Import ProjectileSync.













End ProjectileSyncOperations.


(** Facings kept as plain degrees, for the concrete runs below. *)
Definition plain_degrees : Facing :=
  {| Angle := R; Angle_default := 0%R;
     Angle_of_degrees := fun d => d; Degrees := fun a => a |}.



(** ** Binary64: the comparisons *)

Section Binary64Comparisons.

Import Floats.

Local Open Scope float_scope.

Lemma SFcompare_antisym (x y : spec_float) :
  SFcompare y x = option_map CompOpp (SFcompare x y).
Proof.
  destruct x as [sx | sx | | sx mx ex], y as [sy | sy | | sy my ey]; cbn;
    try reflexivity;
    try (destruct sx; reflexivity); try (destruct sy; reflexivity);
    try (destruct sx, sy; reflexivity).
  assert (Hm : Pos.compare_cont Eq my mx = CompOpp (Pos.compare_cont Eq mx my))
    by (rewrite Pos.compare_cont_antisym; reflexivity).
  rewrite (Z.compare_antisym ex ey), Hm.
  destruct sx, sy, (ex ?= ey)%Z, (Pos.compare_cont Eq mx my); reflexivity.
Qed.

Lemma Prim2SF_not_nan (x : float) : is_nan x = false -> Prim2SF x <> S754_nan.
Proof.
  intros H. unfold Prim2SF. rewrite H.
  destruct (is_zero x); [discriminate |].
  destruct (is_infinity x); [discriminate |].
  destruct (Z.frexp x) as [r e].
  destruct (shr_fexp _ _ _ _ _) as [shr e'].
  destruct (shr_m shr); discriminate.
Qed.

Lemma SFcompare_ordered (x y : spec_float) :
  x <> S754_nan -> y <> S754_nan -> exists c, SFcompare x y = Some c.
Proof.
  intros Hx Hy.
  destruct x as [sx | sx | | sx mx ex], y as [sy | sy | | sy my ey]; cbn;
    try contradiction; eexists; reflexivity.
Qed.

(** [x < y] gives [x <= y] and excludes [y <= x] and [y < x]. *)
Lemma ltb_true (x y : float) :
  (x <? y) = true -> (x <=? y) = true /\ (y <=? x) = false /\ (y <? x) = false.
Proof.
  rewrite !ltb_spec, !leb_spec. unfold SFltb, SFleb.
  rewrite (SFcompare_antisym (Prim2SF x) (Prim2SF y)).
  destruct (SFcompare (Prim2SF x) (Prim2SF y)) as [[| |] |]; cbn;
    intros H; try discriminate. repeat split.
Qed.

(** Between two numbers, [x < y] holds exactly when [y <= x] fails. *)
Lemma leb_false (x y : float) :
  is_nan x = false -> is_nan y = false ->
  (y <=? x) = false -> (x <? y) = true.
Proof.
  intros Hx Hy. apply Prim2SF_not_nan in Hx, Hy.
  rewrite ltb_spec, leb_spec. unfold SFltb, SFleb.
  rewrite (SFcompare_antisym (Prim2SF x) (Prim2SF y)).
  destruct (SFcompare_ordered _ _ Hx Hy) as [c ->].
  destruct c; cbn; intros H; try discriminate; reflexivity.
Qed.

Lemma leb_true (x y : float) : (y <=? x) = true -> (x <? y) = false.
Proof.
  rewrite ltb_spec, leb_spec. unfold SFltb, SFleb.
  rewrite (SFcompare_antisym (Prim2SF x) (Prim2SF y)).
  destruct (SFcompare (Prim2SF x) (Prim2SF y)) as [[| |] |]; cbn;
    intros H; try discriminate; reflexivity.
Qed.

End Binary64Comparisons.

(** ** Client reconciliation: the position channel *)

Section ReconciliationPosition.

Import Floats Binary64 Binary64.ClientReconciliation.

Local Open Scope float_scope.

#[local] Set Warnings "-inexact-float".

(** C5.  With [m] the length of [serverPos - predictedPos], a number,
    [ReconcilePosition] takes exactly one of three branches.  Below the
    error threshold the error is zeroed, the progress is 1 and no counter
    moves.  Otherwise, above the snap threshold the error is zeroed, the
    progress is 1 and the snap counter goes up by 1.  Otherwise the error
    is kept, the progress is 0 and the reconciliation counter goes up by 1.
    In every branch the running average becomes [0.1 * m + 0.9 * average],
    and nothing else of the object changes.  The counters are [uint64_t]
    below their last value. *)
Theorem C5_reconcile_position_branches (r : t) (predictedPos serverPos : Point) :
  let m := Length (Point_sub serverPos predictedPos) in
  let r' := ReconcilePosition r predictedPos serverPos in
  is_nan m = false -> is_nan (errorThresholdPx r) = false ->
  (0 <= totalSnaps r < 2 ^ 64 - 1)%Z ->
  (0 <= totalReconciliations r < 2 ^ 64 - 1)%Z ->
  averageError r' = 0.1 * m + 0.9 * averageError r /\
  ((m <? errorThresholdPx r) = true ->
     positionError r' = Point0 /\ positionCorrectionProgress r' = 1 /\
     totalSnaps r' = totalSnaps r /\
     totalReconciliations r' = totalReconciliations r /\
     IsReconcilingPosition r' = false) /\
  ((m <? errorThresholdPx r) = false -> (snapThresholdPx r <? m) = true ->
     positionError r' = Point0 /\ positionCorrectionProgress r' = 1 /\
     totalSnaps r' = (totalSnaps r + 1)%Z /\
     totalReconciliations r' = totalReconciliations r /\
     IsReconcilingPosition r' = false) /\
  ((m <? errorThresholdPx r) = false -> (snapThresholdPx r <? m) = false ->
     positionError r' = Point_sub serverPos predictedPos /\
     positionCorrectionProgress r' = 0 /\
     totalReconciliations r' = (totalReconciliations r + 1)%Z /\
     totalSnaps r' = totalSnaps r /\
     IsReconcilingPosition r' = true) /\
  (velocityError r' = velocityError r /\
   velocityCorrectionProgress r' = velocityCorrectionProgress r /\
   facingErrorDegrees r' = facingErrorDegrees r /\
   facingCorrectionProgress r' = facingCorrectionProgress r /\
   correctionTimeSeconds r' = correctionTimeSeconds r /\
   errorThresholdPx r' = errorThresholdPx r /\
   snapThresholdPx r' = snapThresholdPx r).
Proof.
  intros m r' Hm Hthr Hsnaps Hrecs. subst r'.
  unfold ReconcilePosition, IsSignificantError, IsReconcilingPosition. fold m.
  rewrite (incr64_exact (totalSnaps r)) by lia.
  rewrite (incr64_exact (totalReconciliations r)) by lia.
  destruct (errorThresholdPx r <=? m) eqn:Hge; cbn [negb].
  - pose proof (leb_true _ _ Hge) as Hlt.
    destruct (snapThresholdPx r <? m) eqn:Hgt;
      cbn [averageError positionError positionCorrectionProgress totalSnaps
           totalReconciliations set_position velocityError
           velocityCorrectionProgress facingErrorDegrees
           facingCorrectionProgress correctionTimeSeconds errorThresholdPx
           snapThresholdPx].
    + split; [reflexivity |]. split; [congruence |].
      split; [intros _ _; repeat split |]. split; [congruence |]. repeat split.
    + split; [reflexivity |]. split; [congruence |]. split; [congruence |].
      split; [intros _ _; repeat split |]. repeat split.
  - pose proof (leb_false _ _ Hm Hthr Hge) as Hlt.
    cbn [averageError positionError positionCorrectionProgress totalSnaps
         totalReconciliations set_position velocityError
         velocityCorrectionProgress facingErrorDegrees
         facingCorrectionProgress correctionTimeSeconds errorThresholdPx
         snapThresholdPx].
    split; [reflexivity |]. split; [intros _; repeat split |].
    split; [congruence |]. split; [congruence |]. repeat split.
Qed.

End ReconciliationPosition.


Section ReconciliationPositionRuns.

Import Floats Binary64 Binary64.ClientReconciliation.

Local Open Scope float_scope.

#[local] Set Warnings "-inexact-float".

(** The gradual branch at work: predicted (100, 100), server (150, 100),
    thresholds 1 and 500; the error is 50 pixels long. *)
Lemma C5_reconcile_position_branches_witness :
  let r' := ReconcilePosition init
              (mkPoint 100 100) (mkPoint 150 100) in
  positionError r' = Point_sub (mkPoint 150 100) (mkPoint 100 100) /\
  positionCorrectionProgress r' = 0 /\
  totalReconciliations r' = (totalReconciliations init + 1)%Z /\
  totalSnaps r' = totalSnaps init /\
  IsReconcilingPosition r' = true.
Proof.
  apply (C5_reconcile_position_branches init
           (mkPoint 100 100) (mkPoint 150 100)).
  - reflexivity.
  - reflexivity.
  - cbn. lia.
  - cbn. lia.
  - reflexivity.
  - reflexivity.
Defined.

(** The other two branches: an error of 0.5 pixels is ignored, and one of
    501 pixels, above the snap threshold of 500, is snapped; neither
    leaves the reconciler in progress. *)
Example ignore_and_snap :
  let ignored := ReconcilePosition init (mkPoint 0 0) (mkPoint 0.5 0) in
  let snapped := ReconcilePosition init (mkPoint 0 0) (mkPoint 501 0) in
  (IsReconcilingPosition ignored = false /\
   totalSnaps ignored = 0%Z /\ totalReconciliations ignored = 0%Z) /\
  (IsReconcilingPosition snapped = false /\
   totalSnaps snapped = 1%Z /\ totalReconciliations snapped = 0%Z /\
   positionError snapped = Point0).
Proof.
  vm_compute. repeat split.
Qed.

End ReconciliationPositionRuns.

(** ** The entity interpolator *)

Section InterpolatorProperties.

Context {F : Facing}.

Import EntityInterpolator.

(** *** Pruning *)

Lemma drop_expired_split thr l :
  exists removed,
    l = removed ++ drop_expired thr l /\
    Forall (fun e => timestamp e < thr) removed.
Proof.
  induction l as [| s rest [removed [Heq Hall]]]; cbn.
  - exists []. split; [reflexivity | constructor].
  - destruct (Z.ltb_spec (timestamp s) thr) as [Hlt | Hge].
    + exists (s :: removed). split; [cbn; f_equal; exact Heq |].
      constructor; assumption.
    + exists []. split; [reflexivity | constructor].
Qed.

Lemma drop_stale_split rt l :
  exists removed,
    l = removed ++ drop_stale rt l /\
    Forall (fun e => timestamp e < rt) removed.
Proof.
  induction l as [| s rest [removed [Heq Hall]]]; cbn [drop_stale].
  - exists []. split; [reflexivity | constructor].
  - destruct ((2 <? length (s :: rest))%nat) eqn:Hlen; cbn [andb].
    + destruct (Z.ltb_spec (timestamp s) rt) as [Hlt | Hge].
      * exists (s :: removed). split; [cbn; f_equal; exact Heq |].
        constructor; assumption.
      * exists []. split; [reflexivity | constructor].
    + exists []. split; [reflexivity | constructor].
Qed.

(** The second loop stops at two entries. *)
Lemma drop_stale_keeps_two rt l :
  (2 <= length l)%nat -> (2 <= length (drop_stale rt l))%nat.
Proof.
  induction l as [| s rest IH]; cbn [drop_stale]; intros Hlen; [exact Hlen |].
  destruct (Nat.ltb_spec 2 (length (s :: rest))) as [Hgt | Hle]; cbn [andb].
  - destruct (timestamp s <? rt); [| exact Hlen].
    apply IH. cbn [length] in Hgt. lia.
  - exact Hlen.
Qed.

(** The first loop stops at the first entry that is not expired. *)
Lemma drop_expired_stops thr pre e tail :
  ~ timestamp e < thr ->
  exists pre', drop_expired thr (pre ++ e :: tail) = pre' ++ e :: tail.
Proof.
  intros He. induction pre as [| s pre IH]; cbn.
  - destruct (Z.ltb_spec (timestamp e) thr); [contradiction |].
    exists []. reflexivity.
  - destruct (timestamp s <? thr); [exact IH |].
    exists (s :: pre). reflexivity.
Qed.

(** What [Update] does keep.  It removes entries only from the front of a
    timeline, and (the render time being at least 1000 ms) only entries
    older than the render time; a timeline in which an entry that is not
    older than the render time minus 1000 ms is followed by at least one
    more entry keeps at least two entries. *)
Lemma pruning_by_render_time (it : t) (now : Z) (entityId : EsUuid)
  (history : EntityHistory) :
  entityStates it !! entityId = Some history ->
  1000 <= GetRenderTimestamp it now ->
  exists removed history',
    entityStates (Update it now) !! entityId = Some history' /\
    snapshots history = removed ++ snapshots history' /\
    Forall (fun e => timestamp e < GetRenderTimestamp it now) removed /\
    (forall pre e tail,
       snapshots history = pre ++ e :: tail ->
       ~ timestamp e < GetRenderTimestamp it now - 1000 ->
       tail <> [] ->
       (2 <= length (snapshots history'))%nat).
Proof.
  intros Hlook Hrt.
  set (rt := GetRenderTimestamp it now) in *.
  assert (Hthr : sub64 rt 1000 = rt - 1000).
  { apply sub64_exact; [lia |]. subst rt. unfold GetRenderTimestamp.
    apply wrap64_range. }
  destruct (drop_expired_split (rt - 1000) (snapshots history)) as [r1 [E1 A1]].
  destruct (drop_stale_split rt (drop_expired (rt - 1000) (snapshots history)))
    as [r2 [E2 A2]].
  exists (r1 ++ r2), (prune_history rt history).
  split; [| split; [| split]].
  - unfold Update, PruneOldSnapshots. cbn [entityStates].
    fold rt. rewrite lookup_fmap, Hlook. reflexivity.
  - unfold prune_history. cbn [snapshots]. rewrite Hthr.
    rewrite <- app_assoc, <- E2. exact E1.
  - apply Forall_app. split; [| exact A2].
    eapply Forall_impl; [exact A1 |]. cbn. intros e He. lia.
  - intros pre e tail Hsplit He Htail.
    unfold prune_history. cbn [snapshots]. rewrite Hthr.
    apply drop_stale_keeps_two.
    destruct (drop_expired_stops (rt - 1000) pre e tail He) as [pre' Hd].
    rewrite Hsplit, Hd, length_app. cbn [length].
    destruct tail; [contradiction | cbn [length]; lia].
Qed.

(** *** The signed arc *)


End InterpolatorProperties.

(** An entity state that stands still at the origin, received at [ts]. *)
Definition state_at (ts : Z) : EntityInterpolator.EntityState (F := plain_degrees) :=
  EntityInterpolator.mkState 0 Point0 Point0 (Angle_of_degrees 0) ts.

(** The timestamps of the timeline of an entity. *)
Definition timeline (it : EntityInterpolator.t (F := plain_degrees))
  (entityId : EsUuid) : list Z :=
  match EntityInterpolator.entityStates it !! entityId with
  | Some history =>
      map EntityInterpolator.timestamp (EntityInterpolator.snapshots history)
  | None => []
  end.

Definition timeline_of (stamps : list Z) : EntityInterpolator.t (F := plain_degrees) :=
  fold_left (fun it ts => EntityInterpolator.AddSnapshot it "e1"%string (state_at ts))
            stamps EntityInterpolator.init.

(** C7 at the failing input, at a render time of 5000 ms (clock 5100 ms,
    delay 100 ms).  The timeline 1000, 2000 holds two entries before
    [Update] and none after it; of the timeline 1000, 4500 one entry is
    left.  The first loop of [PruneOldSnapshots] pops every entry older
    than the render time minus 1000 ms, however few remain.  The second
    loop pops entries older than the render time itself while more than
    two remain: of the timeline 4500, 4600, 4700 the entry of 4500 goes,
    which is not older than 4000. *)
Theorem C7_pruning_below_two :
  timeline (timeline_of [1000; 2000]) "e1" = [1000; 2000] /\
  EntityInterpolator.GetRenderTimestamp (timeline_of [1000; 2000]) 5100 = 5000 /\
  timeline (EntityInterpolator.Update (timeline_of [1000; 2000]) 5100) "e1" = [] /\
  timeline (timeline_of [1000; 4500]) "e1" = [1000; 4500] /\
  timeline (EntityInterpolator.Update (timeline_of [1000; 4500]) 5100) "e1" = [4500] /\
  timeline (timeline_of [4500; 4600; 4700]) "e1" = [4500; 4600; 4700] /\
  timeline (EntityInterpolator.Update (timeline_of [4500; 4600; 4700]) 5100) "e1"
  = [4600; 4700].
Proof.
  repeat split; vm_compute; reflexivity.
Qed.


(** ** The entity interpolator: the blend *)

Section InterpolationBlend.

Import Floats Binary64 Binary64.EntityInterpolator.

Context {F : Facing}.

Local Open Scope float_scope.




End InterpolationBlend.

Section InterpolationRuns.

Import Floats Binary64 Binary64.EntityInterpolator.

Local Open Scope float_scope.

#[local] Set Warnings "-inexact-float".






End InterpolationRuns.

(** * Further properties *)

(** ** The command validator: statistics and tracking *)

Section ValidatorStatistics.

Import CommandValidator.

Lemma wrap64_add_l x y : wrap64 (wrap64 x + y) = wrap64 (x + y).
Proof. unfold wrap64. apply Zplus_mod_idemp_l. Qed.

(** Verdicts of a log other than [VALID]. *)
Definition rejected_in (log : list Entry) : Z :=
  Z.of_nat (length (List.filter (fun e => negb (is_VALID (entry_verdict e))) log)).

Lemma rejected_in_range log : 0 <= rejected_in log <= Z.of_nat (length log).
Proof.
  unfold rejected_in. split; [lia |].
  apply inj_le. induction log as [| e rest IH]; cbn; [lia |].
  destruct (negb _); cbn; lia.
Qed.

Lemma validate_all_length calls : forall v,
  length (validate_all v calls) = length calls.
Proof.
  induction calls as [| c rest IH]; intros v; cbn; [reflexivity |].
  rewrite IH. reflexivity.
Qed.

Lemma ValidateCommand_counters v c tick now :
  let r := ValidateCommand v c tick now in
  totalCommands (snd r) = incr64 (totalCommands v) /\
  rejectedCommands (snd r) =
    (if is_VALID (fst r) then rejectedCommands v
     else incr64 (rejectedCommands v)).
Proof.
  cbv zeta. unfold ValidateCommand.
  destruct (negb (PlayerCommand.IsValid c)); [split; reflexivity |].
  destruct (string_empty _); [split; reflexivity |].
  destruct (_ <? _); [split; reflexivity |].
  destruct (_ <? _); [split; reflexivity |].
  unfold CheckRateLimit.
  destruct (negb (Qle_bool _ _)); split; reflexivity.
Qed.

Lemma validate_all_counters calls : forall v,
  is_u64 (totalCommands v) -> is_u64 (rejectedCommands v) ->
  totalCommands (validator_after v calls)
    = wrap64 (totalCommands v + Z.of_nat (length calls)) /\
  rejectedCommands (validator_after v calls)
    = wrap64 (rejectedCommands v + rejected_in (validate_all v calls)).
Proof.
  induction calls as [| c rest IH]; intros v Ht Hr.
  - cbn [validator_after validate_all length]. unfold rejected_in. cbn.
    rewrite !Z.add_0_r, !wrap64_small by assumption. split; reflexivity.
  - cbn [validator_after validate_all length].
    destruct (ValidateCommand_counters v (call_command c) (call_tick c) (call_now c))
      as [Et Er].
    set (r := ValidateCommand v (call_command c) (call_tick c) (call_now c)) in *.
    destruct (IH (snd r)) as [IHt IHr].
    { rewrite Et. apply wrap64_range. }
    { rewrite Er. destruct (is_VALID (fst r)); [exact Hr | apply wrap64_range]. }
    rewrite IHt, IHr, Et, Er. unfold incr64. rewrite wrap64_add_l.
    split; [f_equal; lia |].
    unfold rejected_in. cbn [List.filter entry_verdict].
    destruct (is_VALID (fst r)); cbn [negb length].
    + reflexivity.
    + rewrite wrap64_add_l. f_equal. lia.
Qed.

(** Statistics.  After [ResetStatistics] (or on a new validator) and any
    sequence of fewer than 2^64 validations, [GetTotalCommandsValidated]
    is the number of validations and [GetTotalCommandsRejected] the number
    of verdicts other than [VALID]; the rejected never exceed the total,
    and [ResetStatistics] keeps the rate table and the limits. *)
Theorem validator_statistics (v : t) (calls : list Call) :
  Z.of_nat (length calls) < 2 ^ 64 ->
  let v' := validator_after (ResetStatistics v) calls in
  GetTotalCommandsValidated v' = Z.of_nat (length calls) /\
  GetTotalCommandsRejected v' = rejected_in (validate_all (ResetStatistics v) calls) /\
  0 <= GetTotalCommandsRejected v' <= GetTotalCommandsValidated v' /\
  playerRateLimits (ResetStatistics v) = playerRateLimits v /\
  maxCommandsPerSecond v' = maxCommandsPerSecond v.
Proof.
  intros Hlen v'. subst v'.
  unfold GetTotalCommandsValidated, GetTotalCommandsRejected.
  destruct (validate_all_counters calls (ResetStatistics v)) as [Ht Hr];
    [cbn; unfold is_u64; lia | cbn; unfold is_u64; lia |].
  pose proof (rejected_in_range (validate_all (ResetStatistics v) calls)) as Hrange.
  rewrite validate_all_length in Hrange.
  rewrite Ht, Hr. cbn [ResetStatistics totalCommands rejectedCommands].
  rewrite !Z.add_0_l, !wrap64_small by (unfold is_u64; lia).
  repeat split; try lia.
  rewrite validator_after_max. reflexivity.
Qed.

Definition malformed_then_valid : list Call :=
  [ mkCall (command_at "" 100) 100 0;
    mkCall (command_at "p1" 100) 100 0;
    mkCall (command_at "p1" 900) 100 0 ].

Lemma validator_statistics_witness :
  GetTotalCommandsValidated (validator_after (ResetStatistics init) malformed_then_valid) = 3 /\
  GetTotalCommandsRejected (validator_after (ResetStatistics init) malformed_then_valid) = 2.
Proof.
  destruct (validator_statistics init malformed_then_valid) as (Ht & Hr & _).
  - cbn. lia.
  - split; [exact Ht |]. rewrite Hr. vm_compute. reflexivity.
Defined.

(** A player without an entry in the rate table (never seen, or removed by
    [ClearPlayerTracking]) has command rate 0 and, whenever the limit is
    at least 1 (below 2^32 as the field is), is not rate limited on the
    next command; clearing one player leaves the windows of the others
    as they were. *)
Theorem cleared_player_starts_afresh (v : t) (u : EsUuid) (c : PlayerCommand.t)
  (tick now : Z) :
  1 <= maxCommandsPerSecond v ->
  PlayerCommand.playerUUID c = u ->
  let v0 := ClearPlayerTracking u v in
  Qeq (GetPlayerCommandRate v0 u) 0 /\
  fst (ValidateCommand v0 c tick now) <> RATE_LIMITED /\
  (forall u', u' <> u ->
     playerRateLimits v0 !! u' = playerRateLimits v !! u') /\
  (fst (ValidateCommand v0 c tick now) = VALID ->
     playerRateLimits (snd (ValidateCommand v0 c tick now)) !! u
     = Some (mkRate now 1 (if 1000 <=? wrap64 now then now else 0))).
Proof.
  intros Hmax Hu v0. subst v0.
  assert (Hnone : playerRateLimits (ClearPlayerTracking u v) !! u = None).
  { cbn. apply lookup_delete_eq. }
  split; [unfold GetPlayerCommandRate; rewrite Hnone; reflexivity |].
  assert (Hcheck :
    CheckRateLimit (count_total (ClearPlayerTracking u v)) u now
    = (true, set_limits
         (<[u := mkRate now 1 (if 1000 <=? wrap64 now then now else 0)]>
            (playerRateLimits (ClearPlayerTracking u v)))
         (count_total (ClearPlayerTracking u v)))).
  { unfold CheckRateLimit, rate_entry, roll_window.
    cbn [count_total playerRateLimits] in *. 
    change (playerRateLimits (ClearPlayerTracking u v)) with
      (delete u (playerRateLimits v)) in *.
    rewrite Hnone. cbn [default RateLimitData0 windowStartTime].
    unfold RATE_LIMIT_WINDOW_MS, sub64. rewrite Z.sub_0_r.
    assert (Hq : Qle_bool (commandsPerSecond 1) (inject_Z (maxCommandsPerSecond v)) = true).
    { apply Qle_bool_iff. unfold commandsPerSecond, RATE_LIMIT_WINDOW_MS, Qle, inject_Z.
      cbn. lia. }
    change (maxCommandsPerSecond (count_total (ClearPlayerTracking u v)))
      with (maxCommandsPerSecond v).
    destruct (1000 <=? wrap64 now);
      cbn [commandsInWindow lastCommandTime windowStartTime RateLimitData0];
      change (incr32 0) with 1; rewrite Hq; reflexivity. }
  split; [| split].
  - unfold ValidateCommand. rewrite Hu.
    destruct (negb (PlayerCommand.IsValid c)); [discriminate |].
    destruct (string_empty _); [discriminate |].
    destruct (_ <? _); [discriminate |].
    destruct (_ <? _); [discriminate |].
    rewrite Hcheck. discriminate.
  - intros u' Hne. cbn. apply lookup_delete_ne. congruence.
  - unfold ValidateCommand. rewrite Hu.
    destruct (negb (PlayerCommand.IsValid c)); [discriminate |].
    destruct (string_empty _); [discriminate |].
    destruct (_ <? _); [discriminate |].
    destruct (_ <? _); [discriminate |].
    rewrite Hcheck. cbn. intros _. apply lookup_insert_eq.
Qed.

Lemma cleared_player_starts_afresh_witness :
  fst (ValidateCommand (ClearPlayerTracking "p1" init) (command_at "p1" 100) 100 5)
  <> RATE_LIMITED.
Proof.
  apply (cleared_player_starts_afresh init "p1" (command_at "p1" 100) 100 5).
  - cbn. lia.
  - reflexivity.
Defined.

End ValidatorStatistics.

(** ** The command buffer as a list of live commands *)

Section CommandBufferOperations.

Import CommandBuffer.

(** The mutating operations of the buffer. *)
Inductive BufferOp : Type :=
| OpAdd (c : PlayerCommand.t)
| OpPrune (tick : Z)
| OpClear
| OpSetMax (n : Z).

Definition buffer_step (b : t) (op : BufferOp) : t :=
  match op with
  | OpAdd c => snd (AddCommand b c)
  | OpPrune tick => PruneOlderThan tick b
  | OpClear => Clear b
  | OpSetMax n => SetMaxBufferSize n b
  end.

Definition buffer_run (b : t) (ops : list BufferOp) : t :=
  fold_left buffer_step ops b.

(** The commands a buffer should hold after the operations: accepted, and
    neither pruned nor cleared since, in the order of acceptance. *)
Definition known (live : list PlayerCommand.t) (c : PlayerCommand.t) : bool :=
  existsb (fun existing => PlayerCommand.eqb existing c) live.

Definition not_older (tick : Z) (c : PlayerCommand.t) : bool :=
  negb (PlayerCommand.gameTick c <? tick).

Definition live_step (s : Z * list PlayerCommand.t) (op : BufferOp)
  : Z * list PlayerCommand.t :=
  match op with
  | OpAdd c =>
      if PlayerCommand.IsValid c && (Z.of_nat (length (snd s)) <? fst s)
         && negb (known (snd s) c)
      then (fst s, snd s ++ [c]) else s
  | OpPrune tick => (fst s, List.filter (not_older tick) (snd s))
  | OpClear => (fst s, [])
  | OpSetMax n => (n, snd s)
  end.

Definition live_run (s : Z * list PlayerCommand.t) (ops : list BufferOp)
  : Z * list PlayerCommand.t :=
  fold_left live_step ops s.

Definition of_player (u : EsUuid) (c : PlayerCommand.t) : bool :=
  bool_decide (PlayerCommand.playerUUID c = u).

Definition for_tick (tick : Z) (c : PlayerCommand.t) : bool :=
  PlayerCommand.gameTick c =? tick.

(** The buffer [b] holds the commands [live]. *)
Definition holds (b : t) (live : list PlayerCommand.t) : Prop :=
  queue_ok (commandQueue b) /\
  Permutation (map snd (commandQueue b)) live /\
  (forall tick, map snd (with_key tick (commandQueue b)) = List.filter (for_tick tick) live) /\
  (forall u, GetPlayerCommands b u = List.filter (of_player u) live) /\
  (forall u, playerCommands b !! u <> Some []).

Lemma filter_filter_and {A : Type} (f g : A -> bool) (l : list A) :
  List.filter f (List.filter g l) = List.filter (fun x => g x && f x) l.
Proof.
  induction l as [| x l IH]; cbn; [reflexivity |].
  destruct (g x); cbn; [destruct (f x) |]; rewrite IH; reflexivity.
Qed.

Lemma filter_swap {A : Type} (f g : A -> bool) (l : list A) :
  List.filter f (List.filter g l) = List.filter g (List.filter f l).
Proof.
  rewrite !filter_filter_and. apply List.filter_ext. intros x. apply andb_comm.
Qed.

Lemma filter_none {A : Type} (f : A -> bool) (l : list A) :
  (forall x, In x l -> f x = false) -> List.filter f l = [].
Proof.
  induction l as [| x l IH]; cbn; intros H; [reflexivity |].
  rewrite (H x) by (left; reflexivity). apply IH. intros y Hy. apply H. right. exact Hy.
Qed.

Lemma Permutation_List_filter {A : Type} (f : A -> bool) (l l' : list A) :
  Permutation l l' -> Permutation (List.filter f l) (List.filter f l').
Proof.
  induction 1 as [| x l l' _ IH | x y l | l l' l'' _ IH1 _ IH2]; cbn.
  - constructor.
  - destruct (f x); [constructor |]; exact IH.
  - destruct (f x), (f y); try reflexivity. constructor.
  - etransitivity; eassumption.
Qed.

Lemma known_of_player live c :
  known live c = known (List.filter (of_player (PlayerCommand.playerUUID c)) live) c.
Proof.
  unfold known. induction live as [| e live IH]; cbn; [reflexivity |].
  unfold of_player at 1. case_bool_decide as Hu; cbn.
  - rewrite IH. reflexivity.
  - rewrite IH. unfold PlayerCommand.eqb at 1.
    rewrite bool_decide_eq_false_2 by exact Hu. reflexivity.
Qed.

Lemma IsDuplicate_known b live c :
  holds b live -> IsDuplicate b c = known live c.
Proof.
  intros (_ & _ & _ & Hp & _). rewrite known_of_player, <- Hp.
  unfold IsDuplicate, GetPlayerCommands, known.
  destruct (playerCommands b !! PlayerCommand.playerUUID c); reflexivity.
Qed.

Lemma emplace_Permutation k c q : Permutation (emplace k c q) (q ++ [(k, c)]).
Proof.
  induction q as [| e q IH]; cbn; [reflexivity |].
  destruct (k <? fst e).
  - change (e :: q ++ [(k, c)]) with ((e :: q) ++ [(k, c)]).
    rewrite <- Permutation_cons_append. reflexivity.
  - constructor. exact IH.
Qed.

(** On a sorted queue the erasing loop removes exactly the older keys. *)
Lemma erase_older_filter k q :
  key_sorted q -> erase_older k q = List.filter (fun e => negb (fst e <? k)) q.
Proof.
  induction q as [| e q IH]; cbn; intros Hs; [reflexivity |].
  destruct Hs as [Hall Hs].
  destruct (Z.ltb_spec (fst e) k) as [Hlt | Hge]; cbn.
  - apply IH. exact Hs.
  - f_equal. clear IH Hs. induction Hall as [| e' q' He' _ IH']; cbn; [reflexivity |].
    destruct (Z.ltb_spec (fst e') k); [lia |]. cbn. f_equal. exact IH'.
Qed.

Lemma filter_sorted (f : Z * PlayerCommand.t -> bool) q :
  key_sorted q -> key_sorted (List.filter f q).
Proof.
  induction q as [| e q IH]; cbn; intros Hs; [exact I |].
  destruct Hs as [Hall Hs]. destruct (f e); cbn; [| apply IH; exact Hs].
  split; [| apply IH; exact Hs].
  clear IH Hs. induction Hall as [| e' q' He' _ IH']; cbn; [constructor |].
  destruct (f e'); [constructor; assumption | exact IH'].
Qed.

Lemma Forall_List_filter {A : Type} (P : A -> Prop) (f : A -> bool) (l : list A) :
  Forall P l -> Forall P (List.filter f l).
Proof.
  induction 1 as [| x l Hx _ IH]; cbn; [constructor |].
  destruct (f x); [constructor; assumption | exact IH].
Qed.

Lemma map_snd_filter_key (f : Z -> bool) q :
  Forall (fun e => fst e = PlayerCommand.gameTick (snd e)) q ->
  map snd (List.filter (fun e => f (fst e)) q)
  = List.filter (fun c => f (PlayerCommand.gameTick c)) (map snd q).
Proof.
  induction 1 as [| e q He _ IH]; cbn; [reflexivity |].
  rewrite <- He. destruct (f (fst e)); cbn; rewrite IH; reflexivity.
Qed.

Lemma holds_empty cap : holds (SetMaxBufferSize cap init) [].
Proof.
  repeat split; cbn; try constructor.
  intros u. rewrite lookup_empty. discriminate.
Qed.

Lemma holds_add b live c :
  holds b live ->
  holds (snd (AddCommand b c))
        (snd (live_step (maxBufferSize b, live) (OpAdd c))) /\
  fst (AddCommand b c)
  = PlayerCommand.IsValid c && (Z.of_nat (length live) <? maxBufferSize b)
    && negb (known live c) /\
  maxBufferSize (snd (AddCommand b c)) = maxBufferSize b.
Proof.
  intros H. pose proof H as (Hq & Hperm & Htick & Hplayer & Hne).
  assert (Hlen : length (commandQueue b) = length live).
  { rewrite <- (length_map snd). apply Permutation_length. exact Hperm. }
  unfold AddCommand. cbn [live_step fst snd].
  rewrite (IsDuplicate_known b live c H), Hlen.
  destruct (PlayerCommand.IsValid c); cbn [negb andb]; [| tauto].
  destruct (Z.leb_spec (maxBufferSize b) (Z.of_nat (length live))) as [Hfull | Hroom].
  { destruct (Z.ltb_spec (Z.of_nat (length live)) (maxBufferSize b)); [lia |].
    cbn. tauto. }
  destruct (Z.ltb_spec (Z.of_nat (length live)) (maxBufferSize b)); [| lia].
  destruct (known live c); cbn [negb andb fst snd]; [tauto |].
  split; [| split; reflexivity].
  split; [| split; [| split; [| split]]]; cbn [commandQueue playerCommands].
  - destruct Hq as [Hs Hk]. split; [apply emplace_sorted; exact Hs |].
    apply emplace_Forall; [reflexivity | exact Hk].
  - rewrite emplace_Permutation, map_app. cbn.
    apply Permutation_app_tail. exact Hperm.
  - intros tick. rewrite with_key_emplace by apply Hq.
    rewrite List.filter_app. cbn [List.filter]. unfold for_tick at 2.
    destruct (PlayerCommand.gameTick c =? tick).
    + rewrite map_app, Htick. reflexivity.
    + rewrite app_nil_r. apply Htick.
  - intros u. unfold GetPlayerCommands. cbn [playerCommands].
    rewrite List.filter_app. cbn [List.filter]. unfold of_player at 2.
    case_bool_decide as Hu.
    + subst u. rewrite lookup_insert_eq.
      change (default [] (playerCommands b !! PlayerCommand.playerUUID c) ++ [c]
              = List.filter (of_player (PlayerCommand.playerUUID c)) live ++ [c]).
      f_equal. apply Hplayer.
    + rewrite lookup_insert_ne by exact Hu. rewrite app_nil_r. apply Hplayer.
  - intros u. destruct (decide (PlayerCommand.playerUUID c = u)) as [<- | Hu].
    + rewrite lookup_insert_eq. intros [= E]. destruct (default _ _); discriminate.
    + rewrite lookup_insert_ne by exact Hu. apply Hne.
Qed.

Lemma lookup_nonempty_fmap {A : Type} (F : list A -> list A)
  (m : gmap string (list A)) (u : string) :
  F [] = [] ->
  default [] (filter (fun kv => snd kv <> []) (F <$> m) !! u) = F (default [] (m !! u)).
Proof.
  intros HF. destruct (m !! u) as [l |] eqn:El; simpl default.
  - destruct (F l) as [| x l'] eqn:Ef.
    + rewrite (proj2 (map_lookup_filter_None _ _ _)); [reflexivity |].
      right. intros x. rewrite lookup_fmap, El. cbn. intros [= <-].
      cbn. congruence.
    + rewrite (proj2 (map_lookup_filter_Some _ _ _ (x :: l'))); [reflexivity |].
      split; [rewrite lookup_fmap, El; cbn; f_equal; exact Ef | cbn; discriminate].
  - rewrite (proj2 (map_lookup_filter_None _ _ _)); [symmetry; exact HF |].
    left. rewrite lookup_fmap, El. reflexivity.
Qed.

Lemma holds_prune b live tick :
  holds b live -> holds (PruneOlderThan tick b) (List.filter (not_older tick) live).
Proof.
  intros (Hq & Hperm & Htick & Hplayer & Hne).
  destruct Hq as [Hs Hk].
  unfold PruneOlderThan.
  split; [| split; [| split; [| split]]]; cbn [commandQueue playerCommands].
  - rewrite erase_older_filter by exact Hs.
    split; [apply filter_sorted; exact Hs | apply Forall_List_filter; exact Hk].
  - rewrite erase_older_filter by exact Hs.
    rewrite (map_snd_filter_key (fun k => negb (k <? tick))) by exact Hk.
    apply Permutation_List_filter. exact Hperm.
  - intros tick'. rewrite erase_older_filter by exact Hs.
    unfold with_key. rewrite filter_swap.
    rewrite (map_snd_filter_key (fun k => negb (k <? tick))).
    + fold (with_key tick' (commandQueue b)). rewrite Htick.
      apply filter_swap.
    + apply Forall_List_filter. exact Hk.
  - intros u. unfold GetPlayerCommands. cbn [playerCommands].
    rewrite (lookup_nonempty_fmap
               (List.filter (fun cmd => negb (PlayerCommand.gameTick cmd <? tick))))
      by reflexivity.
    fold (GetPlayerCommands b u). rewrite Hplayer. apply filter_swap.
  - intros u E. apply map_lookup_filter_Some in E. destruct E as [_ E]. apply E. reflexivity.
Qed.

Lemma holds_clear b : holds (Clear b) [].
Proof.
  repeat split; cbn; try constructor.
  intros u. rewrite lookup_empty. discriminate.
Qed.

Lemma holds_step b live op :
  holds b live ->
  holds (buffer_step b op) (snd (live_step (maxBufferSize b, live) op)) /\
  maxBufferSize (buffer_step b op) = fst (live_step (maxBufferSize b, live) op).
Proof.
  intros H. destruct op as [c | tick | | n].
  - destruct (holds_add b live c H) as (H' & _ & Hm).
    split; [exact H' |]. cbn [buffer_step]. rewrite Hm. cbn [live_step fst snd].
    destruct (_ && _); reflexivity.
  - split; [apply holds_prune; exact H | reflexivity].
  - split; [apply holds_clear | reflexivity].
  - split; [| reflexivity]. exact H.
Qed.

Lemma holds_run ops : forall b live,
  holds b live ->
  holds (buffer_run b ops) (snd (live_run (maxBufferSize b, live) ops)) /\
  maxBufferSize (buffer_run b ops) = fst (live_run (maxBufferSize b, live) ops).
Proof.
  induction ops as [| op ops IH]; intros b live H; cbn [buffer_run live_run fold_left].
  - split; [exact H | reflexivity].
  - destruct (holds_step b live op H) as [H' Hm].
    destruct (IH _ _ H') as [IH1 IH2]. unfold buffer_run, live_run in *.
    rewrite Hm in IH1, IH2. rewrite <- surjective_pairing in IH1, IH2.
    split; assumption.
Qed.

End CommandBufferOperations.

Section CommandBufferBehaviour.

Import CommandBuffer.

Lemma holds_from_init ops :
  holds (buffer_run init ops) (snd (live_run (maxBufferSize init, []) ops)) /\
  maxBufferSize (buffer_run init ops) = fst (live_run (maxBufferSize init, []) ops).
Proof.
  apply (holds_run ops init []). exact (holds_empty 10000).
Qed.

Lemma holds_count b live :
  holds b live -> GetCommandCount b = Z.of_nat (length live).
Proof.
  intros (_ & Hperm & _). unfold GetCommandCount. f_equal.
  rewrite <- (length_map snd). apply Permutation_length. exact Hperm.
Qed.

Lemma holds_for_tick b live tick :
  holds b live -> GetCommandsForTick b tick = List.filter (for_tick tick) live.
Proof.
  intros (Hq & _ & Htick & _). unfold GetCommandsForTick.
  rewrite equal_range_with_key by apply Hq. apply Htick.
Qed.

(** The buffer is a list of live commands.  After any sequence of
    [AddCommand], [PruneOlderThan], [Clear] and [SetMaxBufferSize] calls on
    a new buffer, with [live] the commands accepted and neither pruned nor
    cleared since, in the order of acceptance: [GetCommandsForTick] returns
    the live commands of the tick and [GetPlayerCommands] the live commands
    of the player, both in that order, [GetCommandCount] is their number,
    and the next [AddCommand] accepts a command exactly when it is well
    formed, the count is below the cap in force and no live command has its
    player, tick and sequence number. *)
Theorem buffer_holds_live_commands (ops : list BufferOp) :
  let b := buffer_run init ops in
  let cap := fst (live_run (maxBufferSize init, []) ops) in
  let live := snd (live_run (maxBufferSize init, []) ops) in
  (forall tick, GetCommandsForTick b tick = List.filter (for_tick tick) live) /\
  (forall u, GetPlayerCommands b u = List.filter (of_player u) live) /\
  GetCommandCount b = Z.of_nat (length live) /\
  (forall c, fst (AddCommand b c)
             = PlayerCommand.IsValid c && (Z.of_nat (length live) <? cap)
               && negb (known live c)).
Proof.
  cbv zeta. destruct (holds_from_init ops) as [H Hcap].
  split; [| split; [| split]].
  - intros tick. apply holds_for_tick. exact H.
  - apply H.
  - apply holds_count. exact H.
  - intros c. destruct (holds_add _ _ c H) as (_ & Hfst & _).
    rewrite Hfst, Hcap. reflexivity.
Qed.

Definition is_resize (op : BufferOp) : bool :=
  match op with OpSetMax _ => true | _ => false end.

Lemma live_run_bound (bound : Z) (ops : list BufferOp) : forall s,
  existsb is_resize ops = false ->
  fst s <= bound ->
  Z.of_nat (length (snd s)) <= bound ->
  fst (live_run s ops) = fst s /\
  Z.of_nat (length (snd (live_run s ops))) <= bound.
Proof.
  induction ops as [| op ops IH]; intros s Hno Hcap Hlen; cbn [live_run fold_left].
  - split; [reflexivity | exact Hlen].
  - cbn [existsb] in Hno. apply orb_false_iff in Hno. destruct Hno as [Hop Hno].
    assert (Hstep : fst (live_step s op) = fst s /\
                    Z.of_nat (length (snd (live_step s op))) <= bound).
    { destruct op as [c | tick | | n]; cbn [live_step fst snd is_resize] in *.
      - destruct (PlayerCommand.IsValid c); cbn [andb]; [| split; [reflexivity | lia]].
        destruct (Z.ltb_spec (Z.of_nat (length (snd s))) (fst s)); cbn [andb];
          [| split; [reflexivity | lia]].
        destruct (negb (known (snd s) c)); cbn [fst snd]; [| split; [reflexivity | lia]].
        split; [reflexivity |]. rewrite length_app. cbn. lia.
      - split; [reflexivity |].
        pose proof (List.filter_length_le (not_older tick) (snd s)). lia.
      - split; [reflexivity |]. cbn. lia.
      - discriminate. }
    destruct Hstep as [Hf Hl]. fold (live_run (live_step s op) ops).
    destruct (IH (live_step s op) Hno) as [IH1 IH2]; [rewrite Hf; exact Hcap | exact Hl |].
    rewrite IH1, Hf. split; [reflexivity | exact IH2].
Qed.

(** The cap.  [SetMaxBufferSize] does not trim.  After the cap is set to
    [cap] on a buffer that holds [n] commands, reached by any calls, and as
    long as the cap is not changed again, the buffer never holds more than
    [cap] or [n] commands, whichever is larger, whatever is added, pruned
    or cleared; a cap that is set while the buffer holds no more than
    [cap] commands is never exceeded; and while the buffer holds [cap]
    commands or more every [AddCommand] is rejected. *)
Theorem buffer_never_exceeds_cap (before : list BufferOp) (cap : Z)
  (ops : list BufferOp) :
  existsb is_resize ops = false ->
  let b0 := buffer_run init before in
  let b := buffer_run (SetMaxBufferSize cap b0) ops in
  GetCommandCount b <= Z.max cap (GetCommandCount b0) /\
  (GetCommandCount b0 <= cap -> GetCommandCount b <= cap) /\
  (forall c, cap <= GetCommandCount b -> fst (AddCommand b c) = false).
Proof.
  intros Hno b0 b.
  destruct (holds_from_init before) as [H0 _]. fold b0 in H0.
  set (live0 := snd (live_run (maxBufferSize init, []) before)) in *.
  assert (H1 : holds (SetMaxBufferSize cap b0) live0).
  { destruct (holds_step b0 live0 (OpSetMax cap) H0) as [H1 _]. exact H1. }
  destruct (holds_run ops _ _ H1) as [Hb Hcap]. fold b in Hb, Hcap.
  cbn [SetMaxBufferSize maxBufferSize] in Hb, Hcap.
  rewrite (holds_count _ _ Hb), (holds_count _ _ H0).
  split; [| split].
  - apply (live_run_bound (Z.max cap (Z.of_nat (length live0))) ops (cap, live0));
      [exact Hno | cbn; lia | cbn; lia].
  - intros Hn. apply (live_run_bound cap ops (cap, live0));
      [exact Hno | cbn; lia | exact Hn].
  - intros c Hfull. destruct (holds_add _ _ c Hb) as (_ & Hfst & _).
    rewrite Hfst, Hcap.
    destruct (live_run_bound (Z.max cap (Z.of_nat (length live0))) ops (cap, live0))
      as [Hfix _]; [exact Hno | cbn; lia | cbn; lia |].
    rewrite Hfix. cbn [fst].
    destruct (Z.ltb_spec (Z.of_nat (length (snd (live_run (cap, live0) ops)))) cap);
      [lia |].
    rewrite andb_false_r. reflexivity.
Qed.


(** Two commands are in the buffer when the cap is set to 1: they stay,
    and a third command is rejected. *)
Lemma buffer_never_exceeds_cap_witness :
  let before := [OpAdd (seq_command "p1" 100 1); OpAdd (seq_command "p1" 100 2)] in
  let b := buffer_run (CommandBuffer.SetMaxBufferSize 1 (buffer_run CommandBuffer.init before))
             [OpAdd (seq_command "p1" 100 3)] in
  CommandBuffer.GetCommandCount b = 2 /\
  CommandBuffer.GetCommandCount b
  <= Z.max 1 (CommandBuffer.GetCommandCount (buffer_run CommandBuffer.init before)) /\
  fst (CommandBuffer.AddCommand b (seq_command "p1" 100 4)) = false.
Proof.
  intros before b.
  destruct (buffer_never_exceeds_cap before 1 [OpAdd (seq_command "p1" 100 3)])
    as (H1 & _ & H3); [reflexivity |].
  split; [reflexivity |]. split; [exact H1 |].
  apply H3. vm_compute. discriminate.
Defined.

(** An operation that leaves the command [c] in the buffer: no [Clear], no
    [PruneOlderThan] beyond the tick of [c]. *)
Definition keeps (c : PlayerCommand.t) (op : BufferOp) : bool :=
  match op with
  | OpPrune tick => tick <=? PlayerCommand.gameTick c
  | OpClear => false
  | _ => true
  end.

Lemma live_run_keeps c ops : forall s,
  In c (snd s) -> forallb (keeps c) ops = true -> In c (snd (live_run s ops)).
Proof.
  induction ops as [| op ops IH]; intros s Hin Hk; cbn [live_run fold_left];
    [exact Hin |].
  cbn [forallb] in Hk. apply andb_true_iff in Hk. destruct Hk as [Hop Hk].
  apply IH; [| exact Hk].
  destruct op as [c0 | tick | | n]; cbn [live_step keeps] in *.
  - destruct (_ && _); cbn [snd]; [apply in_or_app; left |]; exact Hin.
  - cbn [snd]. apply List.filter_In. split; [exact Hin |].
    unfold not_older. destruct (Z.ltb_spec (PlayerCommand.gameTick c) tick); [lia | reflexivity].
  - discriminate.
  - exact Hin.
Qed.

Lemma AddCommand_rejected b c :
  fst (AddCommand b c) = false -> AddCommand b c = (false, b).
Proof.
  unfold AddCommand.
  destruct (negb (PlayerCommand.IsValid c)); [reflexivity |].
  destruct (maxBufferSize b <=? _); [reflexivity |].
  destruct (IsDuplicate b c); [reflexivity | discriminate].
Qed.

Lemma buffer_run_app b ops ops' :
  buffer_run b (ops ++ ops') = buffer_run (buffer_run b ops) ops'.
Proof. apply fold_left_app. Qed.

Lemma live_run_app s ops ops' :
  live_run s (ops ++ ops') = live_run (live_run s ops) ops'.
Proof. apply fold_left_app. Qed.

(** No duplicates.  Once [AddCommand] has accepted a command, and as long
    as the buffer was not cleared nor pruned beyond the command's tick,
    every command with the same player, tick and sequence number is
    rejected, and the rejection leaves the buffer as it was. *)
Theorem resent_command_is_rejected (ops ops' : list BufferOp)
  (c c' : PlayerCommand.t) :
  fst (AddCommand (buffer_run init ops) c) = true ->
  forallb (keeps c) ops' = true ->
  PlayerCommand.eqb c c' = true ->
  let b := buffer_run init (ops ++ OpAdd c :: ops') in
  AddCommand b c' = (false, b).
Proof.
  intros Hacc Hkeep Heq b. apply AddCommand_rejected.
  destruct (holds_from_init (ops ++ OpAdd c :: ops')) as [H _]. fold b in H.
  destruct (holds_add b _ c' H) as (_ & Hfst & _). rewrite Hfst.
  assert (Hin : In c (snd (live_run (maxBufferSize init, []) (ops ++ OpAdd c :: ops')))).
  { rewrite live_run_app.
    change (live_run (live_run (maxBufferSize init, []) ops) (OpAdd c :: ops'))
      with (live_run (live_step (live_run (maxBufferSize init, []) ops) (OpAdd c)) ops').
    apply (live_run_keeps c ops'); [| exact Hkeep].
    destruct (holds_from_init ops) as [H0 Hcap].
    destruct (holds_add _ _ c H0) as (_ & Hfst0 & _).
    rewrite Hacc, Hcap in Hfst0.
    cbn [live_step]. rewrite <- Hfst0. cbn [snd]. apply in_or_app. right. left. reflexivity. }
  assert (Hknown : known (snd (live_run (maxBufferSize init, []) (ops ++ OpAdd c :: ops'))) c' = true).
  { unfold known. apply existsb_exists. exists c. split; assumption. }
  rewrite Hknown. cbn. apply andb_false_r.
Qed.

Lemma resent_command_is_rejected_witness :
  fst (AddCommand
         (buffer_run init
            ([] ++ [OpAdd (seq_command "p1" 100 1); OpAdd (seq_command "p2" 100 1);
                    OpPrune 90]))
         (PlayerCommand.mk "p1" 100 7 (mkPoint 1 1) true 1)) = false.
Proof.
  rewrite (resent_command_is_rejected [] [OpAdd (seq_command "p2" 100 1); OpPrune 90]
             (seq_command "p1" 100 1) (PlayerCommand.mk "p1" 100 7 (mkPoint 1 1) true 1)).
  - reflexivity.
  - reflexivity.
  - reflexivity.
  - reflexivity.
Defined.

Lemma filter_for_tick_not_older tick tick' live :
  List.filter (for_tick tick') (List.filter (not_older tick) live)
  = if tick' <? tick then [] else List.filter (for_tick tick') live.
Proof.
  rewrite filter_filter_and.
  destruct (Z.ltb_spec tick' tick) as [Hlt | Hge].
  - apply filter_none. intros c _. unfold not_older, for_tick.
    destruct (Z.ltb_spec (PlayerCommand.gameTick c) tick); [reflexivity |].
    destruct (Z.eqb_spec (PlayerCommand.gameTick c) tick'); [lia | reflexivity].
  - apply List.filter_ext. intros c. unfold not_older, for_tick.
    destruct (Z.eqb_spec (PlayerCommand.gameTick c) tick') as [-> | Hne].
    + destruct (Z.ltb_spec tick' tick); [lia | reflexivity].
    + apply andb_false_r.
Qed.

Lemma erase_older_head k q e rest :
  erase_older k q = e :: rest -> k <= fst e.
Proof.
  induction q as [| e0 q IH]; cbn; [discriminate |].
  destruct (Z.ltb_spec (fst e0) k); [exact IH |].
  intros [= <- _]. assumption.
Qed.

(** Pruning.  On a buffer reached by any sequence of operations,
    [PruneOlderThan t] empties the ticks below [t] and leaves the commands
    of every tick from [t] on as they were, in the queue and in the
    per-player lists alike; what remains starts at tick [t] or later, and
    the cap is kept. *)
Theorem prune_removes_older_ticks_only (ops : list BufferOp) (t0 : Z) :
  let b := buffer_run init ops in
  let b' := PruneOlderThan t0 b in
  (forall tick, GetCommandsForTick b' tick
                = if tick <? t0 then [] else GetCommandsForTick b tick) /\
  (forall u, GetPlayerCommands b' u = List.filter (not_older t0) (GetPlayerCommands b u)) /\
  GetCommandCount b' <= GetCommandCount b /\
  (GetCommandCount b' <> 0 -> t0 <= GetOldestTick b') /\
  maxBufferSize b' = maxBufferSize b.
Proof.
  cbv zeta. destruct (holds_from_init ops) as [H _].
  set (b := buffer_run init ops) in *.
  set (live := snd (live_run (maxBufferSize init, []) ops)) in *.
  pose proof (holds_prune b live t0 H) as H'.
  split; [| split; [| split; [| split]]].
  - intros tick. rewrite (holds_for_tick _ _ tick H'), (holds_for_tick _ _ tick H).
    apply filter_for_tick_not_older.
  - intros u. destruct H' as (_ & _ & _ & Hp' & _). destruct H as (_ & _ & _ & Hp & _).
    rewrite Hp', Hp. apply filter_swap.
  - rewrite (holds_count _ _ H'), (holds_count _ _ H).
    pose proof (List.filter_length_le (not_older t0) live). lia.
  - unfold GetCommandCount, GetOldestTick, PruneOlderThan. cbn [commandQueue].
    destruct (erase_older t0 (commandQueue b)) as [| e rest] eqn:E; [cbn; lia |].
    intros _. eapply erase_older_head. exact E.
  - reflexivity.
Qed.

(** *** The self-check [IsValid] *)

Definition sizes (l : list (string * list PlayerCommand.t)) : list nat :=
  map (fun kv => length (snd kv)) l.

Lemma fold_sizes (l : list (string * list PlayerCommand.t)) :
  foldr (uncurry (fun (_ : string) (cmds : list PlayerCommand.t) total =>
                    add64 total (Z.of_nat (length cmds)))) 0 l
  = wrap64 (Z.of_nat (list_sum (sizes l))).
Proof.
  induction l as [| [u cmds] l IH]; [reflexivity |].
  change (sizes ((u, cmds) :: l)) with (length cmds :: sizes l).
  change (list_sum (length cmds :: sizes l)) with (length cmds + list_sum (sizes l))%nat.
  cbn [foldr uncurry fst snd]. rewrite IH.
  unfold add64. rewrite wrap64_add_l. f_equal. lia.
Qed.

Lemma list_sum_cons (x : nat) (l : list nat) :
  list_sum (x :: l) = (x + list_sum l)%nat.
Proof. reflexivity. Qed.

Lemma count_key_absent (K : list string) (u : string) :
  u ∉ K ->
  list_sum (map (fun k => if bool_decide (u = k) then 1%nat else 0%nat) K) = 0%nat.
Proof.
  induction K as [| k K IH]; intros Hk; [reflexivity |].
  cbn [map]. rewrite list_sum_cons.
  apply not_elem_of_cons in Hk. destruct Hk as [Hne Hk].
  rewrite bool_decide_eq_false_2 by exact Hne. rewrite IH by exact Hk. reflexivity.
Qed.

Lemma count_key (K : list string) (u : string) :
  NoDup K -> u ∈ K ->
  list_sum (map (fun k => if bool_decide (u = k) then 1%nat else 0%nat) K) = 1%nat.
Proof.
  induction 1 as [| k K Hk Hnd IH]; intros Hin; [inversion Hin |].
  cbn [map]. rewrite list_sum_cons. apply elem_of_cons in Hin. case_bool_decide as E.
  - subst k. rewrite count_key_absent by exact Hk. reflexivity.
  - destruct Hin as [-> | Hin]; [congruence |]. rewrite (IH Hin). reflexivity.
Qed.

Lemma list_sum_map_add {A : Type} (f g : A -> nat) (l : list A) :
  list_sum (map (fun x => (f x + g x)%nat) l)
  = (list_sum (map f l) + list_sum (map g l))%nat.
Proof.
  induction l as [| x l IH]; [reflexivity |].
  cbn [map]. rewrite !list_sum_cons, IH. lia.
Qed.

Lemma sum_by_player (K : list string) (live : list PlayerCommand.t) :
  NoDup K ->
  (forall c, In c live -> PlayerCommand.playerUUID c ∈ K) ->
  list_sum (map (fun u => length (List.filter (of_player u) live)) K) = length live.
Proof.
  intros Hnd. induction live as [| c live IH]; intros Hin.
  - cbn [List.filter length]. clear. induction K as [| k K IHK]; [reflexivity |].
    cbn [map]. rewrite list_sum_cons, IHK. reflexivity.
  - cbn [length]. rewrite <- IH by (intros c' Hc'; apply Hin; right; exact Hc').
    change (S ?n) with (1 + n)%nat.
    rewrite <- (count_key K (PlayerCommand.playerUUID c) Hnd)
      by (apply Hin; left; reflexivity).
    rewrite <- list_sum_map_add. f_equal. apply map_ext. intros u.
    cbn [List.filter]. unfold of_player at 1. case_bool_decide; cbn [length]; lia.
Qed.

Lemma holds_sizes b live :
  holds b live -> list_sum (sizes (map_to_list (playerCommands b))) = length live.
Proof.
  intros (_ & _ & _ & Hp & _).
  rewrite <- (sum_by_player ((map_to_list (playerCommands b)).*1) live).
  - unfold sizes. rewrite map_map.
    f_equal. apply map_ext_in. intros [u cmds] Hin. cbn [fst snd].
    apply list_elem_of_In, elem_of_map_to_list in Hin.
    rewrite <- Hp. unfold GetPlayerCommands. rewrite Hin. reflexivity.
  - apply NoDup_fst_map_to_list.
  - intros c Hc.
    assert (Hin : In c (GetPlayerCommands b (PlayerCommand.playerUUID c))).
    { rewrite Hp. apply List.filter_In. split; [exact Hc |].
      unfold of_player. apply bool_decide_eq_true_2. reflexivity. }
    unfold GetPlayerCommands in Hin.
    destruct (playerCommands b !! PlayerCommand.playerUUID c) as [l |] eqn:El;
      [| destruct Hin].
    apply list_elem_of_fmap. exists (PlayerCommand.playerUUID c, l).
    split; [reflexivity |]. apply elem_of_map_to_list. exact El.
Qed.

Lemma live_run_length ops : forall s,
  (length (snd (live_run s ops)) <= length (snd s) + length ops)%nat.
Proof.
  induction ops as [| op ops IH]; intros s; cbn [live_run fold_left length]; [lia |].
  fold (live_run (live_step s op) ops). specialize (IH (live_step s op)).
  assert (length (snd (live_step s op)) <= S (length (snd s)))%nat; [| lia].
  destruct op as [c | tick | | n]; cbn [live_step snd].
  - destruct (_ && _); cbn [snd]; [rewrite length_app; cbn |]; lia.
  - pose proof (List.filter_length_le (not_older tick) (snd s)). lia.
  - cbn. lia.
  - lia.
Qed.

(** The buffer's own consistency check.  After any sequence (of fewer than
    2^64 operations) of [AddCommand], [PruneOlderThan], [Clear] and
    [SetMaxBufferSize] calls on a new buffer, [IsValid] holds: the
    per-player lists together have as many commands as the queue; and no
    player is left with an empty list. *)
Theorem buffer_stays_consistent (ops : list BufferOp) :
  Z.of_nat (length ops) < 2 ^ 64 ->
  IsValid (buffer_run init ops) = true /\
  (forall u, playerCommands (buffer_run init ops) !! u <> Some []).
Proof.
  intros Hops. destruct (holds_from_init ops) as [H _].
  split; [| apply H].
  unfold IsValid. rewrite map_fold_foldr, fold_sizes, (holds_sizes _ _ H).
  pose proof (holds_count _ _ H) as Hc. unfold GetCommandCount in Hc. rewrite Hc.
  pose proof (live_run_length ops (maxBufferSize init, [])) as Hl. cbn [snd length] in Hl.
  rewrite wrap64_small by (unfold is_u64; lia). apply Z.eqb_refl.
Qed.

Lemma buffer_stays_consistent_witness :
  IsValid (buffer_run init
             [OpAdd (seq_command "p1" 100 1); OpAdd (seq_command "p2" 101 1);
              OpPrune 101; OpAdd (seq_command "p1" 100 1)]) = true.
Proof.
  apply (buffer_stays_consistent
           [OpAdd (seq_command "p1" 100 1); OpAdd (seq_command "p2" 101 1);
            OpPrune 101; OpAdd (seq_command "p1" 100 1)]).
  cbn. lia.
Defined.

(** *** Queries over a range of ticks *)

Lemma up_to_filter k q :
  key_sorted q -> up_to k q = map snd (List.filter (fun e => fst e <=? k) q).
Proof.
  induction q as [| e q IH]; cbn; intros Hs; [reflexivity |].
  destruct Hs as [Hall Hs].
  destruct (Z.leb_spec (fst e) k) as [Hle | Hgt]; cbn.
  - f_equal. apply IH. exact Hs.
  - clear IH Hs. induction Hall as [| e' q' He' _ IH']; cbn; [reflexivity |].
    destruct (Z.leb_spec (fst e') k); [lia | exact IH'].
Qed.

Lemma key_sorted_ticks q :
  queue_ok q -> StronglySorted Z.le (map PlayerCommand.gameTick (map snd q)).
Proof.
  intros [Hs Hk]. induction q as [| e q IH]; cbn [map]; [constructor |].
  destruct Hs as [Hall Hs].
  pose proof (Forall_inv Hk) as He. pose proof (Forall_inv_tail Hk) as Hk'.
  constructor; [apply IH; assumption |].
  rewrite <- He. clear IH Hs Hk He.
  induction Hall as [| e' q' He' _ IH']; cbn [map]; [constructor |].
  pose proof (Forall_inv Hk') as He''. pose proof (Forall_inv_tail Hk') as Hk''.
  constructor; [rewrite <- He''; exact He' | apply IH'; exact Hk''].
Qed.

Lemma key_sorted_last e q :
  key_sorted (e :: q) -> Forall (fun e' => fst e' <= fst (List.last q e)) (e :: q).
Proof.
  revert e. induction q as [| e' q IH]; intros e Hs.
  - constructor; [cbn; lia | constructor].
  - destruct Hs as [Hall Hs]. specialize (IH e' Hs).
    change (List.last (e' :: q) e) with (match q with [] => e' | _ => List.last q e end).
    assert (El : match q with [] => e' | _ => List.last q e end = List.last q e').
    { destruct q as [| e'' q]; [reflexivity |]. clear. revert e''.
      induction q as [| x q IHq]; intros e''; [reflexivity |]. apply (IHq x). }
    rewrite El. constructor; [| exact IH].
    apply Forall_inv in Hall. apply Forall_inv in IH. lia.
Qed.

Definition up_to_tick (tick : Z) (c : PlayerCommand.t) : bool :=
  PlayerCommand.gameTick c <=? tick.

(** The range queries.  On a buffer reached by any sequence of operations:
    [GetCommandsUpToTick t] returns the live commands of the ticks up to
    [t], by ascending tick and within one tick in the order of acceptance;
    every live command has its tick between [GetOldestTick] and
    [GetNewestTick]; [HasCommandsForTick] answers whether
    [GetCommandsForTick] is non-empty. *)
Theorem buffer_range_queries (ops : list BufferOp) (t0 : Z) :
  let b := buffer_run init ops in
  let live := snd (live_run (maxBufferSize init, []) ops) in
  Permutation (GetCommandsUpToTick b t0) (List.filter (up_to_tick t0) live) /\
  StronglySorted Z.le (map PlayerCommand.gameTick (GetCommandsUpToTick b t0)) /\
  (forall tick, List.filter (for_tick tick) (GetCommandsUpToTick b t0)
                = if tick <=? t0 then GetCommandsForTick b tick else []) /\
  Forall (fun c => GetOldestTick b <= PlayerCommand.gameTick c <= GetNewestTick b) live /\
  (forall tick, HasCommandsForTick b tick = negb (bool_decide (GetCommandsForTick b tick = []))).
Proof.
  cbv zeta. destruct (holds_from_init ops) as [H _].
  set (b := buffer_run init ops) in *.
  set (live := snd (live_run (maxBufferSize init, []) ops)) in *.
  pose proof H as ([Hs Hk] & Hperm & Htick & _).
  unfold GetCommandsUpToTick. rewrite up_to_filter by exact Hs.
  split; [| split; [| split; [| split]]].
  - rewrite (map_snd_filter_key (fun k => k <=? t0)) by exact Hk.
    apply Permutation_List_filter. exact Hperm.
  - apply key_sorted_ticks. split; [apply filter_sorted; exact Hs |].
    apply Forall_List_filter. exact Hk.
  - intros tick. rewrite (holds_for_tick _ _ tick H), <- Htick.
    rewrite (map_snd_filter_key (fun k => k <=? t0)) by exact Hk.
    rewrite filter_swap.
    change (for_tick tick) with (fun c => (fun k => k =? tick) (PlayerCommand.gameTick c)).
    rewrite <- (map_snd_filter_key (fun k => k =? tick)) by exact Hk.
    fold (with_key tick (commandQueue b)).
    rewrite <- (map_snd_filter_key (fun k => k <=? t0))
      by (apply Forall_List_filter; exact Hk).
    destruct (Z.leb_spec tick t0) as [Hle | Hgt].
    + f_equal. unfold with_key. rewrite filter_filter_and.
      apply List.filter_ext. intros e.
      destruct (Z.eqb_spec (fst e) tick) as [-> | Hne]; [| reflexivity].
      destruct (Z.leb_spec tick t0); [reflexivity | lia].
    + rewrite filter_none; [reflexivity |]. intros e He.
      apply List.filter_In in He. destruct He as [_ He]. apply Z.eqb_eq in He.
      destruct (Z.leb_spec (fst e) t0); [lia | reflexivity].
  - unfold GetOldestTick, GetNewestTick.
    destruct (commandQueue b) as [| e q] eqn:Eq.
    + apply Permutation_nil in Hperm. rewrite Hperm. constructor.
    + pose proof (key_sorted_last e q Hs) as Hlast.
      assert (Hfirst : Forall (fun e' => fst e <= fst e') (e :: q)).
      { constructor; [lia | apply Hs]. }
      assert (Hq : Forall (fun c => fst e <= PlayerCommand.gameTick c <= fst (List.last q e))
                          (map snd (e :: q))).
      { apply List.Forall_map. rewrite List.Forall_forall in *.
        intros x Hx. rewrite <- (Hk x Hx). split; [apply Hfirst | apply Hlast]; exact Hx. }
      rewrite List.Forall_forall in *. intros c Hc. apply Hq.
      eapply Permutation_in; [symmetry; exact Hperm | exact Hc].
  - intros tick. unfold HasCommandsForTick, GetCommandsForTick.
    rewrite equal_range_with_key by exact Hs. unfold with_key.
    clear. generalize (commandQueue b). intros q.
    induction q as [| e q IH]; cbn; [reflexivity |].
    destruct (fst e =? tick); cbn; [reflexivity | exact IH].
Qed.

End CommandBufferBehaviour.

(** ** The predictor's window and its error counter *)

Section PredictorWindow.

Context {W : World}.

Import Predictor.

Definition record_all (p : t) (cmds : list PlayerCommand.t) : t :=
  fold_left (fun p c => RecordCommand c p) cmds p.

Lemma RecordCommand_lastn (N : nat) (c : PlayerCommand.t) (p : t) :
  maxUnconfirmedCommands p = Z.of_nat N ->
  (length (unconfirmedCommands p) <= N)%nat ->
  unconfirmedCommands (RecordCommand c p) = lastn N (unconfirmedCommands p ++ [c]).
Proof.
  intros HN Hlen. unfold RecordCommand. cbn [unconfirmedCommands]. rewrite HN.
  unfold lastn. rewrite length_app. cbn [length].
  destruct (Z.ltb_spec (Z.of_nat N) (Z.of_nat (length (unconfirmedCommands p) + 1))).
  - replace (length (unconfirmedCommands p) + 1 - N)%nat with 1%nat by lia.
    reflexivity.
  - replace (length (unconfirmedCommands p) + 1 - N)%nat with 0%nat by lia.
    reflexivity.
Qed.

Lemma record_all_lastn (N : nat) (cmds : list PlayerCommand.t) :
  forall (p : t) (hist : list PlayerCommand.t),
  maxUnconfirmedCommands p = Z.of_nat N ->
  unconfirmedCommands p = lastn N hist ->
  unconfirmedCommands (record_all p cmds) = lastn N (hist ++ cmds) /\
  maxUnconfirmedCommands (record_all p cmds) = Z.of_nat N /\
  lastConfirmedTick (record_all p cmds) = lastConfirmedTick p /\
  predictionErrors (record_all p cmds) = predictionErrors p.
Proof.
  induction cmds as [| c cmds IH]; intros p hist HN Hp; cbn [record_all fold_left].
  - rewrite app_nil_r. repeat split; assumption.
  - fold (record_all (RecordCommand c p) cmds).
    destruct (IH (RecordCommand c p) (hist ++ [c])) as (H1 & H2 & H3 & H4).
    + exact HN.
    + rewrite (RecordCommand_lastn N) by
        (try exact HN; rewrite Hp, lastn_length; lia).
      rewrite Hp. apply lastn_app_lastn.
    + rewrite <- app_assoc in H1. repeat split; assumption.
Qed.

(** The window of unconfirmed commands.  A predictor whose bound is [N]
    holds, after any sequence of [RecordCommand] calls, the last [N]
    commands recorded (all of them while they are no more than [N]), in
    the order in which they were recorded; recording changes neither the
    confirmed tick nor the error counter. *)
Theorem predictor_keeps_last_commands (N : nat) (cmds : list PlayerCommand.t) :
  let p := record_all (SetMaxUnconfirmedCommands (Z.of_nat N) init) cmds in
  unconfirmedCommands p = lastn N cmds /\
  GetUnconfirmedCommandCount p = Z.of_nat (Nat.min N (length cmds)) /\
  lastConfirmedTick p = 0 /\
  predictionErrors p = 0.
Proof.
  cbv zeta.
  destruct (record_all_lastn N cmds (SetMaxUnconfirmedCommands (Z.of_nat N) init) [])
    as (H1 & _ & H3 & H4); [reflexivity | reflexivity |].
  cbn [app] in H1. unfold GetUnconfirmedCommandCount.
  rewrite H1, lastn_length. repeat split; assumption.
Qed.

Lemma resimulate_gameTick (cmds : list PlayerCommand.t) : forall g : GameState.t,
  is_u64 (GameState.gameTick g) ->
  GameState.gameTick (resimulate g cmds)
  = wrap64 (GameState.gameTick g + Z.of_nat (length cmds)).
Proof.
  induction cmds as [| c cmds IH]; intros g Hg; cbn [resimulate length].
  - rewrite Z.add_0_r. symmetry. apply wrap64_small. exact Hg.
  - rewrite IH by (rewrite Step_gameTick; apply wrap64_range).
    rewrite Step_gameTick. unfold ApplyCommand, incr64.
    rewrite wrap64_add_l. f_equal. lia.
Qed.

(** The error counter counts replays.  [ReconcileWithServer] compares only
    the ticks of the re-simulated world and of the server world, and every
    replayed command advances the tick: so the counter of prediction
    errors goes up by one whenever at least one command is left to replay
    (fewer than 2^64 of them), whatever the worlds hold, and stays as it
    is when none is left. *)
Theorem reconcile_counts_every_replay (p : t) (server : GameState.t) (T : Z) :
  is_u64 (GameState.gameTick server) ->
  Z.of_nat (length (unconfirmedCommands p)) < 2 ^ 64 ->
  let r := ReconcileWithServer p server T in
  predictionErrors (snd r)
  = (if IsPredicting (snd r) then incr64 (predictionErrors p) else predictionErrors p) /\
  IsPredicting (snd r)
  = existsb (fun cmd => T <? PlayerCommand.gameTick cmd) (unconfirmedCommands p) /\
  maxUnconfirmedCommands (snd r) = maxUnconfirmedCommands p.
Proof.
  intros Hsrv Hlen. cbv zeta.
  assert (E : remove_if (fun cmd => PlayerCommand.gameTick cmd <=? T)
                (unconfirmedCommands p) =
              List.filter (fun cmd => T <? PlayerCommand.gameTick cmd)
                (unconfirmedCommands p)).
  { rewrite remove_if_filter. apply List.filter_ext. intros c.
    destruct (Z.leb_spec (PlayerCommand.gameTick c) T),
             (Z.ltb_spec T (PlayerCommand.gameTick c)); cbn; try reflexivity; lia. }
  assert (Hex : forall l : list PlayerCommand.t,
            match List.filter (fun cmd => T <? PlayerCommand.gameTick cmd) l with
            | [] => false | _ => true end
            = existsb (fun cmd => T <? PlayerCommand.gameTick cmd) l).
  { induction l as [| c l IH]; cbn; [reflexivity |].
    destruct (T <? PlayerCommand.gameTick c); cbn; [reflexivity | exact IH]. }
  pose proof (List.filter_length_le (fun cmd => T <? PlayerCommand.gameTick cmd)
                (unconfirmedCommands p)) as Hfl.
  unfold ReconcileWithServer, IsPredicting. rewrite E, <- Hex.
  destruct (List.filter _ _) as [| c rest] eqn:Hf.
  - cbn. repeat split.
  - unfold PredictionMatches.
    rewrite resimulate_gameTick by exact Hsrv.
    change (GameState.gameTick (GameState.copy server)) with (GameState.gameTick server).
    destruct (Z.eqb_spec (wrap64 (GameState.gameTick server + Z.of_nat (length (c :: rest))))
                         (GameState.gameTick server)) as [Heq | Hne].
    + exfalso. unfold wrap64, is_u64 in *. cbn [length] in *.
      assert (Hm : (GameState.gameTick server + Z.of_nat (S (length rest))) mod 2 ^ 64
                   = GameState.gameTick server mod 2 ^ 64).
      { rewrite Heq. symmetry. apply Z.mod_small. exact Hsrv. }
      apply Z.cong_iff_ex in Hm. destruct Hm as [k Hk]. nia.
    + cbn. repeat split.
Qed.

End PredictorWindow.

Lemma reconcile_counts_every_replay_witness :
  Predictor.predictionErrors
    (snd (Predictor.ReconcileWithServer (W := bare_world) (three_recorded "p1")
            (GameState.SetGameTick 100 GameState.init) 100)) = 1.
Proof.
  destruct (reconcile_counts_every_replay (W := bare_world) (three_recorded "p1")
              (GameState.SetGameTick 100 GameState.init) 100) as (H & _).
  - unfold is_u64. cbn. lia.
  - vm_compute. reflexivity.
  - rewrite H. reflexivity.
Defined.

(** ** The world state: copies and steps *)

Section WorldOperations.

Context {W : World}.

Import GameState.

(** The calls that build a world, except the removals (which compare
    references) and [Step]. *)
Inductive WorldOp : Type :=
| WSetSystem (system : option System)
| WAddShip (ship : option Ship)
| WAddProjectile (projectile : Projectile)
| WAddFlotsam (item : option Flotsam)
| WAddVisual (visual : Visual)
| WSetAsteroids (field : option AsteroidField)
| WSetGameTick (tick : Z)
| WClear.

Definition world_step (g : t) (op : WorldOp) : t :=
  match op with
  | WSetSystem system => SetSystem system g
  | WAddShip ship => AddShip ship g
  | WAddProjectile projectile => AddProjectile projectile g
  | WAddFlotsam item => AddFlotsam item g
  | WAddVisual visual => AddVisual visual g
  | WSetAsteroids field => SetAsteroids field g
  | WSetGameTick tick => SetGameTick tick g
  | WClear => Clear g
  end.

Definition world_run (g : t) (ops : list WorldOp) : t :=
  fold_left world_step ops g.

Definition present {A : Type} (x : option A) : bool :=
  match x with Some _ => true | None => false end.

Definition no_null (g : t) : Prop :=
  forallb present (ships g) = true /\ forallb present (flotsam g) = true.

Lemma filter_present_all {A : Type} (l : list (option A)) :
  forallb present l = true -> List.filter present l = l.
Proof.
  induction l as [| x l IH]; cbn; [reflexivity |].
  intros H. apply andb_true_iff in H. destruct H as [Hx Hl].
  rewrite Hx, IH by exact Hl. reflexivity.
Qed.

Lemma forallb_present_filter {A : Type} (l : list (option A)) :
  forallb present (List.filter present l) = true.
Proof.
  induction l as [| x l IH]; cbn; [reflexivity |].
  destruct (present x) eqn:Hx; cbn; [rewrite Hx |]; exact IH.
Qed.

Lemma world_step_no_null g op : no_null g -> no_null (world_step g op).
Proof.
  intros [Hs Hf].
  destruct op as [system | [ship |] | projectile | [item |] | visual | field | tick |];
    unfold no_null;
    cbn [world_step SetSystem AddShip AddProjectile AddFlotsam AddVisual
         SetAsteroids SetGameTick Clear ships flotsam];
    rewrite ?forallb_app, ?Hs, ?Hf; split; reflexivity.
Qed.

Lemma world_run_no_null ops : forall g, no_null g -> no_null (world_run g ops).
Proof.
  induction ops as [| op ops IH]; intros g H; cbn [world_run fold_left]; [exact H |].
  apply IH, world_step_no_null, H.
Qed.

Lemma copy_no_null g : no_null g -> copy g = g.
Proof.
  intros [Hs Hf]. unfold copy.
  change (fun ship : option Ship => match ship with Some _ => true | None => false end)
    with (@present Ship).
  change (fun item : option Flotsam => match item with Some _ => true | None => false end)
    with (@present Flotsam).
  rewrite !filter_present_all by assumption. destruct g; reflexivity.
Qed.

(** Copies.  A world built from the empty one by [SetSystem], [AddShip],
    [AddProjectile], [AddFlotsam], [AddVisual], [SetAsteroids],
    [SetGameTick] and [Clear] holds no null ship or flotsam (the adders
    ignore null): its copy is equal to it, field by field, and it is
    valid exactly when a system is set.  The copy of any world at all
    holds no null, so copying twice is copying once and a copy is valid
    exactly when the original has a system. *)
Theorem copy_round_trip (ops : list WorldOp) (h : t) :
  let g := world_run init ops in
  copy g = g /\
  IsValid g = present (currentSystem g) /\
  copy (copy h) = copy h /\
  IsValid (copy h) = present (currentSystem h).
Proof.
  cbv zeta.
  assert (Hg : no_null (world_run init ops)).
  { apply world_run_no_null. split; reflexivity. }
  assert (Hh : no_null (copy h)).
  { split; cbn; apply forallb_present_filter. }
  assert (Hvalid : forall g : t, no_null g -> IsValid g = present (currentSystem g)).
  { intros g [Hs Hf]. unfold IsValid. destruct (currentSystem g); [| reflexivity].
    change (forallb present (ships g) && forallb present (flotsam g) = true).
    rewrite Hs, Hf. reflexivity. }
  split; [apply copy_no_null; exact Hg |].
  split; [apply Hvalid; exact Hg |].
  split; [apply copy_no_null; exact Hh |].
  apply (Hvalid (copy h) Hh).
Qed.

Lemma move_ships_present (l : list (option Ship)) : forall vs fs,
  map present (fst (fst (move_ships l vs fs))) = map present l.
Proof.
  induction l as [| [ship |] l IH]; intros vs fs; cbn [move_ships]; [reflexivity | |].
  - destruct (Ship_Move ship vs fs) as [[ship' vs1] fs1].
    specialize (IH vs1 fs1).
    destruct (move_ships l vs1 fs1) as [[rest' vs'] fs']. cbn in *. f_equal. exact IH.
  - specialize (IH vs fs).
    destruct (move_ships l vs fs) as [[rest' vs'] fs']. cbn in *. f_equal. exact IH.
Qed.

(** Steps.  [Step] advances the tick by one (modulo 2^64), keeps the
    system, moves every ship and neither adds nor removes one (a null
    entry stays null), and keeps of the projectiles exactly those that are
    not dead, in their order; an asteroid field stays present or
    absent. *)
Theorem Step_keeps_ships_and_live_projectiles (g : t) :
  gameTick (Step g) = incr64 (gameTick g) /\
  currentSystem (Step g) = currentSystem g /\
  map present (ships (Step g)) = map present (ships g) /\
  GetShipCount (Step g) = GetShipCount g /\
  projectiles (Step g)
  = List.filter (fun p => negb (Projectile_IsDead p)) (projectiles g) /\
  GetProjectileCount (Step g) <= GetProjectileCount g /\
  present (asteroids (Step g)) = present (asteroids g).
Proof.
  pose proof (move_ships_present (ships g) (visuals g) (flotsam g)) as Hp.
  assert (Hlen : length (fst (fst (move_ships (ships g) (visuals g) (flotsam g))))
                 = length (ships g)).
  { rewrite <- (length_map present), Hp. apply length_map. }
  pose proof (List.filter_length_le (fun p => negb (Projectile_IsDead p)) (projectiles g))
    as Hfl.
  unfold GetShipCount, GetProjectileCount, Step.
  destruct (move_ships (ships g) (visuals g) (flotsam g)) as [[ships' vs] fs].
  cbn [fst] in Hp, Hlen.
  destruct (asteroids g) as [field |].
  - destruct (AsteroidField_Step _ _ _ _) as [[field' vs'] fs']. cbn.
    rewrite Hlen. repeat split; try assumption; lia.
  - cbn. rewrite Hlen. repeat split; try assumption; lia.
Qed.

End WorldOperations.

(** ** The snapshot ring: lookups, pruning and sizes *)

Section SnapshotLookups.

Context {W : World}.

Import SnapshotManager.

Definition ticks_ascending (l : list Snapshot) : Prop :=
  StronglySorted Z.le (map gameTick l).

Lemma ticks_ascending_nth (l : list Snapshot) :
  ticks_ascending l ->
  forall i j si sj, (i <= j)%nat ->
    nth_error l i = Some si -> nth_error l j = Some sj -> gameTick si <= gameTick sj.
Proof.
  unfold ticks_ascending. induction l as [| x l IH]; intros Hs i j si sj Hij Hi Hj.
  - destruct i; discriminate.
  - cbn [map] in Hs. apply StronglySorted_inv in Hs. destruct Hs as [Hs Hall].
    destruct i as [| i], j as [| j]; cbn [nth_error] in Hi, Hj.
    + injection Hi as <-. injection Hj as <-. lia.
    + injection Hi as <-. rewrite List.Forall_forall in Hall. apply Hall.
      apply in_map. eapply nth_error_In. exact Hj.
    + lia.
    + apply (IH Hs i j); [lia | assumption | assumption].
Qed.

(** What the halving loop keeps true: everything before [first] is below
    the tick, everything from [first + len] on is not. *)
Definition brackets (l : list Snapshot) (tick : Z) (first len : nat) : Prop :=
  (first + len <= length l)%nat /\
  (forall i s, (i < first)%nat -> nth_error l i = Some s -> gameTick s < tick) /\
  (forall i s, (first + len <= i)%nat -> nth_error l i = Some s -> tick <= gameTick s).

Lemma lower_bound_loop_brackets (l : list Snapshot) (tick : Z) :
  ticks_ascending l ->
  forall fuel first len, (len <= fuel)%nat ->
    brackets l tick first len ->
    brackets l tick (lower_bound_loop fuel l first len tick) 0.
Proof.
  intros Hs. induction fuel as [| fuel IH]; intros first len Hfuel Hb.
  - assert (len = 0)%nat by lia. subst len. exact Hb.
  - cbn [lower_bound_loop]. destruct (Nat.eqb_spec len 0) as [-> | Hpos]; [exact Hb |].
    destruct Hb as (Hlen & Hlo & Hhi).
    assert (Hhalf : (len / 2 < len)%nat) by (apply Nat.div_lt; lia).
    destruct (nth_error l (first + len / 2)) as [snap |] eqn:Em.
    2:{ apply nth_error_None in Em. lia. }
    destruct (Z.ltb_spec (gameTick snap) tick) as [Hlt | Hge].
    + apply IH; [lia |]. split; [lia | split].
      * intros i s Hi Ei.
        pose proof (ticks_ascending_nth l Hs i (first + len / 2) s snap ltac:(lia) Ei Em).
        lia.
      * intros i s Hi Ei. apply (Hhi i s); [lia | exact Ei].
    + apply IH; [lia |]. split; [lia | split].
      * exact Hlo.
      * intros i s Hi Ei.
        pose proof (ticks_ascending_nth l Hs (first + len / 2) i snap s ltac:(lia) Em Ei).
        lia.
Qed.

Lemma find_skip {A : Type} (f : A -> bool) (l : list A) (r : nat) :
  (forall i x, (i < r)%nat -> nth_error l i = Some x -> f x = false) ->
  List.find f l = List.find f (skipn r l).
Proof.
  revert l. induction r as [| r IH]; intros l H; [reflexivity |].
  destruct l as [| x l]; [reflexivity |]. cbn [List.find skipn].
  rewrite (H 0%nat x) by (try lia; reflexivity).
  apply IH. intros i y Hi Ei. apply (H (S i) y); [lia | exact Ei].
Qed.

Lemma find_none {A : Type} (f : A -> bool) (l : list A) :
  (forall i x, nth_error l i = Some x -> f x = false) -> List.find f l = None.
Proof.
  induction l as [| x l IH]; intros H; [reflexivity |]. cbn [List.find].
  rewrite (H 0%nat x) by reflexivity. apply IH. intros i y Ei. apply (H (S i) y). exact Ei.
Qed.

Lemma nth_error_skipn_head {A : Type} (l : list A) (r : nat) (x : A) :
  nth_error l r = Some x -> exists rest, skipn r l = x :: rest.
Proof.
  revert l. induction r as [| r IH]; intros [| y l] E; try discriminate.
  - injection E as ->. exists l. reflexivity.
  - cbn [skipn]. apply IH. exact E.
Qed.

Lemma GetSnapshotAtTick_find (m : t) (tick : Z) :
  ticks_ascending (snapshots m) ->
  GetSnapshotAtTick m tick
  = List.find (fun snap => gameTick snap =? tick) (snapshots m).
Proof.
  intros Hs. unfold GetSnapshotAtTick, lower_bound.
  set (l := snapshots m) in *.
  destruct (lower_bound_loop_brackets l tick Hs (length l) 0 (length l))
    as (_ & Hlo & Hhi); [lia | |].
  { split; [lia | split].
    - intros i s Hi. lia.
    - intros i s Hi Ei.
      assert (i < length l)%nat by (apply nth_error_Some; congruence). lia. }
  set (r := lower_bound_loop (length l) l 0 (length l) tick) in *.
  rewrite (find_skip _ l r).
  2:{ intros i x Hi Ei. specialize (Hlo i x Hi Ei).
      destruct (Z.eqb_spec (gameTick x) tick); [lia | reflexivity]. }
  destruct (nth_error l r) as [snap |] eqn:Er.
  - destruct (nth_error_skipn_head l r snap Er) as [rest Erest]. rewrite Erest.
    cbn [List.find].
    destruct (Z.eqb_spec (gameTick snap) tick) as [Heq | Hne]; [reflexivity |].
    symmetry. apply find_none. intros i x Ei.
    assert (Ex : nth_error l (r + S i) = Some x).
    { rewrite <- nth_error_skipn, Erest. exact Ei. }
    pose proof (ticks_ascending_nth l Hs r (r + S i) snap x ltac:(lia) Er Ex).
    pose proof (Hhi r snap ltac:(lia) Er).
    destruct (Z.eqb_spec (gameTick x) tick); [lia | reflexivity].
  - apply nth_error_None in Er. rewrite skipn_all2 by exact Er. reflexivity.
Qed.


(** Lookup by tick.  On a ring whose ticks never go down, the binary
    search of [GetSnapshotAtTick] returns the first snapshot of that tick,
    and none exactly when the ring has no snapshot of that tick. *)
Theorem GetSnapshotAtTick_finds_the_tick (m : t) (tick : Z) :
  ticks_ascending (snapshots m) ->
  GetSnapshotAtTick m tick
  = List.find (fun snap => gameTick snap =? tick) (snapshots m) /\
  (GetSnapshotAtTick m tick = None <->
   forall snap, In snap (snapshots m) -> gameTick snap <> tick).
Proof.
  intros Hs. rewrite GetSnapshotAtTick_find by exact Hs. split; [reflexivity |].
  split.
  - intros Hnone snap Hin Heq.
    apply (List.find_none _ _ Hnone) in Hin. cbn in Hin.
    apply Z.eqb_neq in Hin. contradiction.
  - intros Hall. destruct (List.find _ _) as [snap |] eqn:Ef; [| reflexivity].
    apply List.find_some in Ef. destruct Ef as [Hin Heq].
    apply Z.eqb_eq in Heq. exfalso. exact (Hall snap Hin Heq).
Qed.

Lemma lastn_snoc {A : Type} (n : nat) (l : list A) (x : A) :
  lastn (S n) (l ++ [x]) = lastn n l ++ [x].
Proof.
  unfold lastn. rewrite length_app. cbn [length].
  replace (length l + 1 - S n)%nat with (length l - n)%nat by lia.
  rewrite skipn_app.
  replace (length l - n - length l)%nat with 0%nat by lia. reflexivity.
Qed.

Lemma prune_front_none (N : Z) (l : list Snapshot) : N < 1 -> prune_front N l = [].
Proof.
  intros HN. induction l as [| x l IH]; [reflexivity |]. cbn [prune_front].
  destruct (Z.ltb_spec N (Z.of_nat (length (x :: l)))) as [_ | Hge]; [exact IH |].
  cbn [length] in Hge. lia.
Qed.

Lemma GetLatestSnapshot_snoc (m : t) (l : list Snapshot) (x : Snapshot) :
  snapshots m = l ++ [x] -> GetLatestSnapshot m = Some x.
Proof.
  unfold GetLatestSnapshot. intros ->. destruct l as [| y l]; [reflexivity |].
  cbn [app]. f_equal. apply (List.last_last l x y).
Qed.

(** Sizes without wrap-around, for worlds of fewer than 2^48 ships,
    projectiles, visuals and flotsam items. *)
Definition modest (g : GameState.t) : Prop :=
  GameState.GetShipCount g < 2 ^ 48 /\
  GameState.GetProjectileCount g < 2 ^ 48 /\
  Z.of_nat (length (GameState.visuals g)) < 2 ^ 48 /\
  Z.of_nat (length (GameState.flotsam g)) < 2 ^ 48.

Lemma EstimateSnapshotSize_exact (g : GameState.t) :
  modest g ->
  EstimateSnapshotSize g
  = 96 + 128 * GameState.GetShipCount g + 32 * GameState.GetProjectileCount g
    + 24 * Z.of_nat (length (GameState.visuals g))
    + 64 * Z.of_nat (length (GameState.flotsam g)).
Proof.
  unfold modest, EstimateSnapshotSize, GameState.GetShipCount, GameState.GetProjectileCount.
  intros (Hs & Hp & Hv & Hf).
  unfold add64, mul64, wrap64.
  change (2 ^ 48) with 281474976710656 in *.
  change (2 ^ 64) with 18446744073709551616.
  repeat match goal with
         | |- context [?a mod ?b] => rewrite (Z.mod_small a b) by lia
         end.
  lia.
Qed.

Lemma CalculateDelta_bound (previous g : GameState.t) :
  modest g ->
  0 <= CalculateDelta previous g /\
  10 * CalculateDelta previous g <= 3 * EstimateSnapshotSize g.
Proof.
  intros Hm. rewrite (EstimateSnapshotSize_exact g Hm).
  unfold modest, CalculateDelta, GameState.GetShipCount, GameState.GetProjectileCount in *.
  destruct Hm as (Hs & Hp & Hv & Hf).
  unfold add64, mul64, wrap64.
  change (2 ^ 48) with 281474976710656 in *.
  change (2 ^ 64) with 18446744073709551616.
  rewrite (Z.mod_small (Z.of_nat (length (GameState.ships g)) * 30)) by lia.
  assert (Hc : 0 <= Z.of_nat (length (GameState.ships g)) * 30 / 100
               <= Z.of_nat (length (GameState.ships g))).
  { split; [apply Z.div_pos; lia |]. apply Z.div_le_upper_bound; lia. }
  set (c := Z.of_nat (length (GameState.ships g)) * 30 / 100) in *.
  repeat match goal with
         | |- context [?a mod ?b] => rewrite (Z.mod_small a b) by lia
         end.
  split; [apply Z.div_pos; lia |].
  match goal with
  | |- context [?x / 10] => pose proof (Z.mul_div_le x 10 ltac:(lia))
  end.
  lia.
Qed.

(** The newest snapshot.  After [CreateSnapshot], on a ring of capacity 1
    or more, [GetLatestSnapshot] is the snapshot just made: the tick and
    the capture time passed in, a copy of the world, the keyframe flag
    forced or due; its recorded size is the full estimate for a keyframe
    and for the first snapshot, and for a world of fewer than 2^48 entities
    of each kind never more than the full estimate.  A ring of capacity 0
    stays empty. *)
Theorem latest_snapshot_is_the_one_created (m : t) (g : GameState.t)
  (tick : Z) (forceKeyframe : bool) (now : Z) :
  let m' := CreateSnapshot m g tick forceKeyframe now in
  (historySize m < 1 -> GetLatestSnapshot m' = None /\ GetSnapshotCount m' = 0) /\
  (1 <= historySize m ->
   exists snap, GetLatestSnapshot m' = Some snap /\
     gameTick snap = tick /\ timestamp snap = now /\
     state snap = Some (GameState.copy g) /\
     isKeyframe snap = forceKeyframe || ShouldCreateKeyframe m /\
     (isKeyframe snap = true \/ snapshots m = [] ->
      compressedSize snap = EstimateSnapshotSize g) /\
     (modest g -> 0 <= compressedSize snap <= EstimateSnapshotSize g)).
Proof.
  cbv zeta. split.
  - intros HN. unfold GetLatestSnapshot, GetSnapshotCount, CreateSnapshot.
    cbn [snapshots]. rewrite prune_front_none by exact HN. split; reflexivity.
  - intros HN. eexists. split.
    + apply (GetLatestSnapshot_snoc _ (lastn (Z.to_nat (historySize m) - 1) (snapshots m))).
      unfold CreateSnapshot. cbn [snapshots].
      rewrite prune_front_lastn by lia.
      replace (Z.to_nat (historySize m)) with (S (Z.to_nat (historySize m) - 1)) at 1 by lia.
      apply lastn_snoc.
    + cbn [gameTick timestamp state isKeyframe compressedSize].
      repeat split.
      * intros [Hk | He].
        -- rewrite Hk. reflexivity.
        -- rewrite He. rewrite andb_false_r. reflexivity.
      * destruct (negb (forceKeyframe || ShouldCreateKeyframe m) && _);
          [| rewrite EstimateSnapshotSize_exact by assumption;
             unfold GameState.GetShipCount, GameState.GetProjectileCount; lia].
        destruct (state _) as [previous |];
          [| rewrite EstimateSnapshotSize_exact by assumption;
             unfold GameState.GetShipCount, GameState.GetProjectileCount; lia].
        apply (CalculateDelta_bound previous g). assumption.
      * destruct (negb (forceKeyframe || ShouldCreateKeyframe m) && _); [| lia].
        destruct (state _) as [previous |]; [| lia].
        pose proof (CalculateDelta_bound previous g ltac:(assumption)). lia.
Qed.

Lemma PruneOlderThan_loop_split (tick : Z) (l : list Snapshot) :
  exists dropped,
    l = dropped ++ PruneOlderThan_loop tick l /\
    Forall (fun snap => gameTick snap < tick) dropped /\
    match PruneOlderThan_loop tick l with
    | snap :: _ => tick <= gameTick snap
    | [] => True
    end.
Proof.
  induction l as [| x l IH]; cbn [PruneOlderThan_loop].
  - exists []. repeat split. constructor.
  - destruct (Z.ltb_spec (gameTick x) tick) as [Hlt | Hge].
    + destruct IH as (dropped & E & Hall & Hhead).
      exists (x :: dropped). split; [cbn; f_equal; exact E |].
      split; [constructor; assumption | exact Hhead].
    + exists []. repeat split; [constructor | exact Hge].
Qed.

Lemma filter_Forall_false {A : Type} (f : A -> bool) (l : list A) :
  Forall (fun x => f x = false) l -> List.filter f l = [].
Proof.
  induction 1 as [| x l Hx _ IH]; cbn; [reflexivity |]. rewrite Hx. exact IH.
Qed.

Lemma filter_Forall_true {A : Type} (f : A -> bool) (l : list A) :
  Forall (fun x => f x = true) l -> List.filter f l = l.
Proof.
  induction 1 as [| x l Hx _ IH]; cbn; [reflexivity |]. rewrite Hx, IH. reflexivity.
Qed.

(** Pruning the ring.  [PruneOlderThan t] drops snapshots from the front
    only, each of them older than [t], and what remains starts at tick [t]
    or later; so [GetSnapshotsSince t'] is not changed for any [t'] with
    [t <= t' + 1].  On a ring whose ticks never go down it keeps exactly
    the snapshots of tick [t] or later, and [GetSnapshotAtTick] still
    finds every tick from [t] on. *)
Theorem PruneOlderThan_keeps_recent_snapshots (m : t) (t0 : Z) :
  let m' := PruneOlderThan t0 m in
  (exists dropped,
     snapshots m = dropped ++ snapshots m' /\
     Forall (fun snap => gameTick snap < t0) dropped) /\
  match snapshots m' with snap :: _ => t0 <= gameTick snap | [] => True end /\
  (forall t', t0 <= t' + 1 -> GetSnapshotsSince m' t' = GetSnapshotsSince m t') /\
  (ticks_ascending (snapshots m) ->
   snapshots m' = List.filter (fun snap => t0 <=? gameTick snap) (snapshots m) /\
   forall t', t0 <= t' -> GetSnapshotAtTick m' t' = GetSnapshotAtTick m t').
Proof.
  cbv zeta. unfold PruneOlderThan at 1 2 3. cbn [snapshots].
  destruct (PruneOlderThan_loop_split t0 (snapshots m)) as (dropped & E & Hall & Hhead).
  split; [exists dropped; split; assumption |].
  split; [exact Hhead |].
  split.
  - intros t' Ht'. unfold GetSnapshotsSince, PruneOlderThan. cbn [snapshots].
    rewrite E at 2. rewrite List.filter_app.
    rewrite (filter_Forall_false _ dropped); [reflexivity |].
    eapply Forall_impl; [exact Hall |]. cbn. intros snap Hsnap.
    destruct (Z.ltb_spec t' (gameTick snap)); [lia | reflexivity].
  - intros Hs.
    assert (Hkept : Forall (fun snap => (t0 <=? gameTick snap) = true)
                      (PruneOlderThan_loop t0 (snapshots m))).
    { destruct (PruneOlderThan_loop t0 (snapshots m)) as [| x rest] eqn:Ep;
        [constructor |].
      unfold ticks_ascending in Hs. rewrite E, map_app in Hs.
      assert (Hs' : StronglySorted Z.le (map gameTick (x :: rest))).
      { clear - Hs. induction dropped as [| d dropped IH]; [exact Hs |].
        cbn [map app] in Hs. apply StronglySorted_inv in Hs. apply IH, Hs. }
      cbn [map] in Hs'. apply StronglySorted_inv in Hs'. destruct Hs' as [_ Hrest].
      constructor; [apply Z.leb_le; exact Hhead |].
      rewrite List.Forall_forall in *. intros snap Hin. apply Z.leb_le.
      specialize (Hrest (gameTick snap) (in_map _ _ _ Hin)). lia. }
    assert (Hfilter : PruneOlderThan_loop t0 (snapshots m)
                      = List.filter (fun snap => t0 <=? gameTick snap) (snapshots m)).
    { rewrite E at 2. rewrite List.filter_app.
      rewrite (filter_Forall_false _ dropped), filter_Forall_true;
        [reflexivity | exact Hkept |].
      eapply Forall_impl; [exact Hall |]. cbn. intros snap Hsnap.
      destruct (Z.leb_spec t0 (gameTick snap)); [lia | reflexivity]. }
    split; [exact Hfilter |].
    intros t' Ht'.
    rewrite (GetSnapshotAtTick_find m t' Hs).
    rewrite (GetSnapshotAtTick_find (PruneOlderThan t0 m) t').
    + unfold PruneOlderThan. cbn [snapshots]. rewrite E at 2.
      generalize (PruneOlderThan_loop t0 (snapshots m)). intros kept.
      clear - Hall Ht'. induction Hall as [| d dropped Hd _ IH]; [reflexivity |].
      cbn [app List.find]. destruct (Z.eqb_spec (gameTick d) t'); [lia | exact IH].
    + unfold PruneOlderThan. cbn [snapshots]. unfold ticks_ascending in *.
      rewrite E, map_app in Hs. clear - Hs.
      induction dropped as [| d dropped IH]; [exact Hs |].
      cbn [map app] in Hs. apply StronglySorted_inv in Hs. apply IH, Hs.
Qed.

End SnapshotLookups.

(** Three snapshots, at the ticks 10, 11 and 12. *)
Definition ring_10_12 : SnapshotManager.t (W := bare_world) :=
  create_all (SnapshotManager.create 120)
    [(GameState.init, 10, 0); (GameState.init, 11, 16); (GameState.init, 12, 33)].

Lemma GetSnapshotAtTick_finds_the_tick_witness :
  SnapshotManager.GetSnapshotAtTick ring_10_12 11
  = List.find (fun snap => SnapshotManager.gameTick snap =? 11)
      (SnapshotManager.snapshots ring_10_12).
Proof.
  apply (GetSnapshotAtTick_finds_the_tick (W := bare_world) ring_10_12 11).
  unfold ticks_ascending.
  change (StronglySorted Z.le [10; 11; 12]).
  repeat (constructor; try lia).
Defined.

(** ** The interpolator: timelines and fallbacks *)

Section InterpolatorTimelines.

Context {F : Facing}.

Import EntityInterpolator.

(** The timeline of an entity: empty when the entity is not known. *)
Definition history_of (it : t) (entityId : EsUuid) : list EntityState :=
  match entityStates it !! entityId with
  | Some history => snapshots history
  | None => []
  end.

(** Snapshots arriving for any entities, in the order of arrival. *)
Definition add_arrivals (it : t) (arrivals : list (EsUuid * EntityState)) : t :=
  fold_left (fun it a => AddSnapshot it (fst a) (snd a)) arrivals it.

Definition arrivals_for (entityId : EsUuid) (arrivals : list (EsUuid * EntityState))
  : list EntityState :=
  map snd (List.filter (fun a => bool_decide (fst a = entityId)) arrivals).

Lemma pop_over_lastn (N : Z) (l : list EntityState) :
  0 <= N -> pop_over N l = lastn (Z.to_nat N) l.
Proof.
  intros HN. unfold lastn. induction l as [| x rest IH]; [reflexivity |].
  cbn [pop_over].
  destruct (Z.ltb_spec N (Z.of_nat (length (x :: rest)))) as [Hlt | Hge].
  - rewrite IH. cbn [length] in *.
    replace (S (length rest) - Z.to_nat N)%nat
      with (S (length rest - Z.to_nat N)) by lia.
    reflexivity.
  - cbn [length] in *.
    replace (S (length rest) - Z.to_nat N)%nat with 0%nat by lia.
    reflexivity.
Qed.

Lemma AddSnapshot_history (it : t) (u u' : EsUuid) (s : EntityState) :
  history_of (AddSnapshot it u s) u'
  = if bool_decide (u = u')
    then pop_over (maxSnapshotHistory it) (history_of it u' ++ [s])
    else history_of it u'.
Proof.
  unfold history_of, AddSnapshot. cbn [entityStates].
  case_bool_decide as Hu.
  - subst u'. rewrite lookup_insert_eq. cbn [snapshots].
    destruct (entityStates it !! u); reflexivity.
  - rewrite lookup_insert_ne by exact Hu. reflexivity.
Qed.

Lemma add_arrivals_history (K : nat) (arrivals : list (EsUuid * EntityState)) :
  forall (it : t) (u : EsUuid) (past : list EntityState),
  maxSnapshotHistory it = Z.of_nat K ->
  history_of it u = lastn K past ->
  history_of (add_arrivals it arrivals) u = lastn K (past ++ arrivals_for u arrivals).
Proof.
  induction arrivals as [| [u0 s] arrivals IH]; intros it u past HK Hpast;
    cbn [add_arrivals fold_left].
  - unfold arrivals_for. cbn. rewrite app_nil_r. exact Hpast.
  - fold (add_arrivals (AddSnapshot it u0 s) arrivals). cbn [fst snd].
    unfold arrivals_for. cbn [List.filter fst].
    case_bool_decide as Hu0.
    + subst u0. cbn [map snd].
      change (past ++ s :: ?l) with (past ++ [s] ++ l). rewrite app_assoc.
      apply IH; [exact HK |].
      rewrite AddSnapshot_history, bool_decide_eq_true_2 by reflexivity.
      rewrite HK, pop_over_lastn by lia. rewrite Nat2Z.id, Hpast.
      apply lastn_app_lastn.
    + apply IH; [exact HK |].
      rewrite AddSnapshot_history, bool_decide_eq_false_2 by exact Hu0. exact Hpast.
Qed.

(** Timelines.  In an interpolator whose history bound is [K], after
    snapshots arrived for any entities in any order, the timeline of each
    entity holds the last [K] snapshots that arrived for it (all of them
    while they are no more than [K]), in the order of arrival; arrivals
    for one entity do not touch the timeline of another. *)
Theorem timeline_holds_latest_arrivals (K : nat)
  (arrivals : list (EsUuid * EntityState)) (u : EsUuid) :
  let it := add_arrivals (SetMaxSnapshotHistory (Z.of_nat K) init) arrivals in
  history_of it u = lastn K (arrivals_for u arrivals) /\
  length (history_of it u) = Nat.min K (length (arrivals_for u arrivals)).
Proof.
  cbv zeta.
  rewrite (add_arrivals_history K arrivals (SetMaxSnapshotHistory (Z.of_nat K) init) u []).
  - cbn [app]. split; [reflexivity | apply lastn_length].
  - reflexivity.
  - unfold history_of. cbn. rewrite lookup_empty. unfold lastn. reflexivity.
Qed.

Lemma find_bracket_none_before (rt : Z) (l : list EntityState) :
  Forall (fun s => timestamp s < rt) l -> find_bracket rt l = None.
Proof.
  induction 1 as [| b rest Hb Hrest IH]; [reflexivity |].
  cbn [find_bracket]. destruct rest as [| a rest']; [reflexivity |].
  apply Forall_inv in Hrest.
  destruct (Z.leb_spec rt (timestamp a)); [lia |].
  rewrite andb_false_r. exact IH.
Qed.

Lemma find_bracket_none_after (rt : Z) (l : list EntityState) :
  Forall (fun s => rt < timestamp s) l -> find_bracket rt l = None.
Proof.
  induction 1 as [| b rest Hb Hrest IH]; [reflexivity |].
  cbn [find_bracket]. destruct rest as [| a rest']; [reflexivity |].
  destruct (Z.leb_spec (timestamp b) rt); [lia |]. cbn [andb]. exact IH.
Qed.

Lemma last_cons_default {A : Type} (l : list A) : forall x d : A,
  List.last (x :: l) d = List.last l x.
Proof.
  induction l as [| y l IH]; intros x d; [reflexivity |].
  change (List.last (x :: y :: l) d) with (List.last (y :: l) d).
  rewrite (IH y d). symmetry. apply (IH y x).
Qed.

Lemma GetInterpolatedState_history (it : t) (u u' : EsUuid) (now : Z) :
  history_of (snd (GetInterpolatedState it u now)) u' = history_of it u'.
Proof.
  unfold GetInterpolatedState.
  destruct (entityStates it !! u) as [history |] eqn:Eh; [| reflexivity].
  destruct (length (snapshots history) <? 2)%nat; [reflexivity |].
  destruct (find_bracket _ _) as [[before after] |]; [| reflexivity].
  destruct (_ =? 0); [reflexivity |].
  cbn [snd]. unfold history_of. cbn [entityStates].
  destruct (decide (u = u')) as [<- | Hne].
  - rewrite lookup_insert_eq, Eh. reflexivity.
  - rewrite lookup_insert_ne by exact Hne. reflexivity.
Qed.

(** Reading a state.  [GetInterpolatedState] answers [nullptr] exactly for
    an entity without snapshots (unknown or emptied); for a single snapshot
    it returns that snapshot; when the render time lies after all the
    snapshots of the timeline, or before all of them, it returns the
    newest snapshot.  The call may refresh the cached result but never
    changes a timeline or the settings. *)
Theorem GetInterpolatedState_fallbacks (it : t) (u : EsUuid) (now : Z) :
  let r := GetInterpolatedState it u now in
  let renderTime := GetRenderTimestamp it now in
  (fst r = None <-> history_of it u = []) /\
  (forall s, history_of it u = [s] -> fst r = Some s) /\
  (forall s rest,
     history_of it u = s :: rest ->
     Forall (fun x => timestamp x < renderTime) (s :: rest) \/
     Forall (fun x => renderTime < timestamp x) (s :: rest) ->
     fst r = Some (List.last rest s)) /\
  (forall u', history_of (snd r) u' = history_of it u') /\
  interpolationDelayMs (snd r) = interpolationDelayMs it /\
  maxSnapshotHistory (snd r) = maxSnapshotHistory it.
Proof.
  cbv zeta.
  split; [| split; [| split; [| split; [intros u'; apply GetInterpolatedState_history |]]]].
  - unfold GetInterpolatedState, history_of.
    destruct (entityStates it !! u) as [history |]; [| split; reflexivity].
    destruct (snapshots history) as [| s [| s' rest]] eqn:Es; cbn [length Nat.ltb Nat.leb].
    + split; reflexivity.
    + cbn. split; discriminate.
    + destruct (find_bracket _ _) as [[before after] |]; [| cbn; split; discriminate].
      destruct (_ =? 0); cbn; split; discriminate.
  - intros s. unfold GetInterpolatedState, history_of.
    destruct (entityStates it !! u) as [history |]; [| discriminate].
    intros ->. reflexivity.
  - intros s rest. unfold GetInterpolatedState, history_of.
    destruct (entityStates it !! u) as [history |]; [| discriminate].
    intros -> Hside. destruct rest as [| s' rest]; [reflexivity |].
    cbn [length Nat.ltb Nat.leb].
    rewrite (match Hside with
             | or_introl H => find_bracket_none_before _ _ H
             | or_intror H => find_bracket_none_after _ _ H
             end).
    cbn [fst]. f_equal. apply last_cons_default.
  - unfold GetInterpolatedState.
    destruct (entityStates it !! u) as [history |]; [| split; reflexivity].
    destruct (length (snapshots history) <? 2)%nat; [split; reflexivity |].
    destruct (find_bracket _ _) as [[before after] |]; [| split; reflexivity].
    destruct (_ =? 0); split; reflexivity.
Qed.

End InterpolatorTimelines.

Section InterpolateStamps.

Context {F : Facing}.

Import EntityInterpolator.




End InterpolateStamps.


(** ** Projectile bindings: both directions agree *)

Section ProjectileBindings.

Context {F : Facing}.

Import ProjectileSync.

Lemma spawn_all_bindings (ps : list ProjectileView) : forall (s : t),
  0 <= nextProjectileID s ->
  nextProjectileID s + Z.of_nat (length ps) < 2 ^ 32 ->
  NoDup (map address ps) ->
  (forall id, nextProjectileID s <= id -> networkIDToProjectile s !! id = None) ->
  let s' := snd (spawn_all s ps) in
  nextProjectileID s' = nextProjectileID s + Z.of_nat (length ps) /\
  (forall (i : nat) p, nth_error ps i = Some p ->
     projectileToNetworkID s' !! address p = Some (nextProjectileID s + Z.of_nat i) /\
     networkIDToProjectile s' !! (nextProjectileID s + Z.of_nat i) = Some (address p)) /\
  (forall a, a ∉ map address ps ->
     projectileToNetworkID s' !! a = projectileToNetworkID s !! a) /\
  (forall id, id < nextProjectileID s \/ nextProjectileID s + Z.of_nat (length ps) <= id ->
     networkIDToProjectile s' !! id = networkIDToProjectile s !! id) /\
  size (networkIDToProjectile s') = (size (networkIDToProjectile s) + length ps)%nat.
Proof.
  induction ps as [| p ps IH]; intros s Hn0 Hroom Hnd Hfree; cbv zeta.
  - cbn [spawn_all snd length]. rewrite Z.add_0_r, Nat.add_0_r.
    repeat split; try reflexivity.
    + destruct i; discriminate.
    + destruct i; discriminate.
  - cbn [spawn_all snd length map] in *.
    apply NoDup_cons in Hnd. destruct Hnd as [Hp Hnd].
    set (s1 := snd (RegisterProjectileSpawn s p None ""%string)).
    assert (Hnext : nextProjectileID s1 = nextProjectileID s + 1).
    { subst s1. cbn. apply incr32_exact; lia. }
    assert (Hn2p : networkIDToProjectile s1
                   = <[nextProjectileID s := address p]> (networkIDToProjectile s))
      by reflexivity.
    assert (Hp2n : projectileToNetworkID s1
                   = <[address p := nextProjectileID s]> (projectileToNetworkID s))
      by reflexivity.
    destruct (IH s1) as (IHnext & IHps & IHa & IHid & IHsize).
    + lia.
    + lia.
    + exact Hnd.
    + intros id Hid. rewrite Hn2p, lookup_insert_ne by lia. apply Hfree. lia.
    + split; [rewrite IHnext, Hnext; lia |].
      split; [| split; [| split]].
      * intros [| i] q Eq; cbn [nth_error] in Eq.
        -- injection Eq as <-.
           rewrite (IHa (address p) Hp), Hp2n, lookup_insert_eq.
           rewrite (IHid (nextProjectileID s + Z.of_nat 0)) by lia.
           rewrite Hn2p. cbn [Z.of_nat]. rewrite !Z.add_0_r, lookup_insert_eq.
           split; reflexivity.
        -- destruct (IHps i q Eq) as [H1 H2]. rewrite Hnext in H1, H2.
           replace (nextProjectileID s + Z.of_nat (S i))
             with (nextProjectileID s + 1 + Z.of_nat i) by lia.
           split; assumption.
      * intros a Ha. apply not_elem_of_cons in Ha. destruct Ha as [Hne Ha].
        rewrite (IHa a Ha), Hp2n, lookup_insert_ne by congruence. reflexivity.
      * intros id Hid. rewrite IHid by lia.
        rewrite Hn2p, lookup_insert_ne by lia. reflexivity.
      * rewrite IHsize, Hn2p, map_size_insert_None by (apply Hfree; lia). lia.
Qed.

(** Round trip.  After a new (or cleared) sync has registered the spawns of
    fewer than 2^32 - 1 projectiles at pairwise different addresses, the
    two maps agree: the projectile registered as number [i + 1] has
    network ID [i + 1], and that ID leads back to the projectile; as many
    projectiles are tracked as were registered; ID 0, the answer of
    [GetNetworkID] for an unknown projectile, is bound to none, and an
    address that was not registered is not tracked. *)
Theorem network_ids_round_trip (ps : list ProjectileView) :
  NoDup (map address ps) ->
  Z.of_nat (length ps) < 2 ^ 32 - 1 ->
  let s := snd (spawn_all init ps) in
  (forall (i : nat) p, nth_error ps i = Some p ->
     GetNetworkID s (address p) = 1 + Z.of_nat i /\
     FindProjectileByNetworkID s (GetNetworkID s (address p)) = Some (address p) /\
     IsTracked s (address p) = true) /\
  GetTrackedProjectileCount s = Z.of_nat (length ps) /\
  FindProjectileByNetworkID s 0 = None /\
  (forall a, a ∉ map address ps ->
     GetNetworkID s a = 0 /\ IsTracked s a = false).
Proof.
  intros Hnd Hlen.
  destruct (spawn_all_bindings ps init) as (_ & Hps & Ha & Hid & Hsize).
  - cbn. lia.
  - cbn. lia.
  - exact Hnd.
  - intros id _. cbn. apply lookup_empty.
  - cbv zeta. cbn [nextProjectileID init] in *.
    split; [| split; [| split]].
    + intros i p Ep. destruct (Hps i p Ep) as [H1 H2].
      unfold GetNetworkID, FindProjectileByNetworkID, IsTracked.
      rewrite H1. cbn [default from_option id]. 
      split; [reflexivity |]. split; [exact H2 |].
      apply bool_decide_eq_true_2. eexists. reflexivity.
    + unfold GetTrackedProjectileCount. rewrite Hsize. cbn. rewrite map_size_empty. lia.
    + unfold FindProjectileByNetworkID. rewrite Hid by lia. cbn. apply lookup_empty.
    + intros a Hna. unfold GetNetworkID, IsTracked. rewrite (Ha a Hna). cbn.
      rewrite lookup_empty. split; [reflexivity |].
      apply bool_decide_eq_false_2. intros [x Hx]. discriminate.
Qed.

End ProjectileBindings.

Lemma network_ids_round_trip_witness :
  ProjectileSync.GetNetworkID (F := plain_degrees)
    (snd (spawn_all (F := plain_degrees) ProjectileSync.init
            [projectile_at 7; projectile_at 9])) 9 = 2.
Proof.
  destruct (network_ids_round_trip (F := plain_degrees)
              [projectile_at 7; projectile_at 9]) as (H & _).
  - cbn. repeat constructor; intros C; apply list_elem_of_In in C; cbn in C; intuition lia.
  - cbn. lia.
  - destruct (H 1%nat (projectile_at 9) eq_refl) as (H1 & _). exact H1.
Defined.

(** ** Reconciliation: the velocity and facing channels *)

Section ReconciliationChannels.

Context {F : Facing}.

Import ClientReconciliation.

Local Open Scope R_scope.


End ReconciliationChannels.

(** ** Reconciliation: a finished channel carries no error *)

Section ReconciliationProgress.

Import Floats Binary64 Binary64.ClientReconciliation.

Context {F : Facing}.

Local Open Scope float_scope.

#[local] Set Warnings "-inexact-float".

(** The calls of the class. *)
Inductive ReconcileOp : Type :=
| RPosition (predicted server : Point)
| RVelocity (predicted server : Point)
| RFacing (predicted server : Angle)
| RUpdate
| RSetCorrectionTime (seconds : float)
| RSetErrorThreshold (pixels : float)
| RSetSnapThreshold (pixels : float).

Definition reconcile_step (r : t) (op : ReconcileOp) : t :=
  match op with
  | RPosition predicted server => ReconcilePosition r predicted server
  | RVelocity predicted server => ReconcileVelocity r predicted server
  | RFacing predicted server => ReconcileFacing r predicted server
  | RUpdate => Update r
  | RSetCorrectionTime seconds => SetCorrectionTime seconds r
  | RSetErrorThreshold pixels => SetErrorThreshold pixels r
  | RSetSnapThreshold pixels => SetSnapThreshold pixels r
  end.

Definition reconcile_run (r : t) (ops : list ReconcileOp) : t :=
  fold_left reconcile_step ops r.

(** A channel whose progress has reached 1.0 stands at exactly 1.0 and
    carries no error. *)
Definition clean (r : t) : Prop :=
  ((1 <=? positionCorrectionProgress r) = true ->
     positionCorrectionProgress r = 1 /\ positionError r = Point0) /\
  ((1 <=? velocityCorrectionProgress r) = true ->
     velocityCorrectionProgress r = 1 /\ velocityError r = Point0) /\
  ((1 <=? facingCorrectionProgress r) = true ->
     facingCorrectionProgress r = 1 /\ facingErrorDegrees r = 0).

Lemma advance_clean {E : Type} (zero err : E) (progress step : float) :
  ((1 <=? progress) = true -> progress = 1 /\ err = zero) ->
  (1 <=? fst (advance progress step)) = true ->
  fst (advance progress step) = 1 /\
  (if snd (advance progress step) then zero else err) = zero.
Proof.
  intros H. unfold advance.
  destruct (progress <? 1) eqn:Hlt.
  - destruct (1 <=? progress + step) eqn:Hdone; cbn [fst snd].
    + intros _. split; reflexivity.
    + intros C. rewrite C in Hdone. discriminate.
  - cbn [fst snd]. exact H.
Qed.

Lemma Update_clean (r : t) : clean r -> clean (Update r).
Proof.
  intros (Hp & Hv & Hf). unfold clean, Update.
  cbn [positionCorrectionProgress velocityCorrectionProgress facingCorrectionProgress
       positionError velocityError facingErrorDegrees].
  split; [| split].
  - apply (advance_clean Point0 (positionError r)). exact Hp.
  - apply (advance_clean Point0 (velocityError r)). exact Hv.
  - apply (advance_clean 0 (facingErrorDegrees r)). exact Hf.
Qed.

Lemma reconcile_step_clean (r : t) (op : ReconcileOp) :
  clean r -> clean (reconcile_step r op).
Proof.
  intros H. pose proof H as (Hp & Hv & Hf).
  destruct op as [p s | p s | p s | | x | x | x]; cbn [reconcile_step].
  - unfold ReconcilePosition, clean.
    destruct (negb _); [| destruct (_ <? _)];
      cbn [set_position positionCorrectionProgress velocityCorrectionProgress
           facingCorrectionProgress positionError velocityError facingErrorDegrees];
      (split; [| split; assumption]);
      first [intros _; split; reflexivity | intros C; discriminate C].
  - unfold ReconcileVelocity, clean.
    destruct (_ <? _);
      cbn [positionCorrectionProgress velocityCorrectionProgress
           facingCorrectionProgress positionError velocityError facingErrorDegrees];
      (split; [assumption | split; [| assumption]]);
      first [intros _; split; reflexivity | intros C; discriminate C].
  - unfold ReconcileFacing, clean.
    destruct (abs _ <? _);
      cbn [positionCorrectionProgress velocityCorrectionProgress
           facingCorrectionProgress positionError velocityError facingErrorDegrees];
      (split; [assumption | split; [assumption |]]);
      first [intros _; split; reflexivity | intros C; discriminate C].
  - apply Update_clean. exact H.
  - exact H.
  - exact H.
  - exact H.
Qed.

Lemma reconcile_run_clean (ops : list ReconcileOp) : forall r,
  clean r -> clean (reconcile_run r ops).
Proof.
  induction ops as [| op ops IH]; intros r H; cbn [reconcile_run fold_left]; [exact H |].
  apply IH, reconcile_step_clean, H.
Qed.

Lemma init_clean : clean init.
Proof. unfold clean, init. cbn. repeat split. Qed.

Lemma never_above_one (progress : float) :
  ((1 <=? progress) = true -> progress = 1) -> (1 <? progress) = false.
Proof.
  intros H. destruct (1 <? progress) eqn:Hlt; [| reflexivity].
  destruct (ltb_true _ _ Hlt) as (Hle & _).
  rewrite (H Hle) in Hlt. discriminate Hlt.
Qed.

(** The end of a correction, in binary64.  After any calls of the class on
    a new object, no progress is above 1.0.  A channel whose progress has
    reached 1.0 stands at exactly 1.0, carries no error and is not
    reconciling; its [GetCorrected...] returns the argument unchanged and
    [Update] leaves it as it is.  A channel that is reconciling is below
    1.0, and [GetCorrectedPosition] adds the error times the step.  How
    many calls of [Update] finish a correction is a matter of rounding:
    with a correction time of 0.25 s fifteen steps of 1/15 add up to less
    than 1.0, so the position is still reconciling after 15 calls and done
    after the 16th. *)
Theorem finished_channel_carries_no_error (ops : list ReconcileOp)
  (p : Point) (a : Angle) :
  let r := reconcile_run init ops in
  ((1 <? positionCorrectionProgress r) = false /\
   (1 <? velocityCorrectionProgress r) = false /\
   (1 <? facingCorrectionProgress r) = false) /\
  ((1 <=? positionCorrectionProgress r) = true ->
     positionCorrectionProgress r = 1 /\ positionError r = Point0 /\
     IsReconcilingPosition r = false /\ GetCorrectedPosition r p = p /\
     positionCorrectionProgress (Update r) = 1 /\ positionError (Update r) = Point0) /\
  ((1 <=? velocityCorrectionProgress r) = true ->
     velocityCorrectionProgress r = 1 /\ velocityError r = Point0 /\
     IsReconcilingVelocity r = false /\ GetCorrectedVelocity r p = p /\
     velocityCorrectionProgress (Update r) = 1 /\ velocityError (Update r) = Point0) /\
  ((1 <=? facingCorrectionProgress r) = true ->
     facingCorrectionProgress r = 1 /\ facingErrorDegrees r = 0 /\
     IsReconcilingFacing r = false /\ GetCorrectedFacing r a = a /\
     facingCorrectionProgress (Update r) = 1 /\ facingErrorDegrees (Update r) = 0) /\
  (IsReconcilingPosition r = true ->
     (1 <=? positionCorrectionProgress r) = false /\
     GetCorrectedPosition r p
     = Point_add p (Point_scale (positionError r) (GetCorrectionStepPerFrame r))) /\
  (let start := [RSetCorrectionTime 0.25; RPosition (mkPoint 0 0) (mkPoint 10 0)] in
   IsReconcilingPosition (reconcile_run init (start ++ repeat RUpdate 15)) = true /\
   IsReconcilingPosition (reconcile_run init (start ++ repeat RUpdate 16)) = false).
Proof.
  intros r.
  assert (Hr : clean r) by (apply reconcile_run_clean, init_clean).
  pose proof (Update_clean r Hr) as Hu.
  destruct Hr as (Hp & Hv & Hf). destruct Hu as (Up & Uv & Uf).
  split; [| split; [| split; [| split; [| split]]]].
  - repeat split; apply never_above_one; intros H;
      [apply (Hp H) | apply (Hv H) | apply (Hf H)].
  - intros H. destruct (Hp H) as [E Z].
    assert (HU : (1 <=? positionCorrectionProgress (Update r)) = true).
    { unfold Update, advance. cbn [positionCorrectionProgress fst]. rewrite E.
      reflexivity. }
    destruct (Up HU) as [E' Z'].
    unfold IsReconcilingPosition, GetCorrectedPosition. rewrite H, E.
    repeat split; assumption.
  - intros H. destruct (Hv H) as [E Z].
    assert (HU : (1 <=? velocityCorrectionProgress (Update r)) = true).
    { unfold Update, advance. cbn [velocityCorrectionProgress fst]. rewrite E.
      reflexivity. }
    destruct (Uv HU) as [E' Z'].
    unfold IsReconcilingVelocity, GetCorrectedVelocity. rewrite H, E.
    repeat split; assumption.
  - intros H. destruct (Hf H) as [E Z].
    assert (HU : (1 <=? facingCorrectionProgress (Update r)) = true).
    { unfold Update, advance. cbn [facingCorrectionProgress fst]. rewrite E.
      reflexivity. }
    destruct (Uf HU) as [E' Z'].
    unfold IsReconcilingFacing, GetCorrectedFacing. rewrite H, E.
    repeat split; assumption.
  - unfold IsReconcilingPosition, GetCorrectedPosition. intros H.
    destruct (ltb_true _ _ H) as (_ & Hle & _). rewrite Hle.
    split; reflexivity.
  - cbv zeta. split; vm_compute; reflexivity.
Qed.

End ReconciliationProgress.

(** ** The server: commands and snapshots of a simulation tick *)

Section ServerTicks.

Context {W : World}.

Import Server.

Lemma ValidateCommand_early (v : CommandValidator.t) (c : PlayerCommand.t)
  (tick now : Z) :
  0 <= tick < CommandValidator.maxPastTicks v ->
  CommandValidator.maxPastTicks v <= 2 ^ 63 ->
  fst (CommandValidator.ValidateCommand v c tick now) <> CommandValidator.VALID.
Proof.
  intros Ht Hp. destruct (PlayerCommand.IsValid c) eqn:Hc.
  - rewrite (ValidateCommand_underflow v c tick now Hc Ht Hp). discriminate.
  - unfold CommandValidator.ValidateCommand. rewrite Hc. cbn. discriminate.
Qed.

Lemma process_loop_frame (commands : list PlayerCommand.t) (tick : Z)
  (steady : nat -> Z) : forall (i : nat) (srv : t),
  let srv' := process_loop commands tick steady i srv in
  config srv' = config srv /\ gameState srv' = gameState srv /\
  commandBuffer srv' = commandBuffer srv /\
  snapshotManager srv' = snapshotManager srv /\
  CommandValidator.maxPastTicks (commandValidator srv')
  = CommandValidator.maxPastTicks (commandValidator srv).
Proof.
  induction commands as [| c rest IH]; intros i srv; cbn [process_loop].
  - repeat split.
  - cbv zeta in IH |- *.
    pose proof (ValidateCommand_config (commandValidator srv) c tick (steady i)) as Hcfg.
    cbv zeta in Hcfg. destruct Hcfg as (Hpast & _).
    destruct (fst (CommandValidator.ValidateCommand _ _ _ _));
      match goal with
      | |- context [process_loop rest tick steady (S i) ?s] =>
          destruct (IH (S i) s) as (H1 & H2 & H3 & H4 & H5)
      end;
      rewrite H1, H2, H3, H4, H5; cbn; repeat split; exact Hpast.
Qed.

Lemma process_loop_counts (commands : list PlayerCommand.t) (tick : Z)
  (steady : nat -> Z) : forall (i : nat) (srv : t),
  0 <= totalCommandsProcessed srv -> 0 <= totalCommandsRejected srv ->
  totalCommandsProcessed srv + totalCommandsRejected srv
    + Z.of_nat (length commands) < 2 ^ 64 ->
  let srv' := process_loop commands tick steady i srv in
  totalCommandsProcessed srv' + totalCommandsRejected srv'
  = totalCommandsProcessed srv + totalCommandsRejected srv
    + Z.of_nat (length commands) /\
  totalCommandsProcessed srv <= totalCommandsProcessed srv' /\
  totalCommandsRejected srv <= totalCommandsRejected srv' /\
  (0 <= tick < CommandValidator.maxPastTicks (commandValidator srv) ->
   CommandValidator.maxPastTicks (commandValidator srv) <= 2 ^ 63 ->
   totalCommandsProcessed srv' = totalCommandsProcessed srv).
Proof.
  induction commands as [| c rest IH]; intros i srv HP HR Hroom; cbn [process_loop].
  - cbn [length] in *. repeat split; lia.
  - cbv zeta in IH |- *. cbn [length] in Hroom.
    pose proof (ValidateCommand_config (commandValidator srv) c tick (steady i)) as Hcfg.
    cbv zeta in Hcfg. destruct Hcfg as (Hpast & _).
    pose proof (ValidateCommand_early (commandValidator srv) c tick (steady i)) as Hearly.
    destruct (fst (CommandValidator.ValidateCommand _ _ _ _)) eqn:Ev;
      match goal with
      | |- context [process_loop rest tick steady (S i) ?s] =>
          destruct (IH (S i) s) as (H1 & H2 & H3 & H4);
            cbn [totalCommandsProcessed totalCommandsRejected commandValidator];
            rewrite ?incr64_exact by lia; try lia;
            cbn [totalCommandsProcessed totalCommandsRejected commandValidator] in H1, H2, H3, H4;
            rewrite ?incr64_exact in H1, H2, H3, H4 by lia;
            rewrite ?Hpast in H4
      end;
      cbn [length]; (split; [lia | split; [lia | split; [lia |]]]);
      intros Ht Hp; try (exfalso; apply (Hearly Ht Hp); reflexivity);
      rewrite (H4 Ht Hp); reflexivity.
Qed.

(** Commands of a tick.  [ProcessCommands] validates every command that
    the buffer holds for the tick, at that tick: the counters of processed
    and of rejected commands together go up by their number (counters
    below 2^64), and neither goes down.  While the tick is below the
    validator's [maxPastTicks] (the first 60 ticks of a server), no command
    is counted as processed, whatever the buffer holds.  The buffer is
    pruned below [tick - 120] when the tick is above 120, and untouched
    otherwise; the world and the snapshots are not touched. *)
Theorem ProcessCommands_accounts_for_every_command (srv : t) (tick : Z)
  (steady : nat -> Z) :
  let n := Z.of_nat (length (CommandBuffer.GetCommandsForTick (commandBuffer srv) tick)) in
  0 <= totalCommandsProcessed srv -> 0 <= totalCommandsRejected srv ->
  totalCommandsProcessed srv + totalCommandsRejected srv + n < 2 ^ 64 ->
  let srv' := ProcessCommands srv tick steady in
  totalCommandsProcessed srv' + totalCommandsRejected srv'
  = totalCommandsProcessed srv + totalCommandsRejected srv + n /\
  totalCommandsProcessed srv <= totalCommandsProcessed srv' /\
  totalCommandsRejected srv <= totalCommandsRejected srv' /\
  (0 <= tick < CommandValidator.maxPastTicks (commandValidator srv) ->
   CommandValidator.maxPastTicks (commandValidator srv) <= 2 ^ 63 ->
   totalCommandsProcessed srv' = totalCommandsProcessed srv) /\
  (tick < 2 ^ 64 ->
   commandBuffer srv'
   = if 120 <? tick
     then CommandBuffer.PruneOlderThan (tick - 120) (commandBuffer srv)
     else commandBuffer srv) /\
  gameState srv' = gameState srv /\
  snapshotManager srv' = snapshotManager srv.
Proof.
  intros n HP HR Hroom srv'. subst srv' n. unfold ProcessCommands.
  set (commands := CommandBuffer.GetCommandsForTick (commandBuffer srv) tick) in *.
  destruct (process_loop_frame commands tick steady 0%nat srv) as (_ & Hg & Hb & Hm & _).
  destruct (process_loop_counts commands tick steady 0%nat srv HP HR Hroom)
    as (Hsum & HP' & HR' & Hearly).
  destruct (Z.ltb_spec 120 tick) as [Hlate | Hnot];
    cbn [totalCommandsProcessed totalCommandsRejected commandBuffer gameState
         snapshotManager];
    (split; [exact Hsum |]; split; [exact HP' |]; split; [exact HR' |];
     split; [exact Hearly |]; split; [| split; assumption]).
  - intros Htick. rewrite Hb, sub64_exact by lia. reflexivity.
  - intros _. exact Hb.
Qed.

(** The simulation callback that [Run] installs, and the state after [n]
    rounds of [ProcessSimulation]. *)
Definition simulation_callback (steady : Z -> nat -> Z) (system : Z -> Z)
  (tick : Z) (srv : t) : t :=
  OnSimulationTick srv tick (steady tick) (system tick).

Fixpoint run_ticks (n : nat) (steady : Z -> nat -> Z) (system : Z -> Z)
  (st : ServerLoop.t * t) : ServerLoop.t * t :=
  match n with
  | O => st
  | S k =>
      ServerLoop.ProcessSimulation (simulation_callback steady system)
        (run_ticks k steady system st)
  end.

(** What a snapshot says about ticks: its own, and the one of the world
    it holds. *)
Definition snapshot_ticks (s : SnapshotManager.Snapshot) : Z * option Z :=
  (SnapshotManager.gameTick s,
   option_map GameState.gameTick (SnapshotManager.state s)).

Definition tick_pair (i : nat) : Z * option Z := (Z.of_nat i, Some (Z.of_nat i + 1)).

Lemma OnSimulationTick_effect (srv : t) (tick : Z) (steady : nat -> Z) (now : Z) :
  0 <= SnapshotManager.historySize (snapshotManager srv) ->
  let srv' := OnSimulationTick srv tick steady now in
  config srv' = config srv /\
  gameState srv' = GameState.Step (gameState srv) /\
  SnapshotManager.historySize (snapshotManager srv')
  = SnapshotManager.historySize (snapshotManager srv) /\
  map snapshot_ticks (SnapshotManager.snapshots (snapshotManager srv'))
  = lastn (Z.to_nat (SnapshotManager.historySize (snapshotManager srv)))
      (map snapshot_ticks (SnapshotManager.snapshots (snapshotManager srv))
       ++ [(tick, Some (incr64 (GameState.gameTick (gameState srv))))]).
Proof.
  intros HN. cbv zeta. unfold OnSimulationTick, SimulateGameTick, ProcessCommands.
  set (commands := CommandBuffer.GetCommandsForTick (commandBuffer srv) tick).
  destruct (process_loop_frame commands tick steady 0%nat srv) as (Hc & Hg & _ & Hm & _).
  assert (Hnew : forall (m : SnapshotManager.t) (g : GameState.t),
            0 <= SnapshotManager.historySize m ->
            map snapshot_ticks
              (SnapshotManager.snapshots
                 (SnapshotManager.CreateSnapshot m (GameState.Step g) tick false now))
            = lastn (Z.to_nat (SnapshotManager.historySize m))
                (map snapshot_ticks (SnapshotManager.snapshots m)
                 ++ [(tick, Some (incr64 (GameState.gameTick g)))])).
  { intros m g Hm0. unfold SnapshotManager.CreateSnapshot.
    cbn [SnapshotManager.snapshots].
    rewrite prune_front_lastn by exact Hm0.
    rewrite lastn_map, map_app. f_equal. f_equal.
    unfold snapshot_ticks at 1. cbn [map SnapshotManager.gameTick SnapshotManager.state option_map].
    change (GameState.gameTick (GameState.copy (GameState.Step g)))
      with (GameState.gameTick (GameState.Step g)).
    rewrite Step_gameTick. reflexivity. }
  destruct (120 <? tick);
    cbn [config gameState snapshotManager commandBuffer commandValidator
         totalCommandsProcessed totalCommandsRejected];
    rewrite ?Hc, ?Hg, ?Hm;
    (split; [reflexivity |]; split; [reflexivity |]; split; [reflexivity |]);
    apply Hnew; exact HN.
Qed.

Lemma run_ticks_state (n : nat) (steady : Z -> nat -> Z) (system : Z -> Z)
  (loop : ServerLoop.t) (srv : t) :
  Z.of_nat n < 2 ^ 64 ->
  0 <= SnapshotManager.historySize (snapshotManager srv) ->
  SnapshotManager.snapshots (snapshotManager srv) = [] ->
  GameState.gameTick (gameState srv) = 0 ->
  let st := run_ticks n steady system (ServerLoop.start loop, srv) in
  ServerLoop.gameTick (fst st) = Z.of_nat n /\
  GameState.gameTick (gameState (snd st)) = Z.of_nat n /\
  config (snd st) = config srv /\
  SnapshotManager.historySize (snapshotManager (snd st))
  = SnapshotManager.historySize (snapshotManager srv) /\
  map snapshot_ticks (SnapshotManager.snapshots (snapshotManager (snd st)))
  = lastn (Z.to_nat (SnapshotManager.historySize (snapshotManager srv)))
      (map tick_pair (seq 0 n)).
Proof.
  intros Hn HN Hempty Htick. cbv zeta.
  induction n as [| n IH]; cbn [run_ticks].
  - cbn. rewrite Hempty, Htick. unfold lastn. cbn. repeat split.
  - destruct IH as (IH1 & IH2 & IH3 & IH4 & IH5); [lia |].
    set (st := run_ticks n steady system (ServerLoop.start loop, srv)) in *.
    unfold ServerLoop.ProcessSimulation, simulation_callback. cbn [fst snd ServerLoop.gameTick].
    destruct (OnSimulationTick_effect (snd st) (ServerLoop.gameTick (fst st))
                (steady (ServerLoop.gameTick (fst st)))
                (system (ServerLoop.gameTick (fst st))))
      as (Hc & Hg & Hh & Hs); [rewrite IH4; exact HN |].
    rewrite Hc, Hg, Hh, Hs, Step_gameTick, IH1, IH2, IH3, IH4, IH5.
    rewrite !incr64_exact by lia.
    split; [lia |]. split; [lia |]. split; [reflexivity |]. split; [reflexivity |].
    rewrite seq_S, map_app. cbn [map Nat.add tick_pair].
    apply lastn_app_lastn.
Qed.

Lemma StronglySorted_skipn (k : nat) (l : list Z) :
  StronglySorted Z.le l -> StronglySorted Z.le (skipn k l).
Proof.
  revert l. induction k as [| k IH]; intros l Hs; [exact Hs |].
  destruct l as [| x l]; [constructor |]. cbn [skipn].
  apply IH. apply StronglySorted_inv in Hs. apply Hs.
Qed.

Lemma StronglySorted_seq (n a : nat) :
  StronglySorted Z.le (map Z.of_nat (seq a n)).
Proof.
  revert a. induction n as [| n IH]; intros a; cbn [seq map]; [constructor |].
  constructor; [apply IH |].
  apply List.Forall_forall. intros x Hx. apply in_map_iff in Hx.
  destruct Hx as (i & <- & Hi). apply in_seq in Hi. lia.
Qed.

(** The ring of a running server.  A server initialized with a valid
    configuration (history size [H], a [uint32_t]; validity puts it between
    1 and 1000) and run for [n] simulation ticks from tick 0 has its world
    at tick [n]; the ring holds the snapshots of the last [min(H, n)]
    ticks, in order, so its ticks never go down; and the snapshot recorded
    for tick [i] holds the world after the step of that tick, whose own
    tick is [i + 1]. *)
Theorem server_ring_after_n_ticks (cfg : ServerConfig.t) (srv : t) (n : nat)
  (steady : Z -> nat -> Z) (system : Z -> Z) (loop : ServerLoop.t) :
  is_u32 (ServerConfig.snapshotHistorySize cfg) ->
  Initialize cfg = Some srv ->
  Z.of_nat n < 2 ^ 64 ->
  let st := run_ticks n steady system (ServerLoop.start loop, srv) in
  let H := Z.to_nat (ServerConfig.snapshotHistorySize cfg) in
  (1 <= H <= 1000)%nat /\
  ServerLoop.gameTick (fst st) = Z.of_nat n /\
  GameState.gameTick (gameState (snd st)) = Z.of_nat n /\
  map snapshot_ticks (SnapshotManager.snapshots (snapshotManager (snd st)))
  = lastn H (map tick_pair (seq 0 n)) /\
  SnapshotManager.GetSnapshotCount (snapshotManager (snd st))
  = Z.of_nat (Nat.min H n) /\
  ticks_ascending (SnapshotManager.snapshots (snapshotManager (snd st))).
Proof.
  intros Hu32 Hinit Hn. cbv zeta. unfold Initialize in Hinit.
  destruct (ServerConfig.IsValid cfg) eqn:Hvalid; [| discriminate].
  cbn [negb] in Hinit. injection Hinit as <-.
  assert (HH : 1 <= ServerConfig.snapshotHistorySize cfg <= 1000).
  { unfold ServerConfig.IsValid in Hvalid. unfold is_u32 in Hu32.
    destruct (ServerConfig.port cfg =? 0); [discriminate |].
    destruct (_ || _); [discriminate |].
    destruct (_ || _); [discriminate |].
    destruct (_ || _); [discriminate |].
    destruct (Z.eqb_spec (ServerConfig.snapshotHistorySize cfg) 0); [discriminate |].
    destruct (Z.ltb_spec 1000 (ServerConfig.snapshotHistorySize cfg)); [discriminate |].
    lia. }
  match goal with
  | |- context [run_ticks n steady system (ServerLoop.start loop, ?s)] =>
      destruct (run_ticks_state n steady system loop s Hn) as (H1 & H2 & _ & _ & H5);
        [cbn; lia | reflexivity | reflexivity |]
  end.
  cbn [snapshotManager SnapshotManager.historySize SnapshotManager.create] in H5.
  split; [lia |]. split; [exact H1 |]. split; [exact H2 |]. split; [exact H5 |].
  split.
  - unfold SnapshotManager.GetSnapshotCount.
    rewrite <- (length_map snapshot_ticks), H5, lastn_length, length_map, length_seq.
    reflexivity.
  - unfold ticks_ascending.
    assert (E : map SnapshotManager.gameTick
                  (SnapshotManager.snapshots
                     (snapshotManager
                        (snd (run_ticks n steady system
                                (ServerLoop.start loop,
                                 mk cfg GameState.init CommandBuffer.init
                                    CommandValidator.init
                                    (SnapshotManager.create
                                       (ServerConfig.snapshotHistorySize cfg)) 0 0)))))
                = map fst (lastn (Z.to_nat (ServerConfig.snapshotHistorySize cfg))
                             (map tick_pair (seq 0 n)))).
    { rewrite <- H5, map_map. reflexivity. }
    rewrite E, lastn_map, map_map. cbn [tick_pair fst]. unfold lastn.
    apply StronglySorted_skipn. apply (StronglySorted_seq n 0).
Qed.

End ServerTicks.

(** A server at tick 5 whose buffer holds two commands for that tick. *)
Definition server_at_5 : Server.t (W := bare_world) :=
  Server.mk ServerConfig.init GameState.init
    (snd (add_all CommandBuffer.init [seq_command "p1" 5 1; seq_command "p2" 5 1]))
    CommandValidator.init (SnapshotManager.create 120) 0 0.

Lemma ProcessCommands_accounts_for_every_command_witness :
  Server.totalCommandsProcessed (Server.ProcessCommands server_at_5 5 (fun _ => 0)) = 0 /\
  Server.totalCommandsRejected (Server.ProcessCommands server_at_5 5 (fun _ => 0)) = 2.
Proof.
  destruct (ProcessCommands_accounts_for_every_command (W := bare_world)
              server_at_5 5 (fun _ => 0)) as (Hsum & _ & _ & Hearly & _).
  - cbn. lia.
  - cbn. lia.
  - vm_compute. reflexivity.
  - assert (Hp : Server.totalCommandsProcessed
                   (Server.ProcessCommands server_at_5 5 (fun _ => 0)) = 0).
    { rewrite Hearly; [reflexivity | cbn; lia | cbn; lia]. }
    split; [exact Hp |].
    assert (Hlen : Z.of_nat (length (CommandBuffer.GetCommandsForTick
                                       (Server.commandBuffer server_at_5) 5)) = 2)
      by (vm_compute; reflexivity).
    cbv zeta in Hsum. rewrite Hlen, Hp in Hsum.
    change (Server.totalCommandsProcessed server_at_5) with 0 in Hsum.
    change (Server.totalCommandsRejected server_at_5) with 0 in Hsum.
    lia.
Defined.

Lemma server_ring_after_n_ticks_witness :
  GameState.gameTick
    (Server.gameState
       (snd (run_ticks (W := bare_world) 3 (fun _ _ => 0) (fun _ => 0)
               (ServerLoop.start (ServerLoop.mk 0 0 0),
                Server.mk ServerConfig.init GameState.init CommandBuffer.init
                  CommandValidator.init (SnapshotManager.create 120) 0 0)))) = 3.
Proof.
  destruct (server_ring_after_n_ticks (W := bare_world) ServerConfig.init
              (Server.mk ServerConfig.init GameState.init CommandBuffer.init
                 CommandValidator.init (SnapshotManager.create 120) 0 0)
              3 (fun _ _ => 0) (fun _ => 0) (ServerLoop.mk 0 0 0))
    as (_ & _ & H & _).
  - unfold is_u32. cbn. lia.
  - reflexivity.
  - cbn. lia.
  - exact H.
Defined.

(** ** The player registry: three maps in step *)

Section RegistryProperties.

Import PlayerRegistry.

Inductive RegistryOp : Type :=
| PRegister (player : option PlayerView)
| PUnregister (uuid : EsUuid)
| PUnregisterIndex (index : Z)
| PClear.

Definition registry_step (r : t) (op : RegistryOp) : t :=
  match op with
  | PRegister player => snd (Register r player)
  | PUnregister uuid => Unregister uuid r
  | PUnregisterIndex index => UnregisterIndex index r
  | PClear => Clear r
  end.

Definition registry_run (r : t) (ops : list RegistryOp) : t :=
  fold_left registry_step ops r.

(** The three maps describe one relation between indices, UUIDs and
    players; the free indices are apart from the indices in use, and both
    are below [nextIndex], itself at most [k]. *)
Record in_step (k : Z) (r : t) : Prop := mk_in_step {
  step_index : forall i u, indexToUUID r !! i = Some u ->
    exists h, playersByIndex r !! i = Some h /\ playersByUUID r !! u = Some h;
  step_uuid : forall u h, playersByUUID r !! u = Some h ->
    exists i, indexToUUID r !! i = Some u;
  step_inj : forall i j u,
    indexToUUID r !! i = Some u -> indexToUUID r !! j = Some u -> i = j;
  step_dom : forall i h, playersByIndex r !! i = Some h ->
    exists u, indexToUUID r !! i = Some u;
  step_used : forall i u, indexToUUID r !! i = Some u ->
    0 <= i < nextIndex r /\ i ∉ freeIndices r;
  step_free : NoDup (freeIndices r) /\
    forall i, i ∈ freeIndices r -> 0 <= i < nextIndex r;
  step_next : 0 <= nextIndex r <= k;
  step_size : size (playersByUUID r) = size (indexToUUID r) /\
              size (playersByIndex r) = size (indexToUUID r)
}.

Lemma in_step_init : in_step 0 init.
Proof.
  constructor; cbn; try (intros; rewrite lookup_empty in *; discriminate).
  - split; [constructor | intros i Hi; inversion Hi].
  - lia.
  - rewrite !map_size_empty. split; reflexivity.
Qed.

Lemma in_step_weaken k k' r : k <= k' -> in_step k r -> in_step k' r.
Proof.
  intros Hk [H1 H2 H3 H4 H5 H6 H7 H8]. constructor; try assumption. lia.
Qed.

Lemma find_index_spec k r u i :
  in_step k r -> indexToUUID r !! i = Some u -> find_index r u = i.
Proof.
  intros H Hi. unfold find_index.
  destruct (List.find _ _) as [[j u'] |] eqn:E.
  - apply List.find_some in E. destruct E as [Hin Heq].
    apply bool_decide_eq_true_1 in Heq. cbn in Heq. subst u'.
    apply list_elem_of_In, elem_of_map_to_list in Hin. cbn.
    apply (step_inj k r H j i u); assumption.
  - exfalso.
    assert (Hin : In (i, u) (map_to_list (indexToUUID r))).
    { apply list_elem_of_In, elem_of_map_to_list. exact Hi. }
    apply (List.find_none _ _ E) in Hin. cbn in Hin.
    apply bool_decide_eq_false_1 in Hin. apply Hin. reflexivity.
Qed.

(** The index that [Register] hands out and what it leaves. *)
Lemma allocate_cases (r : t) :
  let '(index, next, free) :=
    match freeIndices r with
    | [] => (nextIndex r, incr64 (nextIndex r), [])
    | x :: rest => (List.last rest x, nextIndex r, removelast (x :: rest))
    end in
  index = GetNextAvailableIndex r /\
  ((freeIndices r = [] /\ index = nextIndex r /\ next = incr64 (nextIndex r) /\ free = [])
   \/ (freeIndices r = free ++ [index] /\ next = nextIndex r)).
Proof.
  unfold GetNextAvailableIndex. destruct (freeIndices r) as [| x rest] eqn:E.
  - split; [reflexivity |]. left. repeat split.
  - split; [reflexivity |]. right. split; [| reflexivity].
    rewrite (app_removelast_last x (l := x :: rest)) at 1 by discriminate.
    f_equal. f_equal. apply last_cons_default.
Qed.

Lemma Register_in_step k r p :
  in_step k r -> k + 1 < 2 ^ 64 ->
  playersByUUID r !! GetUUID p = None ->
  let index := fst (Register r (Some p)) in
  let r' := snd (Register r (Some p)) in
  in_step (k + 1) r' /\
  index = GetNextAvailableIndex r /\
  0 <= index <= k /\
  playersByIndex r !! index = None /\
  playersByUUID r' = <[GetUUID p := address p]> (playersByUUID r) /\
  playersByIndex r' = <[index := address p]> (playersByIndex r) /\
  indexToUUID r' = <[index := GetUUID p]> (indexToUUID r).
Proof.
  intros H Hk Hnew. pose proof H as [H1 H2 H3 H4 H5 [H6 H6'] H7 [H8 H8']].
  cbv zeta. unfold Register.
  rewrite bool_decide_eq_false_2 by (rewrite Hnew; intros [x Hx]; discriminate).
  pose proof (allocate_cases r) as Hal.
  destruct (match freeIndices r with
            | [] => (nextIndex r, incr64 (nextIndex r), [])
            | x :: rest => (List.last rest x, nextIndex r, removelast (x :: rest))
            end) as [[index next] free].
  destruct Hal as [Hidx Hal]. cbn [fst snd].
  set (u := GetUUID p) in *.
  (* what both ways of allocating give *)
  assert (Hfacts : 0 <= index <= k /\ indexToUUID r !! index = None /\
                   0 <= next <= k + 1 /\ NoDup free /\
                   (forall i, i ∈ free -> 0 <= i < next /\ i <> index) /\
                   (forall i, 0 <= i < nextIndex r -> i ∉ freeIndices r -> i <> index ->
                              0 <= i < next /\ i ∉ free) /\
                   index < next).
  { destruct Hal as [(Hf & -> & -> & ->) | (Hf & ->)].
    - rewrite incr64_exact by lia.
      split; [lia |]. split.
      + destruct (indexToUUID r !! nextIndex r) as [u' |] eqn:E; [| reflexivity].
        destruct (H5 _ _ E). lia.
      + split; [lia |]. split; [constructor |]. split.
        * intros i Hi. inversion Hi.
        * split; [| lia]. intros i Hi _ _. split; [lia |]. intros C. inversion C.
    - rewrite Hf in H6, H6'. apply NoDup_app in H6. destruct H6 as (Hnd & Hdisj & _).
      assert (Hin : index ∈ free ++ [index]).
      { apply elem_of_app. right. apply list_elem_of_singleton. reflexivity. }
      pose proof (H6' index Hin) as Hib.
      split; [lia |]. split.
      + destruct (indexToUUID r !! index) as [u' |] eqn:E; [| reflexivity].
        destruct (H5 _ _ E) as [_ C]. rewrite Hf in C. contradiction.
      + split; [lia |]. split; [exact Hnd |]. split.
        * intros i Hi. split.
          -- apply H6'. apply elem_of_app. left. exact Hi.
          -- intros ->. apply (Hdisj index Hi). apply list_elem_of_singleton. reflexivity.
        * split; [| lia]. intros i Hi Hnf Hne. split; [exact Hi |].
          intros C. apply Hnf. rewrite Hf. apply elem_of_app. left. exact C. }
  destruct Hfacts as (Hib & Hnone & Hnb & Hnd & Hfree & Hkeep & Hlt).
  assert (Hnone' : playersByIndex r !! index = None).
  { destruct (playersByIndex r !! index) as [h |] eqn:E; [| reflexivity].
    destruct (H4 _ _ E) as [u' Hu']. congruence. }
  assert (Hnou : forall i, indexToUUID r !! i <> Some u).
  { intros i Hi. destruct (H1 _ _ Hi) as (h & _ & Hh). congruence. }
  split; [| repeat split; try assumption; lia].
  constructor; cbn [playersByUUID playersByIndex indexToUUID nextIndex freeIndices].
  - intros i u' Hi. apply lookup_insert_Some in Hi.
    destruct Hi as [[<- <-] | [Hne Hi]].
    + exists (address p). rewrite !lookup_insert_eq. split; reflexivity.
    + destruct (H1 _ _ Hi) as (h & Hh1 & Hh2). exists h.
      rewrite lookup_insert_ne by exact Hne.
      rewrite lookup_insert_ne by (intros ->; apply (Hnou i); exact Hi).
      split; assumption.
  - intros u' h Hu'. apply lookup_insert_Some in Hu'.
    destruct Hu' as [[<- <-] | [Hne Hu']].
    + exists index. apply lookup_insert_eq.
    + destruct (H2 _ _ Hu') as [i Hi]. exists i.
      rewrite lookup_insert_ne; [exact Hi |]. intros <-. congruence.
  - intros i j u' Hi Hj.
    apply lookup_insert_Some in Hi. apply lookup_insert_Some in Hj.
    destruct Hi as [[<- <-] | [Hni Hi]], Hj as [[<- Hj] | [Hnj Hj]].
    + reflexivity.
    + exfalso. apply (Hnou j). exact Hj.
    + exfalso. subst u'. apply (Hnou i). exact Hi.
    + apply (H3 i j u'); assumption.
  - intros i h Hi. apply lookup_insert_Some in Hi.
    destruct Hi as [[<- <-] | [Hne Hi]].
    + exists u. apply lookup_insert_eq.
    + destruct (H4 _ _ Hi) as [u' Hu']. exists u'.
      rewrite lookup_insert_ne by exact Hne. exact Hu'.
  - intros i u' Hi. apply lookup_insert_Some in Hi.
    destruct Hi as [[<- <-] | [Hne Hi]].
    + split; [lia |]. intros C. destruct (Hfree _ C) as [_ C']. apply C'. reflexivity.
    + destruct (H5 _ _ Hi) as [Hb Hnf]. apply Hkeep; [exact Hb | exact Hnf | congruence].
  - split; [exact Hnd |]. intros i Hi. apply Hfree. exact Hi.
  - lia.
  - rewrite !map_size_insert_None by assumption. split; congruence.
Qed.

Lemma remove_in_step k r i u h :
  in_step k r -> indexToUUID r !! i = Some u -> playersByUUID r !! u = Some h ->
  in_step k (mk (delete u (playersByUUID r)) (delete i (playersByIndex r))
                (delete i (indexToUUID r)) (nextIndex r) (freeIndices r ++ [i])).
Proof.
  intros H Hi Hu. pose proof H as [H1 H2 H3 H4 H5 [H6 H6'] H7 [H8 H8']].
  destruct (H1 _ _ Hi) as (h' & Hh' & _).
  destruct (H5 _ _ Hi) as [Hib Hif].
  constructor; cbn [playersByUUID playersByIndex indexToUUID nextIndex freeIndices].
  - intros j u' Hj. apply lookup_delete_Some in Hj. destruct Hj as [Hne Hj].
    destruct (H1 _ _ Hj) as (x & Hx1 & Hx2). exists x.
    rewrite lookup_delete_ne by exact Hne.
    rewrite lookup_delete_ne; [split; assumption |].
    intros <-. apply Hne. apply (H3 i j u); assumption.
  - intros u' x Hu'. apply lookup_delete_Some in Hu'. destruct Hu' as [Hne Hu'].
    destruct (H2 _ _ Hu') as [j Hj]. exists j.
    rewrite lookup_delete_ne; [exact Hj |]. intros <-. congruence.
  - intros j j' u' Hj Hj'.
    apply lookup_delete_Some in Hj. apply lookup_delete_Some in Hj'.
    apply (H3 j j' u'); [apply Hj | apply Hj'].
  - intros j x Hj. apply lookup_delete_Some in Hj. destruct Hj as [Hne Hj].
    destruct (H4 _ _ Hj) as [u' Hu']. exists u'.
    rewrite lookup_delete_ne by exact Hne. exact Hu'.
  - intros j u' Hj. apply lookup_delete_Some in Hj. destruct Hj as [Hne Hj].
    destruct (H5 _ _ Hj) as [Hb Hnf]. split; [exact Hb |].
    intros C. apply elem_of_app in C. destruct C as [C | C]; [contradiction |].
    apply list_elem_of_singleton in C. congruence.
  - split.
    + apply NoDup_app. split; [exact H6 |]. split; [| apply NoDup_singleton].
      intros x Hx C. apply list_elem_of_singleton in C. subst x. contradiction.
    + intros x Hx. apply elem_of_app in Hx. destruct Hx as [Hx | Hx]; [apply H6'; exact Hx |].
      apply list_elem_of_singleton in Hx. subst x. exact Hib.
  - exact H7.
  - rewrite !map_size_delete_Some by (eexists; eassumption). split; congruence.
Qed.

Lemma Unregister_in_step k r u :
  in_step k r -> k < 2 ^ 64 - 1 ->
  in_step k (Unregister u r) /\
  (forall h, playersByUUID r !! u = Some h ->
     exists i, indexToUUID r !! i = Some u /\
       Unregister u r
       = mk (delete u (playersByUUID r)) (delete i (playersByIndex r))
            (delete i (indexToUUID r)) (nextIndex r) (freeIndices r ++ [i])).
Proof.
  intros H Hk. unfold Unregister.
  destruct (playersByUUID r !! u) as [h |] eqn:Hu; [| split; [exact H | discriminate]].
  destruct (step_uuid k r H u h Hu) as [i Hi].
  rewrite (find_index_spec k r u i H Hi).
  destruct (step_used k r H i u Hi) as [Hib _].
  pose proof (step_next k r H) as Hn.
  destruct (Z.eqb_spec i npos) as [E | _]; [unfold npos in E; lia |].
  cbn [negb]. split; [apply (remove_in_step k r i u h H Hi Hu) |].
  intros h' _. exists i. split; [exact Hi | reflexivity].
Qed.

Lemma UnregisterIndex_in_step k r i :
  in_step k r -> in_step k (UnregisterIndex i r).
Proof.
  intros H. unfold UnregisterIndex.
  destruct (indexToUUID r !! i) as [u |] eqn:Hi; [| exact H].
  destruct (step_index k r H i u Hi) as (h & _ & Hu).
  apply (remove_in_step k r i u h H Hi Hu).
Qed.

Lemma registry_step_in_step k r op :
  in_step k r -> k + 1 < 2 ^ 64 -> in_step (k + 1) (registry_step r op).
Proof.
  intros H Hk. destruct op as [[p |] | u | i |]; cbn [registry_step].
  - destruct (playersByUUID r !! GetUUID p) as [h |] eqn:Hu.
    + unfold Register. rewrite bool_decide_eq_true_2 by (eexists; exact Hu).
      apply (in_step_weaken k); [lia | exact H].
    + apply (Register_in_step k r p H Hk Hu).
  - apply (in_step_weaken k); [lia | exact H].
  - apply (in_step_weaken k); [lia |]. apply Unregister_in_step; [exact H | lia].
  - apply (in_step_weaken k); [lia |]. apply UnregisterIndex_in_step. exact H.
  - apply (in_step_weaken 0); [pose proof (step_next k r H); lia | exact in_step_init].
Qed.

Lemma registry_run_in_step ops : forall k r,
  in_step k r -> k + Z.of_nat (length ops) < 2 ^ 64 ->
  in_step (k + Z.of_nat (length ops)) (registry_run r ops).
Proof.
  induction ops as [| op ops IH]; intros k r H Hk; cbn [registry_run fold_left length] in *.
  - rewrite Z.add_0_r. exact H.
  - replace (k + Z.of_nat (S (length ops))) with (k + 1 + Z.of_nat (length ops)) by lia.
    apply IH; [| lia]. apply registry_step_in_step; [exact H | lia].
Qed.

(** The registry stays in step.  After any sequence of fewer than
    2^64 - 1 [Register], [Unregister] (by UUID or by index) and [Clear]
    calls on a new registry:
    - the three maps have the same size, so [GetPlayerCount] is the number
      of active indices;
    - a UUID leads to a player exactly when some index leads to the same
      player and is recorded for that UUID;
    - [Register] of a player whose UUID is already registered (or of the
      null pointer) answers [size_t(-1)] and changes nothing; otherwise it
      answers [GetNextAvailableIndex], an index that was not in use, and
      both lookups then lead to the player;
    - [Unregister] of a registered UUID removes it, frees its index, and
      that index is the next to be handed out. *)
Theorem registry_maps_stay_in_step (ops : list RegistryOp) :
  Z.of_nat (length ops) < 2 ^ 64 - 1 ->
  let r := registry_run init ops in
  (GetPlayerCount r = Z.of_nat (length (GetActiveIndices r)) /\
   size (indexToUUID r) = size (playersByUUID r)) /\
  (forall u h, GetByUUID r u = Some h <->
     exists i, GetByIndex r i = Some h /\ indexToUUID r !! i = Some u) /\
  (fst (Register r None) = npos /\ snd (Register r None) = r) /\
  (forall p, HasUUID r (GetUUID p) = true ->
     fst (Register r (Some p)) = npos /\ snd (Register r (Some p)) = r) /\
  (forall p, HasUUID r (GetUUID p) = false ->
     let i := fst (Register r (Some p)) in
     let r' := snd (Register r (Some p)) in
     i = GetNextAvailableIndex r /\ i <> npos /\ HasIndex r i = false /\
     GetByIndex r' i = Some (address p) /\
     GetByUUID r' (GetUUID p) = Some (address p) /\
     GetPlayerCount r' = GetPlayerCount r + 1) /\
  (forall u, HasUUID r u = true ->
     let r' := Unregister u r in
     HasUUID r' u = false /\
     exists i, indexToUUID r !! i = Some u /\ HasIndex r' i = false /\
               GetNextAvailableIndex r' = i).
Proof.
  intros Hlen. cbv zeta.
  pose proof (registry_run_in_step ops 0 init in_step_init ltac:(lia)) as H.
  rewrite Z.add_0_l in H.
  set (r := registry_run init ops) in *.
  set (k := Z.of_nat (length ops)) in *.
  pose proof H as [H1 H2 H3 H4 H5 [H6 H6'] H7 [H8 H8']].
  split; [| split; [| split; [| split; [| split]]]].
  - split; [| symmetry; exact H8].
    unfold GetPlayerCount, GetActiveIndices. f_equal.
    rewrite merge_sort_Permutation, length_fmap, length_map_to_list. congruence.
  - intros u h. unfold GetByUUID, GetByIndex. split.
    + intros Hu. destruct (H2 _ _ Hu) as [i Hi].
      destruct (H1 _ _ Hi) as (h' & Hh1 & Hh2). exists i.
      split; [congruence | exact Hi].
    + intros (i & Hh & Hi). destruct (H1 _ _ Hi) as (h' & Hh1 & Hh2). congruence.
  - split; reflexivity.
  - intros p Hp. unfold HasUUID in Hp. unfold Register. rewrite Hp. split; reflexivity.
  - intros p Hp. unfold HasUUID in Hp. apply bool_decide_eq_false_1 in Hp.
    assert (Hnew : playersByUUID r !! GetUUID p = None).
    { destruct (playersByUUID r !! GetUUID p) eqn:E; [| reflexivity].
      exfalso. apply Hp. eexists. reflexivity. }
    destruct (Register_in_step k r p H ltac:(lia) Hnew)
      as (_ & Hidx & Hib & Hnone & E1 & E2 & E3).
    cbv zeta in *. split; [exact Hidx |].
    split; [unfold npos; lia |].
    split; [unfold HasIndex; apply bool_decide_eq_false_2; rewrite Hnone;
            intros [x Hx]; discriminate |].
    unfold GetByIndex, GetByUUID, GetPlayerCount. rewrite E1, E2.
    rewrite !lookup_insert_eq, map_size_insert_None by exact Hnew.
    split; [reflexivity |]. split; [reflexivity | lia].
  - intros u Hu. unfold HasUUID in Hu. apply bool_decide_eq_true_1 in Hu.
    destruct Hu as [h Hu].
    destruct (Unregister_in_step k r u H ltac:(lia)) as [_ Hun].
    destruct (Hun h Hu) as (i & Hi & ->).
    unfold HasUUID, HasIndex, GetNextAvailableIndex.
    cbn [playersByUUID playersByIndex freeIndices].
    split.
    + apply bool_decide_eq_false_2. rewrite lookup_delete_eq. intros [x Hx]. discriminate.
    + exists i. split; [exact Hi |]. split.
      * apply bool_decide_eq_false_2. rewrite lookup_delete_eq. intros [x Hx]. discriminate.
      * destruct (freeIndices r ++ [i]) as [| x rest] eqn:E.
        -- destruct (freeIndices r); discriminate.
        -- rewrite <- (last_cons_default rest x 0), <- E. apply last_last.
Qed.

Lemma registry_maps_stay_in_step_witness :
  GetPlayerCount
    (registry_run init
       [PRegister (Some (mkView 1 "p1")); PRegister (Some (mkView 2 "p2"));
        PUnregister "p1"; PRegister (Some (mkView 3 "p3"))])
  = Z.of_nat (length (GetActiveIndices
       (registry_run init
          [PRegister (Some (mkView 1 "p1")); PRegister (Some (mkView 2 "p2"));
           PUnregister "p1"; PRegister (Some (mkView 3 "p3"))]))).
Proof.
  apply (registry_maps_stay_in_step
           [PRegister (Some (mkView 1 "p1")); PRegister (Some (mkView 2 "p2"));
            PUnregister "p1"; PRegister (Some (mkView 3 "p3"))]).
  cbn. lia.
Defined.

End RegistryProperties.

(** ** The connection monitor: metrics in range *)

Section MonitorProperties.

Import ConnectionMonitor.

Inductive MonitorOp : Type :=
| MPing (pingMs now1 now2 : Z)
| MSent (packetId : Z)
| MReceived (packetId now : Z)
| MUpdate (now : Z)
| MSetTimeout (milliseconds : Z).

Definition monitor_step (r : t) (op : MonitorOp) : t :=
  match op with
  | MPing pingMs now1 now2 => RecordPing r pingMs now1 now2
  | MSent packetId => RecordPacketSent r packetId
  | MReceived packetId now => RecordPacketReceived r packetId now
  | MUpdate now => Update r now
  | MSetTimeout milliseconds => SetTimeout milliseconds r
  end.

Definition monitor_run (r : t) (ops : list MonitorOp) : t :=
  fold_left monitor_step ops r.

(** A ping is a [uint32_t]. *)
Definition typed (op : MonitorOp) : Prop :=
  match op with
  | MPing pingMs _ _ => is_u32 pingMs
  | _ => True
  end.

Record in_range (k : Z) (r : t) : Prop := mk_in_range {
  range_sizes : maxPingHistory r = 30 /\ maxTrackedPackets r = 100;
  range_pings : (length (pingHistory r) <= 30)%nat /\ Forall is_u32 (pingHistory r);
  range_ids : (length (sentPacketIds r) <= 100)%nat;
  range_counts : 0 <= totalPacketsLost r <= totalPacketsSent r /\
                 totalPacketsSent r <= k /\ 0 <= totalPacketsReceived r
}.

Lemma set_quality_in_range k q r : in_range k r -> in_range k (set_quality q r).
Proof. intros [H1 H2 H3 H4]. constructor; assumption. Qed.

Lemma UpdateQuality_in_range k r now : in_range k r -> in_range k (UpdateQuality r now).
Proof.
  intros H. unfold UpdateQuality.
  repeat match goal with
         | |- context [if ?b then _ else _] => destruct b
         end; apply set_quality_in_range, H.
Qed.

Lemma UpdateQuality_fields r now :
  let r' := UpdateQuality r now in
  pingHistory r' = pingHistory r /\ currentPing r' = currentPing r /\
  totalPacketsSent r' = totalPacketsSent r /\
  totalPacketsLost r' = totalPacketsLost r /\
  lastPacketTime r' = lastPacketTime r /\ timeoutMs r' = timeoutMs r /\
  jitter r' = jitter r.
Proof.
  cbv zeta. unfold UpdateQuality.
  repeat match goal with
         | |- context [if ?b then _ else _] => destruct b
         end; repeat split.
Qed.

Lemma tl_length_le {A : Type} (l : list A) (n : nat) :
  (length l <= S n)%nat -> (length (tl l) <= n)%nat.
Proof. destruct l; cbn; lia. Qed.

Lemma erase_first_length packetId ids :
  (length (erase_first packetId ids) <= length ids)%nat.
Proof.
  induction ids as [| x ids IH]; cbn; [lia |].
  destruct (x =? packetId); cbn; lia.
Qed.

Lemma monitor_step_in_range k r op :
  typed op -> k + 1 < 2 ^ 64 -> in_range k r -> in_range (k + 1) (monitor_step r op).
Proof.
  intros Hop Hk H. pose proof H as [[Hs1 Hs2] [Hp1 Hp2] Hi (Hl & Hsent & Hrecv)].
  destruct op as [ping now1 now2 | packetId | packetId now | now | ms];
    cbn [monitor_step typed] in *.
  - unfold RecordPing.
    match goal with
    | |- in_range _ (mk _ _ _ _ _ _ _ _ _ _ now2 _) => idtac
    end.
    set (history := if maxPingHistory r <? Z.of_nat (length (pingHistory r ++ [ping]))
                    then tl (pingHistory r ++ [ping]) else pingHistory r ++ [ping]).
    assert (Hh : (length history <= 30)%nat /\ Forall is_u32 history).
    { subst history. rewrite Hs1.
      assert (Hall : Forall is_u32 (pingHistory r ++ [ping])).
      { apply Forall_app. split; [exact Hp2 |].
        apply List.Forall_cons; [exact Hop | constructor]. }
      destruct (Z.ltb_spec 30 (Z.of_nat (length (pingHistory r ++ [ping])))) as [Hlt | Hge].
      - split; [apply tl_length_le; rewrite length_app; cbn; lia |].
        destruct (pingHistory r ++ [ping]); [constructor |].
        apply Forall_inv_tail in Hall. exact Hall.
      - split; [lia | exact Hall]. }
    set (r1 := UpdateJitter _).
    assert (H1 : in_range (k + 1) r1).
    { subst r1. unfold UpdateJitter. constructor; cbn; try tauto. lia. }
    pose proof (UpdateQuality_in_range (k + 1) r1 now1 H1) as [A1 A2 A3 A4].
    constructor; cbn; assumption.
  - unfold RecordPacketSent. constructor; cbn; try tauto.
    + rewrite Hs2.
      destruct (Z.ltb_spec 100 (Z.of_nat (length (sentPacketIds r ++ [packetId]))));
        [apply tl_length_le; rewrite length_app; cbn; lia | lia].
    + rewrite incr64_exact by lia. lia.
  - unfold RecordPacketReceived. constructor; cbn; try tauto.
    + pose proof (erase_first_length packetId (sentPacketIds r)). lia.
    + pose proof (wrap64_range (totalPacketsReceived r + 1)) as Hw.
      unfold incr64, is_u64 in *. lia.
  - unfold Update. apply UpdateQuality_in_range. unfold CheckForLostPackets.
    destruct (Z.ltb_spec 0 (totalPacketsSent r)); cbn [andb];
      [| constructor; try tauto; lia].
    destruct (Z.ltb_spec (totalPacketsReceived r) (totalPacketsSent r));
      [| constructor; try tauto; lia].
    constructor; cbn; try tauto.
    rewrite sub64_exact by lia. lia.
  - unfold SetTimeout. constructor; cbn; try tauto. lia.
Qed.

Lemma monitor_run_in_range ops : forall k r,
  Forall typed ops -> k + Z.of_nat (length ops) < 2 ^ 64 -> in_range k r ->
  in_range (k + Z.of_nat (length ops)) (monitor_run r ops).
Proof.
  induction ops as [| op ops IH]; intros k r Hall Hk H;
    cbn [monitor_run fold_left length] in *.
  - rewrite Z.add_0_r. exact H.
  - replace (k + Z.of_nat (S (length ops))) with (k + 1 + Z.of_nat (length ops)) by lia.
    apply IH; [apply (Forall_inv_tail Hall) | lia |].
    apply monitor_step_in_range; [apply (Forall_inv Hall) | lia | exact H].
Qed.

Lemma fold_add64_exact (l : list Z) : forall acc,
  0 <= acc -> Forall (fun x => 0 <= x) l ->
  acc + fold_right Z.add 0 l < 2 ^ 64 ->
  fold_left add64 l acc = acc + fold_right Z.add 0 l.
Proof.
  induction l as [| x l IH]; intros acc Hacc Hall Hsum; cbn [fold_left fold_right] in *.
  - lia.
  - pose proof (Forall_inv Hall) as Hx. pose proof (Forall_inv_tail Hall) as Hl.
    cbv beta in Hx.
    assert (Hnn : 0 <= fold_right Z.add 0 l).
    { clear - Hl. induction Hl as [| y l Hy _ IH]; cbn in *; lia. }
    rewrite add64_exact by lia. rewrite IH by (try assumption; lia). lia.
Qed.

Lemma sum_between (lo hi : Z) (l : list Z) :
  Forall (fun x => lo <= x <= hi) l ->
  lo * Z.of_nat (length l) <= fold_right Z.add 0 l <= hi * Z.of_nat (length l).
Proof.
  induction 1 as [| x l Hx _ IH]; cbn [fold_right length]; [lia |].
  cbv beta in Hx. lia.
Qed.

Lemma average_between (lo hi : Z) (r : t) :
  (length (pingHistory r) <= 30)%nat -> Forall is_u32 (pingHistory r) ->
  pingHistory r <> [] ->
  Forall (fun x => lo <= x <= hi) (pingHistory r) ->
  lo <= GetAveragePing r <= hi.
Proof.
  intros Hlen Hu32 Hne Hall. unfold GetAveragePing.
  destruct (pingHistory r) as [| x l] eqn:E; [contradiction |].
  set (h := x :: l) in *.
  pose proof (sum_between lo hi h Hall) as Hsum.
  pose proof (sum_between 0 (2 ^ 32 - 1) h) as Hsum32.
  assert (Hall32 : Forall (fun y => 0 <= y <= 2 ^ 32 - 1) h).
  { eapply Forall_impl; [exact Hu32 |]. unfold is_u32. cbn. intros y Hy. lia. }
  specialize (Hsum32 Hall32).
  assert (Hn : 0 < Z.of_nat (length h)) by (subst h; cbn [length]; lia).
  assert (Hn30 : Z.of_nat (length h) <= 30) by lia.
  unfold sum_u64. rewrite fold_add64_exact.
  - rewrite Z.add_0_l.
    assert (Hq : 0 <= fold_right Z.add 0 h / Z.of_nat (length h) <= 2 ^ 32 - 1).
    { split; [apply Z.div_pos; lia |].
      apply Z.div_le_upper_bound; [lia |]. lia. }
    rewrite wrap32_small by (unfold is_u32; lia).
    split.
    + apply Z.div_le_lower_bound; lia.
    + apply Z.div_le_upper_bound; lia.
  - lia.
  - eapply Forall_impl; [exact Hu32 |]. unfold is_u32. cbn. intros y Hy. lia.
  - assert (2 ^ 32 * 30 < 2 ^ 64) by (cbn; lia).
    assert (2 ^ 32 = 4294967296) by reflexivity. nia.
Qed.

Lemma loss_percentage (r : t) :
  0 <= totalPacketsLost r <= totalPacketsSent r ->
  (0 <= GetPacketLoss r <= 100)%R.
Proof.
  intros [H0 H1]. unfold GetPacketLoss, CalculatePacketLoss.
  destruct (Z.eqb_spec (totalPacketsSent r) 0) as [E | Hne]; [lra |].
  assert (Hs : (0 < IZR (totalPacketsSent r))%R) by (apply IZR_lt; lia).
  assert (Hl : (0 <= IZR (totalPacketsLost r) <= IZR (totalPacketsSent r))%R).
  { split; apply IZR_le; lia. }
  assert (Hq : (0 <= IZR (totalPacketsLost r) / IZR (totalPacketsSent r) <= 1)%R).
  { split.
    - apply Rmult_le_pos; [lra |]. left. apply Rinv_0_lt_compat. exact Hs.
    - apply (Rmult_le_reg_r (IZR (totalPacketsSent r))); [exact Hs |].
      unfold Rdiv. rewrite Rmult_assoc, Rinv_l by lra. lra. }
  lra.
Qed.

(** Metrics in range.  After any sequence of fewer than 2^64 calls of
    [RecordPing] (with [uint32_t] pings), [RecordPacketSent],
    [RecordPacketReceived], [Update] and [SetTimeout] on a new monitor:
    the ping history holds at most 30 pings and the queue of sent packet
    IDs at most 100; the packets counted as lost never exceed those sent,
    so the packet loss is a percentage between 0 and 100; the average
    ping lies between any bounds that hold for all pings of the history.
    [Update] classifies the connection as [DISCONNECTED] exactly when the
    time since the last packet, in whole milliseconds, exceeds the
    timeout. *)
Theorem monitor_metrics_in_range (t0 : Z) (ops : list MonitorOp) (now lo hi : Z) :
  Forall typed ops ->
  Z.of_nat (length ops) < 2 ^ 64 ->
  let r := monitor_run (create t0) ops in
  (length (pingHistory r) <= 30)%nat /\
  (length (sentPacketIds r) <= 100)%nat /\
  0 <= totalPacketsLost r <= totalPacketsSent r /\
  (0 <= GetPacketLoss r <= 100)%R /\
  (pingHistory r <> [] -> Forall (fun x => lo <= x <= hi) (pingHistory r) ->
   lo <= GetAveragePing r <= hi) /\
  (quality (Update r now) = DISCONNECTED <-> timeoutMs r < elapsed_ms r now).
Proof.
  intros Htyped Hlen. cbv zeta.
  assert (H0 : in_range 0 (create t0)).
  { constructor; cbn; repeat split; try lia; constructor. }
  pose proof (monitor_run_in_range ops 0 (create t0) Htyped ltac:(lia) H0) as H.
  set (r := monitor_run (create t0) ops) in *.
  pose proof H as [_ [Hp1 Hp2] Hi (Hl & _ & _)].
  split; [exact Hp1 |]. split; [exact Hi |]. split; [exact Hl |].
  split; [apply loss_percentage; exact Hl |].
  split; [intros Hne Hall; apply average_between; assumption |].
  unfold Update, UpdateQuality.
  assert (Hto : IsTimedOut (CheckForLostPackets r) now = (timeoutMs r <? elapsed_ms r now)).
  { unfold IsTimedOut, elapsed_ms, CheckForLostPackets.
    destruct (_ && _); reflexivity. }
  rewrite Hto. destruct (Z.ltb_spec (timeoutMs r) (elapsed_ms r now)) as [Hlt | Hge].
  - split; [intros _; exact Hlt | reflexivity].
  - split; [| lia].
    repeat match goal with
           | |- context [if ?b then _ else _] => destruct b
           end; discriminate.
Qed.

Lemma monitor_metrics_in_range_witness :
  0 <= totalPacketsLost
         (monitor_run (create 0) [MSent 0; MSent 1; MReceived 0 5; MUpdate 7; MPing 40 8 9])
    <= totalPacketsSent
         (monitor_run (create 0) [MSent 0; MSent 1; MReceived 0 5; MUpdate 7; MPing 40 8 9]).
Proof.
  apply (monitor_metrics_in_range 0
           [MSent 0; MSent 1; MReceived 0 5; MUpdate 7; MPing 40 8 9] 0 0 0).
  - repeat (apply List.Forall_cons; [try exact I; unfold typed, is_u32; lia |]). constructor.
  - cbn. lia.
Defined.

End MonitorProperties.

(** ** The client: commands sent in a row *)

Section ClientProperties.

Context {W : World} {F : Facing}.

Import MultiplayerClient.

(** [SendCommand] for each control word in turn; [None] when one of the
    calls dereferences the null UUID. *)
Fixpoint send_all (c : t) (commands : list Z) : option t :=
  match commands with
  | [] => Some c
  | command :: rest =>
      match SendCommand c command with
      | Some c' => send_all c' rest
      | None => None
      end
  end.

(** The commands that a welcomed client numbers from [tick] and [sent]. *)
Fixpoint numbered (uuid : EsUuid) (tick sent : Z) (commands : list Z)
  : list PlayerCommand.t :=
  match commands with
  | [] => []
  | command :: rest =>
      PlayerCommand.mk uuid tick command Point0 false (wrap32 sent)
      :: numbered uuid (tick + 1) (sent + 1) rest
  end.

Lemma SendCommand_connected (c : t) (u : EsUuid) (command : Z) :
  state c = CONNECTED -> playerUUID c = Some u ->
  let cmd := PlayerCommand.mk u (GameState.gameTick (gameState c)) command
               Point0 false (wrap32 (commandsSent c)) in
  exists c1,
    SendCommand c command = Some c1 /\
    state c1 = CONNECTED /\ playerUUID c1 = Some u /\
    predictor c1 = Predictor.RecordCommand cmd (predictor c) /\
    gameState c1 = GameState.Step (gameState c) /\
    commandsSent c1 = incr64 (commandsSent c) /\
    stateUpdatesReceived c1 = stateUpdatesReceived c /\
    predictionErrors c1 = predictionErrors c.
Proof.
  intros Hstate Hu. cbv zeta. unfold SendCommand. rewrite Hstate, Hu.
  eexists. split; [reflexivity |]. cbn. rewrite Hstate, Hu. repeat split.
Qed.

Lemma send_all_numbered (N : nat) (u : EsUuid) (commands : list Z) :
  forall (c : t) (past : list PlayerCommand.t),
  state c = CONNECTED -> playerUUID c = Some u ->
  Predictor.maxUnconfirmedCommands (predictor c) = Z.of_nat N ->
  Predictor.unconfirmedCommands (predictor c) = lastn N past ->
  0 <= GameState.gameTick (gameState c) ->
  GameState.gameTick (gameState c) + Z.of_nat (length commands) < 2 ^ 64 ->
  0 <= commandsSent c ->
  commandsSent c + Z.of_nat (length commands) < 2 ^ 64 ->
  exists c',
    send_all c commands = Some c' /\
    state c' = CONNECTED /\ playerUUID c' = Some u /\
    commandsSent c' = commandsSent c + Z.of_nat (length commands) /\
    GameState.gameTick (gameState c')
    = GameState.gameTick (gameState c) + Z.of_nat (length commands) /\
    Predictor.unconfirmedCommands (predictor c')
    = lastn N (past ++ numbered u (GameState.gameTick (gameState c))
                          (commandsSent c) commands) /\
    Predictor.maxUnconfirmedCommands (predictor c') = Z.of_nat N /\
    stateUpdatesReceived c' = stateUpdatesReceived c /\
    predictionErrors c' = predictionErrors c.
Proof.
  induction commands as [| command rest IH];
    intros c past Hstate Hu HN Hpast Ht0 Ht Hs0 Hs; cbn [send_all numbered length] in *.
  - exists c. rewrite app_nil_r, !Z.add_0_r. repeat split; assumption.
  - destruct (SendCommand_connected c u command Hstate Hu)
      as (c1 & Esend & B1 & B2 & B3 & B4 & B5 & B6 & B7).
    rewrite Esend.
    set (cmd := PlayerCommand.mk u (GameState.gameTick (gameState c)) command
                  Point0 false (wrap32 (commandsSent c))) in *.
    assert (Htick1 : GameState.gameTick (gameState c1)
                     = GameState.gameTick (gameState c) + 1).
    { rewrite B4, Step_gameTick. apply incr64_exact; lia. }
    assert (Hsent1 : commandsSent c1 = commandsSent c + 1).
    { rewrite B5. apply incr64_exact; lia. }
    destruct (IH c1 (past ++ [cmd])) as (c' & E & A1 & A2 & A3 & A4 & A5 & A6 & A7 & A8).
    + exact B1.
    + exact B2.
    + rewrite B3. exact HN.
    + rewrite B3.
      rewrite (RecordCommand_lastn N) by
        (try exact HN; rewrite Hpast, lastn_length; lia).
      rewrite Hpast. apply lastn_app_lastn.
    + lia.
    + lia.
    + lia.
    + lia.
    + exists c'. split; [exact E |].
      rewrite Htick1, Hsent1 in *.
      split; [exact A1 |]. split; [exact A2 |]. split; [lia |]. split; [lia |].
      split; [rewrite A5, <- app_assoc; reflexivity |].
      split; [exact A6 |]. split; [congruence | congruence].
Qed.

(** Commands in a row.  A connected and welcomed client (ticks and
    counters below 2^64), whose predictor holds no more than its bound [N]
    of unconfirmed commands, sends any list of commands without fault.
    The command number [i] carries the client's UUID, the tick of the
    client's world when it was sent, which is the starting tick plus [i],
    and the sequence number [commandsSent + i] cut to 32 bits; afterwards
    the predictor holds the last [N] of the old and the new commands, the
    world has advanced by one tick per command, and the counter of sent
    commands by one per command.  A client that is not connected ignores
    [SendCommand]. *)
Theorem client_numbers_its_commands (N : nat) (u : EsUuid) (c : t)
  (commands : list Z) :
  state c = CONNECTED -> playerUUID c = Some u ->
  Predictor.maxUnconfirmedCommands (predictor c) = Z.of_nat N ->
  (length (Predictor.unconfirmedCommands (predictor c)) <= N)%nat ->
  0 <= GameState.gameTick (gameState c) ->
  GameState.gameTick (gameState c) + Z.of_nat (length commands) < 2 ^ 64 ->
  0 <= commandsSent c ->
  commandsSent c + Z.of_nat (length commands) < 2 ^ 64 ->
  (exists c',
     send_all c commands = Some c' /\
     state c' = CONNECTED /\ playerUUID c' = Some u /\
     commandsSent c' = commandsSent c + Z.of_nat (length commands) /\
     GameState.gameTick (gameState c')
     = GameState.gameTick (gameState c) + Z.of_nat (length commands) /\
     Predictor.unconfirmedCommands (predictor c')
     = lastn N (Predictor.unconfirmedCommands (predictor c)
                ++ numbered u (GameState.gameTick (gameState c))
                     (commandsSent c) commands)) /\
  (forall (d : t) (command : Z), state d <> CONNECTED -> SendCommand d command = Some d).
Proof.
  intros Hstate Hu HN Hlen Ht0 Ht Hs0 Hs. split.
  - destruct (send_all_numbered N u commands c
                (Predictor.unconfirmedCommands (predictor c)))
      as (c' & E & A1 & A2 & A3 & A4 & A5 & _); try assumption.
    + symmetry. apply lastn_all. exact Hlen.
    + exists c'. repeat split; assumption.
  - intros d command Hd. unfold SendCommand.
    destruct (state d); try reflexivity. contradiction.
Qed.

End ClientProperties.

(** A client that connected and was welcomed as "p1". *)
Definition welcomed_client : MultiplayerClient.t (W := bare_world) (F := plain_degrees) :=
  MultiplayerClient.OnServerWelcome
    (MultiplayerClient.OnConnected (MultiplayerClient.create 0)) "p1".

Lemma client_numbers_its_commands_witness :
  exists c',
    send_all welcomed_client [7; 8] = Some c' /\
    MultiplayerClient.commandsSent c' = 2.
Proof.
  destruct (client_numbers_its_commands (W := bare_world) (F := plain_degrees)
              60 "p1" welcomed_client [7; 8]) as [(c' & E & _ & _ & Hs & _) _].
  - reflexivity.
  - reflexivity.
  - reflexivity.
  - cbn. lia.
  - cbn. lia.
  - cbn. lia.
  - cbn. lia.
  - cbn. lia.
  - exists c'. split; [exact E | exact Hs].
Defined.

(** ** StateSync: which ships a player is told about *)

Section UpdateSelection.

Import InterestManager StateSync.

Context {F : Facing}.











End UpdateSelection.


